(** * BCL: the execution core of the interpreter, embedded in Rocq

    The development follows the C sources file by file:
    [bcl_string.c] (case-insensitive comparison, number conversion),
    [bcl_hash.c] (case-insensitive tables), [bcl_interp.c] (scopes,
    variables, procedures), [bcl_parser.c] (tokenizer and substitution),
    [bcl_expr.c] (expression evaluator), [bcl_block.c] (block parser and
    block executor), [bcl_eval.c] (dispatcher and flat evaluator),
    [bcl_commands.c] and [bcl_control.c] (the core commands).

    C [double] is IEEE 754 binary64, modelled by [spec_float] with the
    operations of [SpecFloat] at precision 53 and maximal exponent 1024.
    C strings are [string]; a [NULL] pointer is [None]. *)

From Stdlib Require Import ZArith List String Ascii Bool Lia.
From Stdlib Require Import Floats.SpecFloat.
Import ListNotations.

Local Open Scope string_scope.
Local Open Scope Z_scope.

(* ====================================================================== *)
(** ** <ctype.h> in the "C" locale *)

Module Ctype.

Definition code (c : ascii) : Z := Z.of_N (N_of_ascii c).

Definition isspace (c : ascii) : bool :=
  (code c =? 32) || ((9 <=? code c) && (code c <=? 13)).

Definition isdigit (c : ascii) : bool :=
  (48 <=? code c) && (code c <=? 57).

Definition isupper (c : ascii) : bool :=
  (65 <=? code c) && (code c <=? 90).

Definition islower (c : ascii) : bool :=
  (97 <=? code c) && (code c <=? 122).

Definition isalpha (c : ascii) : bool := isupper c || islower c.

Definition isalnum (c : ascii) : bool := isalpha c || isdigit c.

Definition isxdigit (c : ascii) : bool :=
  isdigit c || ((65 <=? code c) && (code c <=? 70))
  || ((97 <=? code c) && (code c <=? 102)).

Definition tolower (c : ascii) : ascii :=
  if isupper c then ascii_of_N (N_of_ascii c + 32) else c.

Definition chr_eqb (a b : ascii) : bool := Ascii.eqb a b.

End Ctype.
Export Ctype.

(* ====================================================================== *)
(** ** <string.h>: the few functions the sources call *)

Module Cstring.

Fixpoint strchr_mem (c : ascii) (set : string) : bool :=
  match set with
  | EmptyString => false
  | String d r => Ascii.eqb c d || strchr_mem c r
  end.

(** [strchr (s, c)]: the suffix of [s] starting at the first [c]. *)
Fixpoint strchr (s : string) (c : ascii) : option string :=
  match s with
  | EmptyString => None
  | String d r => if Ascii.eqb c d then Some s else strchr r c
  end.

Fixpoint skip_delims (delims s : string) : string :=
  match s with
  | EmptyString => EmptyString
  | String c r => if strchr_mem c delims then skip_delims delims r else s
  end.

(** The token at the head of [s] and what follows the delimiter that
    ended it (the new save pointer). *)
Fixpoint span_token (delims s : string) : string * string :=
  match s with
  | EmptyString => (EmptyString, EmptyString)
  | String c r =>
      if strchr_mem c delims then (EmptyString, r)
      else let (t, rest) := span_token delims r in (String c t, rest)
  end.

(** One call of [strtok_r] on the text still to be scanned: [None] is the
    [NULL] result, otherwise the token and the save pointer. *)
Definition strtok_r (s delims : string) : option (string * string) :=
  match skip_delims delims s with
  | EmptyString => None
  | s' => Some (span_token delims s')
  end.

(** All the tokens a loop [tok = strtok_r (...); while (tok) ...] sees. *)
Fixpoint strtok_loop (fuel : nat) (s delims : string) : list string :=
  match fuel with
  | O => []
  | S f =>
      match strtok_r s delims with
      | None => []
      | Some (t, rest) => t :: strtok_loop f rest delims
      end
  end.

Definition strtok_all (s delims : string) : list string :=
  strtok_loop (S (String.length s)) s delims.

Fixpoint skip_while (p : ascii -> bool) (s : string) : string :=
  match s with
  | EmptyString => EmptyString
  | String c r => if p c then skip_while p r else s
  end.

Fixpoint take_while (p : ascii -> bool) (s : string) : string :=
  match s with
  | EmptyString => EmptyString
  | String c r => if p c then String c (take_while p r) else EmptyString
  end.

Fixpoint drop (n : nat) (s : string) : string :=
  match n, s with
  | O, _ => s
  | S k, String _ r => drop k r
  | S _, EmptyString => EmptyString
  end.

Fixpoint take (n : nat) (s : string) : string :=
  match n, s with
  | S k, String c r => String c (take k r)
  | _, _ => EmptyString
  end.

Fixpoint rev_acc (s acc : string) : string :=
  match s with
  | EmptyString => acc
  | String c r => rev_acc r (String c acc)
  end.

Definition rev (s : string) : string := rev_acc s EmptyString.

(** Drop the trailing characters satisfying [p] (the "trim trailing
    spaces" loops of the sources). *)
Definition rtrim (p : ascii -> bool) (s : string) : string :=
  rev (skip_while p (rev s)).

Definition last_char (s : string) : option ascii :=
  match rev s with
  | EmptyString => None
  | String c _ => Some c
  end.

Fixpoint join (sep : string) (l : list string) : string :=
  match l with
  | [] => EmptyString
  | [x] => x
  | x :: r => x ++ sep ++ join sep r
  end.

End Cstring.
Export Cstring.

(* ====================================================================== *)
(** ** C [double] and the part of <stdlib.h>, <math.h> and <stdio.h>
       that converts between numbers and text *)

Module Cdouble.

Definition double := spec_float.

Definition prec : Z := 53.
Definition emax : Z := 1024.

Definition d_zero : double := S754_zero false.
Definition d_of_Z (n : Z) : double := binary_normalize prec emax n 0 false.
Definition d_one : double := d_of_Z 1.

Definition d_add (x y : double) : double := SFadd prec emax x y.
Definition d_sub (x y : double) : double := SFsub prec emax x y.
Definition d_mul (x y : double) : double := SFmul prec emax x y.
Definition d_div (x y : double) : double := SFdiv prec emax x y.
Definition d_sqrt (x : double) : double := SFsqrt prec emax x.
Definition d_abs (x : double) : double := SFabs x.
Definition d_opp (x : double) : double := SFopp x.

(** The C comparisons: all false on NaN, except [!=]. *)
Definition d_eq (x y : double) : bool := SFeqb x y.
Definition d_lt (x y : double) : bool := SFltb x y.
Definition d_le (x y : double) : bool := SFleb x y.
Definition d_gt (x y : double) : bool := SFltb y x.
Definition d_ge (x y : double) : bool := SFleb y x.
Definition d_ne (x y : double) : bool := negb (SFeqb x y).

(** The value of a finite double as a fraction [num / 2^k]. *)
Definition d_fraction (m : positive) (e : Z) : Z * Z :=
  if 0 <=? e then (Z.pos m * 2 ^ e, 1) else (Z.pos m, 2 ^ (- e)).

(** Round the positive fraction [n / d] to the nearest integer, ties to
    even (the default rounding of printf). *)
Definition round_half_even (n d : Z) : Z :=
  let q := n / d in
  let r := n mod d in
  match (2 * r ?= d) with
  | Lt => q
  | Gt => q + 1
  | Eq => if Z.even q then q else q + 1
  end.

(** [floor], [ceil], [round] of <math.h>. *)
Definition d_floor (x : double) : double :=
  match x with
  | S754_finite s m e =>
      if 0 <=? e then x
      else
        let (n, d) := d_fraction m e in
        let q := n / d in
        if s then binary_normalize prec emax (- (if n mod d =? 0 then q else q + 1)) 0 true
        else binary_normalize prec emax q 0 false
  | _ => x
  end.

Definition d_ceil (x : double) : double := d_opp (d_floor (d_opp x)).

(** [round]: halfway cases away from zero. *)
Definition d_round (x : double) : double :=
  match x with
  | S754_finite s m e =>
      if 0 <=? e then x
      else
        let (n, d) := d_fraction m e in
        let q := if 2 * (n mod d) <? d then n / d else n / d + 1 in
        binary_normalize prec emax (if s then - q else q) 0 s
  | _ => x
  end.

(** *** Decimal text of integers *)

Definition digit_char (d : Z) : ascii := ascii_of_N (Z.to_N (48 + d)).

Fixpoint digits_loop (fuel : nat) (n : Z) (acc : string) : string :=
  match fuel with
  | O => acc
  | S f =>
      let acc' := String (digit_char (n mod 10)) acc in
      if n / 10 =? 0 then acc' else digits_loop f (n / 10) acc'
  end.

(** Decimal digits of a natural number [n >= 0]. *)
Definition Z_digits (n : Z) : string :=
  digits_loop (S (Z.to_nat (Z.log2 n))) n EmptyString.

Fixpoint zeros (k : nat) : string :=
  match k with
  | O => EmptyString
  | S j => String "0"%char (zeros j)
  end.

(** [n] in decimal, left-padded with zeros to at least [w] digits. *)
Definition Z_digits_pad (w : nat) (n : Z) : string :=
  let s := Z_digits n in
  zeros (w - String.length s) ++ s.

Definition sign_text (s : bool) : string := if s then "-" else "".

(** *** snprintf

    [snprintf (buf, size, format, ...)] stores the first [size - 1]
    characters of the formatted text. *)
Definition snprintf (size : nat) (text : string) : string :=
  take (size - 1) text.

(** The text of the conversion [%.0f]. *)
Definition fmt_0f (x : double) : string :=
  match x with
  | S754_zero s => sign_text s ++ "0"
  | S754_infinity s => sign_text s ++ "inf"
  | S754_nan => "nan"
  | S754_finite s m e =>
      let (n, d) := d_fraction m e in
      sign_text s ++ Z_digits (round_half_even n d)
  end.

(** The text of the conversion [%.15g].

    [P = 15] significant digits; with [X] the decimal exponent of the
    rounded value, style [f] with [P - 1 - X] decimals when
    [-4 <= X < P], else style [e]; trailing zeros are removed. *)

Definition pow10 (k : Z) : Z := 10 ^ k.

(** Largest [X] with [10^X <= n/d], searched downwards from an upper
    estimate. *)
Fixpoint dec_exponent_loop (fuel : nat) (n d x : Z) : Z :=
  match fuel with
  | O => x
  | S f =>
      let ok := if 0 <=? x then pow10 x * d <=? n else d <=? n * pow10 (- x) in
      if ok then x else dec_exponent_loop f n d (x - 1)
  end.

Definition dec_exponent (n d : Z) : Z :=
  let hi := Z.log2 n - Z.log2 d + 1 in
  dec_exponent_loop 2200 n d ((if 0 <=? hi then hi / 3 else (hi * 3) / 10) + 1).

(** The 15 significant digits of [n/d] and the decimal exponent, after
    rounding. *)
Definition sig15 (n d : Z) : Z * Z :=
  let x := dec_exponent n d in
  let sh := 14 - x in
  let m := if 0 <=? sh then round_half_even (n * pow10 sh) d
           else round_half_even n (d * pow10 (- sh)) in
  if pow10 15 <=? m then (pow10 14, x + 1) else (m, x).

Definition strip_zeros (s : string) : string :=
  rtrim (fun c => Ascii.eqb c "0"%char) s.

Definition with_point (int_part frac_part : string) : string :=
  match strip_zeros frac_part with
  | EmptyString => int_part
  | f => int_part ++ "." ++ f
  end.

Definition fmt_15g (x : double) : string :=
  match x with
  | S754_zero s => sign_text s ++ "0"
  | S754_infinity s => sign_text s ++ "inf"
  | S754_nan => "nan"
  | S754_finite s m e =>
      let (n, d) := d_fraction m e in
      let (m15, x10) := sig15 n d in
      let ds := Z_digits m15 in
      sign_text s ++
      (if (x10 <? -4) || (15 <=? x10) then
         with_point (take 1 ds) (drop 1 ds) ++ "e" ++
         (if x10 <? 0 then "-" else "+") ++ Z_digits_pad 2 (Z.abs x10)
       else if 0 <=? x10 then
         with_point (take (Z.to_nat (x10 + 1)) ds) (drop (Z.to_nat (x10 + 1)) ds)
       else
         with_point "0" (zeros (Z.to_nat (- x10 - 1)) ++ ds))
  end.

(** *** strtod, in the "C" locale

    After optional white space and an optional sign, the subject is the
    longest of: [inf] or [infinity]; [nan] or [nan(chars)]; [0x] and
    hexadecimal digits with an optional point and an optional binary
    exponent [p]; decimal digits with an optional point and an optional
    exponent [e]. Letters are matched whatever their case. The result is
    the correctly rounded value and the unparsed rest; when there is no
    subject the value is zero and the rest is the input. *)

Fixpoint digits_value (s : string) (acc : Z) : Z :=
  match s with
  | EmptyString => acc
  | String c r => digits_value r (10 * acc + (code c - 48))
  end.

Definition xdigit_value (c : ascii) : Z :=
  if isdigit c then code c - 48 else code (tolower c) - 87.

Fixpoint xdigits_value (s : string) (acc : Z) : Z :=
  match s with
  | EmptyString => acc
  | String c r => xdigits_value r (16 * acc + xdigit_value c)
  end.

(** [mant * 10^e10] correctly rounded. *)
Definition d_of_decimal (neg : bool) (mant e10 : Z) : double :=
  if mant =? 0 then S754_zero neg
  else
    let nd := Z.log2 mant / 3 + 1 in
    if 330 <? e10 then S754_infinity neg
    else if e10 + nd <? -400 then S754_zero neg
    else if 0 <=? e10 then
      binary_normalize prec emax (if neg then - (mant * pow10 e10) else mant * pow10 e10) 0 neg
    else
      SFdiv prec emax (S754_finite neg (Z.to_pos mant) 0)
                      (S754_finite false (Z.to_pos (pow10 (- e10))) 0).

(** [mant * 2^e2] correctly rounded. *)
Definition d_of_binary (neg : bool) (mant e2 : Z) : double :=
  binary_normalize prec emax (if neg then - mant else mant) e2 neg.

Definition parse_sign (s : string) : bool * string :=
  match s with
  | String "-"%char r => (true, r)
  | String "+"%char r => (false, r)
  | _ => (false, s)
  end.

(** The rest of [s] after the letters of [word], whatever their case. *)
Fixpoint after_word (word s : string) : option string :=
  match word, s with
  | EmptyString, _ => Some s
  | String a word', String b s' =>
      if Ascii.eqb (tolower a) (tolower b) then after_word word' s' else None
  | String _ _, EmptyString => None
  end.

(** An exponent part: the letter [mark], an optional sign and at least
    one decimal digit; its value and the rest. Without digits there is no
    exponent part and nothing is consumed. *)
Definition parse_exponent (mark : ascii) (s : string) : Z * string :=
  match s with
  | String c r =>
      if Ascii.eqb (tolower c) mark then
        let (neg, r1) := parse_sign r in
        match take_while isdigit r1 with
        | EmptyString => (0, s)
        | ds =>
            let v := digits_value ds 0 in
            ((if neg then - v else v), skip_while isdigit r1)
        end
      else (0, s)
  | EmptyString => (0, s)
  end.

(** Digits with an optional point: the digits before it, those after it
    and the rest. *)
Definition parse_digits (digit : ascii -> bool) (s : string)
  : string * string * string :=
  let ip := take_while digit s in
  let s2 := skip_while digit s in
  match s2 with
  | String "."%char r => (ip, take_while digit r, skip_while digit r)
  | _ => (ip, EmptyString, s2)
  end.

Definition is_nan_char (c : ascii) : bool := isalnum c || Ascii.eqb c "_"%char.

(** After [nan]: a parenthesised run of letters, digits and underscores
    belongs to the subject. *)
Definition after_nan (s : string) : string :=
  match s with
  | String "("%char r =>
      match skip_while is_nan_char r with
      | String ")"%char r' => r'
      | _ => s
      end
  | _ => s
  end.

Definition parse_inf_nan (neg : bool) (s : string) : option (double * string) :=
  match after_word "infinity" s with
  | Some r => Some (S754_infinity neg, r)
  | None =>
      match after_word "inf" s with
      | Some r => Some (S754_infinity neg, r)
      | None =>
          match after_word "nan" s with
          | Some r => Some (S754_nan, after_nan r)
          | None => None
          end
      end
  end.

Definition parse_hex (neg : bool) (s : string) : option (double * string) :=
  match after_word "0x" s with
  | None => None
  | Some r =>
      let '(ip, fp, s3) := parse_digits isxdigit r in
      match (ip ++ fp)%string with
      | EmptyString => None
      | ds =>
          let (ex, s4) := parse_exponent "p"%char s3 in
          Some (d_of_binary neg (xdigits_value ds 0)
                  (ex - 4 * Z.of_nat (String.length fp)), s4)
      end
  end.

Definition parse_decimal (neg : bool) (s : string) : option (double * string) :=
  let '(ip, fp, s3) := parse_digits isdigit s in
  match (ip ++ fp)%string with
  | EmptyString => None
  | ds =>
      let (ex, s4) := parse_exponent "e"%char s3 in
      Some (d_of_decimal neg (digits_value ds 0)
              (ex - Z.of_nat (String.length fp)), s4)
  end.

Definition strtod (s : string) : double * string :=
  let (neg, s1) := parse_sign (skip_while isspace s) in
  match parse_inf_nan neg s1 with
  | Some r => r
  | None =>
      match parse_hex neg s1 with
      | Some r => r
      | None =>
          match parse_decimal neg s1 with
          | Some r => r
          | None => (d_zero, s)
          end
      end
  end.

(** [atof (s)] is [strtod (s, NULL)]. *)
Definition atof (s : string) : double := fst (strtod s).

End Cdouble.
Export Cdouble.

(* ====================================================================== *)
(** ** bcl_string.c: string utilities *)

(** [bcl_strcasecmp]: the difference of the first pair of characters that
    differ after [tolower]; the terminating NUL counts as code 0. *)
Fixpoint bcl_strcasecmp (s1 s2 : string) : Z :=
  match s1, s2 with
  | String a r1, String b r2 =>
      let c1 := code (tolower a) in
      let c2 := code (tolower b) in
      if negb (c1 =? c2) then c1 - c2 else bcl_strcasecmp r1 r2
  | String a _, EmptyString => code (tolower a) - 0
  | EmptyString, String b _ => 0 - code (tolower b)
  | EmptyString, EmptyString => 0
  end.

Fixpoint bcl_strncasecmp (s1 s2 : string) (n : nat) : Z :=
  match n with
  | O => 0
  | S k =>
      match s1, s2 with
      | String a r1, String b r2 =>
          let c1 := code (tolower a) in
          let c2 := code (tolower b) in
          if negb (c1 =? c2) then c1 - c2 else bcl_strncasecmp r1 r2 k
      | String a _, EmptyString => code (tolower a) - 0
      | EmptyString, String b _ => 0 - code (tolower b)
      | EmptyString, EmptyString => 0
      end
  end.

(** The test [bcl_strcasecmp (a, b) == 0] that every caller makes. *)
Definition strcase_eq (a b : string) : bool := bcl_strcasecmp a b =? 0.

(** [bcl_strtolower]: the lower-case copy. *)
Fixpoint bcl_strtolower (str : string) : string :=
  match str with
  | EmptyString => EmptyString
  | String c r => String (tolower c) (bcl_strtolower r)
  end.

(** A C string holds no NUL before its end. *)
Fixpoint nul_free (s : string) : bool :=
  match s with
  | EmptyString => true
  | String c r => negb (code c =? 0) && nul_free r
  end.

(** [bcl_str_to_number]: the value and the [ok] flag. *)
Definition bcl_str_to_number (str : string) : double * bool :=
  match str with
  | EmptyString => (d_zero, false)
  | _ =>
      let (result, endptr) := strtod str in
      (result, match skip_while isspace endptr with
               | EmptyString => true
               | _ => false
               end)
  end.

(* ====================================================================== *)
(** ** bcl_value.c: values

    A value is its string; the cached number of the C structure is a
    pure function of the string and is not stored. *)

Definition bcl_value_t := string.

Definition bcl_value_to_number (val : bcl_value_t) : double * bool :=
  bcl_str_to_number val.

Definition bcl_value_to_bool (val : bcl_value_t) : bool :=
  match val with
  | EmptyString => false
  | _ => negb (String.eqb val "0")
  end.

(* ====================================================================== *)
(** ** bcl_hash.c: case-insensitive tables

    A table is one collision chain: the 256 buckets of the C table only
    partition the same entries, and keys are compared with
    [bcl_strcasecmp] inside a bucket exactly as here. New entries go to
    the head of the chain. *)

Section Hash.
Context {V : Type}.

Definition bcl_hash_table_t := list (string * V).

Definition bcl_hash_create : bcl_hash_table_t := [].

Fixpoint bcl_hash_update (table : bcl_hash_table_t) (key : string) (value : V)
  : option bcl_hash_table_t :=
  match table with
  | [] => None
  | (k, v) :: rest =>
      if strcase_eq k key then Some ((k, value) :: rest)
      else match bcl_hash_update rest key value with
           | Some rest' => Some ((k, v) :: rest')
           | None => None
           end
  end.

Definition bcl_hash_set (table : bcl_hash_table_t) (key : string) (value : V)
  : bcl_hash_table_t :=
  match bcl_hash_update table key value with
  | Some table' => table'
  | None => (key, value) :: table
  end.

Fixpoint bcl_hash_get (table : bcl_hash_table_t) (key : string) : option V :=
  match table with
  | [] => None
  | (k, v) :: rest =>
      if strcase_eq k key then Some v else bcl_hash_get rest key
  end.

Definition bcl_hash_exists (table : bcl_hash_table_t) (key : string) : bool :=
  match bcl_hash_get table key with
  | Some _ => true
  | None => false
  end.

Fixpoint bcl_hash_remove (table : bcl_hash_table_t) (key : string)
  : bcl_hash_table_t :=
  match table with
  | [] => []
  | (k, v) :: rest =>
      if strcase_eq k key then rest else (k, v) :: bcl_hash_remove rest key
  end.
End Hash.

Arguments bcl_hash_table_t : clear implicits.

(** The keys of a table are C strings. *)
Definition c_keys {V : Type} (t : bcl_hash_table_t V) : bool :=
  forallb (fun kv => nul_free (fst kv)) t.

(** No key is twice in a table, whatever the case of its letters. *)
Fixpoint unique_keys {V : Type} (t : bcl_hash_table_t V) : bool :=
  match t with
  | [] => true
  | (k, _) :: rest => negb (bcl_hash_exists rest k) && unique_keys rest
  end.

Definition table_ok {V : Type} (t : bcl_hash_table_t V) : bool :=
  c_keys t && unique_keys t.

(** *** The table of buckets

    [bcl_hash_table_t] above is one collision chain, which is all the
    interpreter's use of a table can tell. In bcl_hash.c the table is an
    array of [BCL_HASH_TABLE_SIZE] chains with an entry count, and each
    operation picks its chain with [bcl_hash_string]. *)
Module Buckets.

Definition BCL_HASH_TABLE_SIZE : nat := 256.

(** The loop of [bcl_hash_string]; [unsigned int] has 32 bits. *)
Fixpoint hash_loop (str : string) (hash : Z) : Z :=
  match str with
  | EmptyString => hash
  | String c r =>
      hash_loop r ((Z.shiftl hash 5 + hash + code (tolower c)) mod 2 ^ 32)
  end.

Definition bcl_hash_string (str : string) : nat :=
  Z.to_nat (hash_loop str 5381 mod Z.of_nat BCL_HASH_TABLE_SIZE).

Section Table.
Context {V : Type}.

Record table := mk_table {
  buckets : list (bcl_hash_table_t V);
  count : nat
}.

Definition bucket (t : table) (index : nat) : bcl_hash_table_t V :=
  nth index (buckets t) [].

Fixpoint set_nth (l : list (bcl_hash_table_t V)) (index : nat)
  (chain : bcl_hash_table_t V) : list (bcl_hash_table_t V) :=
  match l, index with
  | [], _ => []
  | _ :: r, O => chain :: r
  | c :: r, S i => c :: set_nth r i chain
  end.

Definition bcl_hash_create : table :=
  {| buckets := repeat [] BCL_HASH_TABLE_SIZE; count := 0 |}.

Definition bcl_hash_set (t : table) (key : string) (value : V) : table :=
  let index := bcl_hash_string key in
  match bcl_hash_update (bucket t index) key value with
  | Some chain => {| buckets := set_nth (buckets t) index chain; count := count t |}
  | None =>
      {| buckets := set_nth (buckets t) index ((key, value) :: bucket t index);
         count := S (count t) |}
  end.

Definition bcl_hash_remove (t : table) (key : string) : table :=
  let index := bcl_hash_string key in
  if bcl_hash_exists (bucket t index) key then
    {| buckets := set_nth (buckets t) index (bcl_hash_remove (bucket t index) key);
       count := Nat.pred (count t) |}
  else t.

Definition bcl_hash_get (t : table) (key : string) : option V :=
  bcl_hash_get (bucket t (bcl_hash_string key)) key.

Definition bcl_hash_exists (t : table) (key : string) : bool :=
  match bcl_hash_get t key with
  | Some _ => true
  | None => false
  end.

(** [bcl_hash_keys]: the number written to [*count] and the keys copied
    into the array, bucket by bucket; [None] is the [NULL] result. *)
Definition bcl_hash_keys (t : table) : nat * option (list string) :=
  match count t with
  | O => (O, None)
  | n => (n, Some (map fst (List.concat (buckets t))))
  end.

(** What the operations maintain: every chain holds C strings, no key
    twice (up to case), each in the bucket of its hash; [count] is the
    number of entries. *)
Definition chain_ok (index : nat) (chain : bcl_hash_table_t V) : bool :=
  c_keys chain && unique_keys chain
  && forallb (fun k => Nat.eqb (bcl_hash_string k) index) (map fst chain).

Fixpoint chains_ok (index : nat) (l : list (bcl_hash_table_t V)) : bool :=
  match l with
  | [] => true
  | chain :: r => chain_ok index chain && chains_ok (S index) r
  end.

Definition table_wf (t : table) : bool :=
  Nat.eqb (List.length (buckets t)) BCL_HASH_TABLE_SIZE
  && chains_ok 0 (buckets t)
  && Nat.eqb (count t) (List.length (List.concat (buckets t))).

(** One call of the interface, for runs of calls. *)
Inductive hash_op : Type :=
  | op_set (key : string) (value : V)
  | op_remove (key : string).

Definition op_key (o : hash_op) : string :=
  match o with
  | op_set key _ => key
  | op_remove key => key
  end.

Definition apply_op (t : table) (o : hash_op) : table :=
  match o with
  | op_set key value => bcl_hash_set t key value
  | op_remove key => bcl_hash_remove t key
  end.

End Table.

Arguments table : clear implicits.
Arguments hash_op : clear implicits.

End Buckets.

(** The same call on one chain holding every entry. *)
Definition apply_chain {V : Type} (l : bcl_hash_table_t V)
  (o : Buckets.hash_op V)
  : bcl_hash_table_t V :=
  match o with
  | Buckets.op_set key value => bcl_hash_set l key value
  | Buckets.op_remove key => bcl_hash_remove l key
  end.

(** A table of buckets and a single chain that answer every lookup alike. *)
Definition same_lookups {V : Type} (t : Buckets.table V) (l : bcl_hash_table_t V) : Prop :=
  Buckets.table_wf t = true /\ c_keys l = true /\ unique_keys l = true
  /\ (forall k, nul_free k = true -> Buckets.bcl_hash_get t k = bcl_hash_get l k)
  /\ Buckets.count t = List.length l.


(* ====================================================================== *)
(** ** bcl.h: results, blocks, procedures, scopes, interpreter state *)

Inductive bcl_result_t :=
  | BCL_OK | BCL_ERROR | BCL_BREAK | BCL_CONTINUE | BCL_RETURN | BCL_EXIT.

Definition result_eqb (a b : bcl_result_t) : bool :=
  match a, b with
  | BCL_OK, BCL_OK | BCL_ERROR, BCL_ERROR | BCL_BREAK, BCL_BREAK
  | BCL_CONTINUE, BCL_CONTINUE | BCL_RETURN, BCL_RETURN
  | BCL_EXIT, BCL_EXIT => true
  | _, _ => false
  end.

Definition BCL_MAX_TOKEN_LEN : nat := 4096.
Definition BCL_MAX_RECURSION : nat := 1000.
Definition BCL_MAX_SCOPE_DEPTH : nat := 256.

(** Block types of bcl_block.c. *)
Inductive block_type_t :=
  | BLOCK_NONE | BLOCK_IF | BLOCK_ELSEIF | BLOCK_ELSE | BLOCK_WHILE
  | BLOCK_FOR | BLOCK_FOREACH | BLOCK_SWITCH | BLOCK_CASE | BLOCK_DEFAULT
  | BLOCK_PROC.

Definition block_type_eqb (a b : block_type_t) : bool :=
  match a, b with
  | BLOCK_NONE, BLOCK_NONE | BLOCK_IF, BLOCK_IF | BLOCK_ELSEIF, BLOCK_ELSEIF
  | BLOCK_ELSE, BLOCK_ELSE | BLOCK_WHILE, BLOCK_WHILE | BLOCK_FOR, BLOCK_FOR
  | BLOCK_FOREACH, BLOCK_FOREACH | BLOCK_SWITCH, BLOCK_SWITCH
  | BLOCK_CASE, BLOCK_CASE | BLOCK_DEFAULT, BLOCK_DEFAULT
  | BLOCK_PROC, BLOCK_PROC => true
  | _, _ => false
  end.

(** A [bcl_block_t *] is the index of the block in the block heap. Blocks
    are shared between the parser stack, the items of their parent and the
    procedure table, and are updated in place, so they live in a store. *)
Definition block_ptr := nat.

Inductive block_item_t :=
  | ITEM_LINE (line : string)
  | ITEM_BLOCK (block : option block_ptr).

Record bcl_block_t := mk_block {
  b_type : block_type_t;
  condition : option string;
  proc_name : option string;
  proc_params : option string;
  items : list block_item_t;
  children : list block_ptr;
  start_line_num : nat
}.

Definition block_heap := list bcl_block_t.

Record bcl_param_t := mk_param {
  param_name : string;
  optional : bool
}.

Record bcl_procedure_t := mk_proc {
  p_name : string;
  params : list bcl_param_t;
  body_block : option block_ptr
}.

(** A scope; the parent link of the C structure is the next element of
    the scope stack. *)
Record bcl_scope_t := mk_scope {
  vars : bcl_hash_table_t bcl_value_t;
  global_refs : bcl_hash_table_t bcl_value_t;
  global_prefixes : bcl_hash_table_t bcl_value_t
}.

(** The interpreter. [scope_stack] has the current scope first;
    [scope_depth] is its length. The procedure table maps a name to the
    procedure itself (the C table stores the printed address of the
    structure). [heap] is the store of blocks and [stdout] the text
    written so far. *)
Record bcl_interp_t := mk_interp {
  global_vars : bcl_hash_table_t bcl_value_t;
  procedures : bcl_hash_table_t bcl_procedure_t;
  scope_stack : list bcl_scope_t;
  return_value : option bcl_value_t;
  exit_code : Z;
  error_msg : string;
  heap : block_heap;
  stdout : string
}.

Definition scope_depth (interp : bcl_interp_t) : nat :=
  List.length (scope_stack interp).

Definition bcl_interp_create : bcl_interp_t :=
  {| global_vars := bcl_hash_create;
     procedures := bcl_hash_create;
     scope_stack := [];
     return_value := None;
     exit_code := 0;
     error_msg := "";
     heap := [];
     stdout := "" |}.

(** Field updates. *)
Definition set_global_vars (interp : bcl_interp_t) g : bcl_interp_t :=
  {| global_vars := g; procedures := procedures interp;
     scope_stack := scope_stack interp; return_value := return_value interp;
     exit_code := exit_code interp; error_msg := error_msg interp;
     heap := heap interp; stdout := stdout interp |}.

Definition set_procedures (interp : bcl_interp_t) p : bcl_interp_t :=
  {| global_vars := global_vars interp; procedures := p;
     scope_stack := scope_stack interp; return_value := return_value interp;
     exit_code := exit_code interp; error_msg := error_msg interp;
     heap := heap interp; stdout := stdout interp |}.

Definition set_scope_stack (interp : bcl_interp_t) s : bcl_interp_t :=
  {| global_vars := global_vars interp; procedures := procedures interp;
     scope_stack := s; return_value := return_value interp;
     exit_code := exit_code interp; error_msg := error_msg interp;
     heap := heap interp; stdout := stdout interp |}.

Definition set_return_value (interp : bcl_interp_t) v : bcl_interp_t :=
  {| global_vars := global_vars interp; procedures := procedures interp;
     scope_stack := scope_stack interp; return_value := v;
     exit_code := exit_code interp; error_msg := error_msg interp;
     heap := heap interp; stdout := stdout interp |}.

Definition set_exit_code (interp : bcl_interp_t) c : bcl_interp_t :=
  {| global_vars := global_vars interp; procedures := procedures interp;
     scope_stack := scope_stack interp; return_value := return_value interp;
     exit_code := c; error_msg := error_msg interp;
     heap := heap interp; stdout := stdout interp |}.

Definition set_heap (interp : bcl_interp_t) h : bcl_interp_t :=
  {| global_vars := global_vars interp; procedures := procedures interp;
     scope_stack := scope_stack interp; return_value := return_value interp;
     exit_code := exit_code interp; error_msg := error_msg interp;
     heap := h; stdout := stdout interp |}.

Definition write_stdout (interp : bcl_interp_t) (text : string) : bcl_interp_t :=
  {| global_vars := global_vars interp; procedures := procedures interp;
     scope_stack := scope_stack interp; return_value := return_value interp;
     exit_code := exit_code interp; error_msg := error_msg interp;
     heap := heap interp; stdout := stdout interp ++ text |}.

(* ====================================================================== *)
(** ** bcl_interp.c: errors, scopes, variables, procedure table *)

(** [bcl_set_error] with the message already formatted (the 8192-byte
    buffer is not modelled). *)
Definition bcl_set_error (interp : bcl_interp_t) (msg : string) : bcl_interp_t :=
  {| global_vars := global_vars interp; procedures := procedures interp;
     scope_stack := scope_stack interp; return_value := return_value interp;
     exit_code := exit_code interp; error_msg := msg;
     heap := heap interp; stdout := stdout interp |}.

Definition scope_create : bcl_scope_t :=
  {| vars := bcl_hash_create;
     global_refs := bcl_hash_create;
     global_prefixes := bcl_hash_create |}.

Definition bcl_scope_push (interp : bcl_interp_t) : bcl_result_t * bcl_interp_t :=
  if (BCL_MAX_SCOPE_DEPTH <=? scope_depth interp)%nat then
    (BCL_ERROR, bcl_set_error interp "Maximum scope depth exceeded")
  else
    (BCL_OK, set_scope_stack interp (scope_create :: scope_stack interp)).

Definition bcl_scope_pop (interp : bcl_interp_t) : bcl_result_t * bcl_interp_t :=
  match scope_stack interp with
  | [] => (BCL_ERROR, bcl_set_error interp "No scope to pop")
  | _ :: rest => (BCL_OK, set_scope_stack interp rest)
  end.

Definition get_current_scope (interp : bcl_interp_t) : option bcl_scope_t :=
  match scope_stack interp with
  | [] => None
  | scope :: _ => Some scope
  end.

(** Position of the first [c] in [s], as [strchr (s, c) - s]. *)
Fixpoint index_of (c : ascii) (s : string) : option nat :=
  match s with
  | EmptyString => None
  | String d r =>
      if Ascii.eqb c d then Some O
      else match index_of c r with
           | Some n => Some (S n)
           | None => None
           end
  end.

Definition is_global_var (scope : option bcl_scope_t) (name : string) : bool :=
  match scope with
  | None => true
  | Some sc =>
      if bcl_hash_exists (global_refs sc) name then true
      else
        match index_of "("%char name with
        | Some paren =>
            let prefix_len := S paren in
            if (prefix_len <? 256)%nat then
              if bcl_hash_exists (global_prefixes sc) (take prefix_len name)
              then true else false
            else false
        | None => false
        end
  end.

Definition set_scope_vars (sc : bcl_scope_t) v : bcl_scope_t :=
  {| vars := v; global_refs := global_refs sc;
     global_prefixes := global_prefixes sc |}.

Definition set_scope_global_refs (sc : bcl_scope_t) g : bcl_scope_t :=
  {| vars := vars sc; global_refs := g;
     global_prefixes := global_prefixes sc |}.

Definition bcl_var_set (interp : bcl_interp_t) (name value : string)
  : bcl_result_t * bcl_interp_t :=
  let scope := get_current_scope interp in
  if is_global_var scope name then
    (BCL_OK, set_global_vars interp (bcl_hash_set (global_vars interp) name value))
  else
    match scope_stack interp with
    | sc :: rest =>
        (BCL_OK, set_scope_stack interp
                   (set_scope_vars sc (bcl_hash_set (vars sc) name value) :: rest))
    | [] => (BCL_OK, interp)
    end.

Definition bcl_var_get (interp : bcl_interp_t) (name : string)
  : option bcl_value_t :=
  match get_current_scope interp with
  | Some scope =>
      match bcl_hash_get (vars scope) name with
      | Some val => Some val
      | None => bcl_hash_get (global_vars interp) name
      end
  | None => bcl_hash_get (global_vars interp) name
  end.

Definition bcl_var_exists (interp : bcl_interp_t) (name : string) : bool :=
  match get_current_scope interp with
  | Some scope =>
      if bcl_hash_exists (vars scope) name then true
      else bcl_hash_exists (global_vars interp) name
  | None => bcl_hash_exists (global_vars interp) name
  end.

Definition bcl_var_unset (interp : bcl_interp_t) (name : string)
  : bcl_result_t * bcl_interp_t :=
  match scope_stack interp with
  | sc :: rest =>
      if bcl_hash_exists (vars sc) name then
        (BCL_OK, set_scope_stack interp
                   (set_scope_vars sc (bcl_hash_remove (vars sc) name) :: rest))
      else
        (BCL_OK, set_global_vars interp (bcl_hash_remove (global_vars interp) name))
  | [] =>
      (BCL_OK, set_global_vars interp (bcl_hash_remove (global_vars interp) name))
  end.

Definition proc_create (name : string) (params : list bcl_param_t)
  (body_block : option block_ptr) : bcl_procedure_t :=
  {| p_name := name; params := params; body_block := body_block |}.

Definition bcl_proc_define (interp : bcl_interp_t) (name : string)
  (params : list bcl_param_t) (body_block : option block_ptr)
  : bcl_result_t * bcl_interp_t :=
  let proc := proc_create name params body_block in
  (BCL_OK, set_procedures interp (bcl_hash_set (procedures interp) name proc)).

Definition bcl_proc_exists (interp : bcl_interp_t) (name : string) : bool :=
  bcl_hash_exists (procedures interp) name.

(* ====================================================================== *)
(** ** bcl_parser.c: escapes, tokens, variable expansion *)

Definition chr (n : Z) : ascii := ascii_of_N (Z.to_N n).

(** The double-quote character. *)
Definition dquote : ascii := Eval compute in chr 34.

Definition is_regex_escape (c : ascii) : bool :=
  strchr_mem c "dDwWsS[]".

Definition needs_escape (c : ascii) : bool :=
  strchr_mem c "ntrabf\'udDwWsS[]" || Ascii.eqb c dquote.

Definition process_escape (c : ascii) : ascii :=
  if Ascii.eqb c "n" then chr 10
  else if Ascii.eqb c "t" then chr 9
  else if Ascii.eqb c "r" then chr 13
  else if Ascii.eqb c "a" then chr 7
  else if Ascii.eqb c "b" then chr 8
  else if Ascii.eqb c "f" then chr 12
  else c.

(** [bcl_decode_escapes]: [str] is the text from index [i] on; [i + 1 < len]
    says a character follows the backslash, [i + 5 < len] that at least
    five follow it. *)
Fixpoint bcl_decode_escapes (str : string) : string :=
  match str with
  | EmptyString => EmptyString
  | String c rest =>
      if Ascii.eqb c "\" then
        match rest with
        | String n rest' =>
            if Ascii.eqb n "u" && (5 <=? String.length rest)%nat then
              String c (bcl_decode_escapes rest)
            else if is_regex_escape n then
              String "\" (String n (bcl_decode_escapes rest'))
            else if needs_escape n then
              String (process_escape n) (bcl_decode_escapes rest')
            else String c (bcl_decode_escapes rest)
        | EmptyString => String c EmptyString
        end
      else String c (bcl_decode_escapes rest)
  end.

Definition is_comment (str : string) : bool :=
  match skip_while isspace str with
  | String "#" _ => true
  | _ => false
  end.

(** The three copy loops of [bcl_next_token]; [room] is
    [token_size - 1 - token_idx]. Each returns the characters copied and
    the text left at position [p]. *)
Fixpoint copy_dquoted (room : nat) (line : string) : string * string :=
  match room, line with
  | O, _ => (EmptyString, line)
  | _, EmptyString => (EmptyString, line)
  | S room', String c r =>
      if Ascii.eqb c dquote then (EmptyString, line)
      else
        match r, room' with
        | String c2 r2, S room'' =>
            if Ascii.eqb c "\" then
              let (t, rest) := copy_dquoted room'' r2 in
              (String c (String c2 t), rest)
            else
              let (t, rest) := copy_dquoted room' r in (String c t, rest)
        | _, _ =>
            let (t, rest) := copy_dquoted room' r in (String c t, rest)
        end
  end.

Fixpoint copy_squoted (room : nat) (line : string) : string * string :=
  match room, line with
  | O, _ => (EmptyString, line)
  | _, EmptyString => (EmptyString, line)
  | S room', String c r =>
      if Ascii.eqb c "'" then (EmptyString, line)
      else let (t, rest) := copy_squoted room' r in (String c t, rest)
  end.

Fixpoint copy_bracketed (room : nat) (bracket_count : nat) (line : string)
  : string * string :=
  match room, line with
  | O, _ => (EmptyString, line)
  | _, EmptyString => (EmptyString, line)
  | S room', String c r =>
      match bracket_count with
      | O => (EmptyString, line)
      | S below =>
          let count' := if Ascii.eqb c "[" then S bracket_count
                        else if Ascii.eqb c "]" then below
                        else bracket_count in
          match count' with
          | O => (EmptyString, r)
          | _ =>
              let (t, rest) := copy_bracketed room' count' r in
              (String c t, rest)
          end
      end
  end.

Fixpoint copy_plain (room : nat) (line : string) : string * string :=
  match room, line with
  | O, _ => (EmptyString, line)
  | _, EmptyString => (EmptyString, line)
  | S room', String c r =>
      if isspace c || Ascii.eqb c "#" || Ascii.eqb c "[" || Ascii.eqb c "]"
      then (EmptyString, line)
      else let (t, rest) := copy_plain room' r in (String c t, rest)
  end.

Definition skip_char (c : ascii) (s : string) : string :=
  match s with
  | String d r => if Ascii.eqb c d then r else s
  | EmptyString => s
  end.

(** [bcl_next_token]: whether a token was found, the token, and the line
    from the new position on. *)
Definition bcl_next_token (line : string) (token_size : nat)
  : bool * string * string :=
  let room := (token_size - 1)%nat in
  match skip_while isspace line with
  | EmptyString => (false, EmptyString, EmptyString)
  | String c r as here =>
      if Ascii.eqb c "#" then (false, EmptyString, here)
      else if Ascii.eqb c dquote then
        let (t, rest) := copy_dquoted room r in
        (true, t, skip_char dquote rest)
      else if Ascii.eqb c "'" then
        let (t, rest) := copy_squoted room r in
        (true, t, skip_char "'" rest)
      else if Ascii.eqb c "[" then
        let (t, rest) := copy_bracketed room 1 r in
        (true, t, rest)
      else
        let (t, rest) := copy_plain room here in
        (match t with EmptyString => false | _ => true end, t, rest)
  end.

(** The loop of [bcl_parse_line] collecting at most 256 raw tokens. *)
Fixpoint raw_tokens (fuel : nat) (count : nat) (line : string) : list string :=
  match fuel with
  | O => []
  | S f =>
      match bcl_next_token line BCL_MAX_TOKEN_LEN with
      | (true, t, rest) =>
          if (256 <=? S count)%nat then [t]
          else t :: raw_tokens f (S count) rest
      | (false, _, _) => []
      end
  end.

(** Characters of a variable name, at most [room] of them. *)
Fixpoint take_name (room : nat) (s : string) : string :=
  match room, s with
  | S room', String c r =>
      if isalnum c || Ascii.eqb c "_" then String c (take_name room' r)
      else EmptyString
  | _, _ => EmptyString
  end.

(** The index of an array reference: the text up to the parenthesis that
    closes the one just read, at most [room] characters; the second
    component starts at the character the loop stopped on. *)
Fixpoint scan_index (room : nat) (paren_depth : nat) (s : string)
  : string * string :=
  match room, s with
  | O, _ => (EmptyString, s)
  | _, EmptyString => (EmptyString, s)
  | S room', String c r =>
      match paren_depth with
      | O => (EmptyString, s)
      | S below =>
          if Ascii.eqb c "(" then
            let (t, rest) := scan_index room' (S paren_depth) r in
            (String c t, rest)
          else if Ascii.eqb c ")" then
            match below with
            | O => (EmptyString, s)
            | _ => let (t, rest) := scan_index room' below r in
                   (String c t, rest)
            end
          else
            let (t, rest) := scan_index room' paren_depth r in
            (String c t, rest)
      end
  end.

Definition value_text (v : option bcl_value_t) : string :=
  match v with
  | Some s => s
  | None => EmptyString
  end.

(** [bcl_expand_vars]. Every step either consumes a character or recurses
    on the shorter index text, so the length of the input bounds the
    recursion. *)
Fixpoint expand_vars_loop (fuel : nat) (interp : bcl_interp_t) (str : string)
  : string :=
  match fuel with
  | O => EmptyString
  | S f =>
      match str with
      | EmptyString => EmptyString
      | String c rest =>
          match rest with
          | String _ _ =>
              if Ascii.eqb c "$" then
                let varname := take_name 255 rest in
                let after := drop (String.length varname) rest in
                match after with
                | String "(" r2 =>
                    let (index_str, at_close) := scan_index 255 1 r2 in
                    let after_idx := skip_char ")" at_close in
                    let expanded_index := expand_vars_loop f interp index_str in
                    let full_varname :=
                      take 511 (varname ++ "(" ++ expanded_index ++ ")") in
                    value_text (bcl_var_get interp full_varname)
                      ++ expand_vars_loop f interp after_idx
                | _ =>
                    value_text (bcl_var_get interp varname)
                      ++ expand_vars_loop f interp after
                end
              else String c (expand_vars_loop f interp rest)
          | EmptyString => String c EmptyString
          end
      end
  end.

Definition bcl_expand_vars (interp : bcl_interp_t) (str : string) : string :=
  expand_vars_loop (S (String.length str)) interp str.

(* ====================================================================== *)
(** ** bcl_expr.c: the expression evaluator *)

(** The functions of <math.h> and <stdlib.h> that the evaluator calls and
    that have no rounding-exact definition here. [c_rand_unit] is the
    value of [(double) rand () / RAND_MAX] at the call. *)
Class Libm := {
  c_sin : double -> double;
  c_cos : double -> double;
  c_tan : double -> double;
  c_asin : double -> double;
  c_acos : double -> double;
  c_atan : double -> double;
  c_sinh : double -> double;
  c_cosh : double -> double;
  c_tanh : double -> double;
  c_cbrt : double -> double;
  c_log : double -> double;
  c_log10 : double -> double;
  c_log2 : double -> double;
  c_exp : double -> double;
  c_pow : double -> double -> double;
  c_hypot : double -> double -> double;
  c_atan2 : double -> double -> double;
  c_fmod : double -> double -> double;
  c_rand_unit : double
}.

Inductive token_type_t :=
  | TOK_NUMBER | TOK_PLUS | TOK_MINUS | TOK_MULTIPLY | TOK_DIVIDE
  | TOK_MODULO | TOK_POWER | TOK_LPAREN | TOK_RPAREN | TOK_COMMA
  | TOK_LT | TOK_LE | TOK_GT | TOK_GE | TOK_EQ | TOK_NE
  | TOK_AND | TOK_OR | TOK_NOT | TOK_FUNCTION | TOK_END.

Record expr_token_t := mk_tok {
  tok_type : token_type_t;
  tok_value : double;
  func_name : string
}.

Definition tok (t : token_type_t) : expr_token_t :=
  {| tok_type := t; tok_value := d_zero; func_name := EmptyString |}.

Definition get_precedence (type : token_type_t) : Z :=
  match type with
  | TOK_OR => 1
  | TOK_AND => 2
  | TOK_EQ | TOK_NE => 3
  | TOK_LT | TOK_LE | TOK_GT | TOK_GE => 4
  | TOK_PLUS | TOK_MINUS => 5
  | TOK_MULTIPLY | TOK_DIVIDE | TOK_MODULO => 6
  | TOK_NOT => 7
  | TOK_POWER => 8
  | _ => 0
  end.

Definition is_right_associative (type : token_type_t) : bool :=
  match type with
  | TOK_POWER | TOK_NOT => true
  | _ => false
  end.

Definition M_PI : double := Eval vm_compute in atof "3.14159265358979323846".
Definition d_180 : double := Eval vm_compute in d_of_Z 180.
Definition d_minus_one : double := Eval vm_compute in d_of_Z (-1).
Definition d_epsilon : double := Eval vm_compute in atof "1e-10".

Section Expr.
Context {libm : Libm}.

Definition eval_function (name : string) (arg : double) : double :=
  if strcase_eq name "sin" then c_sin arg
  else if strcase_eq name "cos" then c_cos arg
  else if strcase_eq name "tan" then c_tan arg
  else if strcase_eq name "asin" then c_asin arg
  else if strcase_eq name "acos" then c_acos arg
  else if strcase_eq name "atan" then c_atan arg
  else if strcase_eq name "sinh" then c_sinh arg
  else if strcase_eq name "cosh" then c_cosh arg
  else if strcase_eq name "tanh" then c_tanh arg
  else if strcase_eq name "sqrt" then d_sqrt arg
  else if strcase_eq name "cbrt" then c_cbrt arg
  else if strcase_eq name "abs" then d_abs arg
  else if strcase_eq name "int" then d_floor arg
  else if strcase_eq name "double" then arg
  else if strcase_eq name "ceil" then d_ceil arg
  else if strcase_eq name "floor" then d_floor arg
  else if strcase_eq name "round" then d_round arg
  else if strcase_eq name "ln" then c_log arg
  else if strcase_eq name "log" then c_log10 arg
  else if strcase_eq name "log10" then c_log10 arg
  else if strcase_eq name "log2" then c_log2 arg
  else if strcase_eq name "exp" then c_exp arg
  else if strcase_eq name "sign" then
    (if d_gt arg d_zero then d_one
     else if d_lt arg d_zero then d_minus_one
     else d_zero)
  else if strcase_eq name "rand" then c_rand_unit
  else if strcase_eq name "rad" then d_div (d_mul arg M_PI) d_180
  else if strcase_eq name "deg" then d_div (d_mul arg d_180) M_PI
  else d_zero.

Definition eval_function2 (name : string) (arg1 arg2 : double) : double :=
  if strcase_eq name "pow" then c_pow arg1 arg2
  else if strcase_eq name "hypot" then c_hypot arg1 arg2
  else if strcase_eq name "atan2" then c_atan2 arg1 arg2
  else if strcase_eq name "min" then (if d_lt arg1 arg2 then arg1 else arg2)
  else if strcase_eq name "max" then (if d_gt arg1 arg2 then arg1 else arg2)
  else if strcase_eq name "fmod" then c_fmod arg1 arg2
  else d_zero.

Definition is_function2 (name : string) : bool :=
  strcase_eq name "pow" || strcase_eq name "hypot" || strcase_eq name "atan2"
  || strcase_eq name "min" || strcase_eq name "max" || strcase_eq name "fmod".

Definition is_func_char (c : ascii) : bool := isalpha c || Ascii.eqb c "_".

Fixpoint take_func_name (room : nat) (s : string) : string :=
  match room, s with
  | S room', String c r =>
      if is_func_char c then String c (take_func_name room' r) else EmptyString
  | _, _ => EmptyString
  end.

Definition of_bool (b : bool) : double := if b then d_one else d_zero.

(** [parse_expr_token]: the token and the position after it. *)
Definition parse_expr_token (expr0 : string) : expr_token_t * string :=
  let expr := skip_while isspace expr0 in
  match expr with
  | EmptyString => (tok TOK_END, expr)
  | String c r =>
      let next_is_digit := match r with String d _ => isdigit d | _ => false end in
      if isdigit c || (Ascii.eqb c "." && next_is_digit) then
        let (v, endptr) := strtod expr in
        ({| tok_type := TOK_NUMBER; tok_value := v; func_name := EmptyString |},
         endptr)
      else if is_func_char c then
        let name := take_func_name 31 expr in
        let rest := drop (String.length name) expr in
        let type :=
          if strcase_eq name "AND" then TOK_AND
          else if strcase_eq name "OR" then TOK_OR
          else if strcase_eq name "NOT" then TOK_NOT
          else TOK_FUNCTION in
        ({| tok_type := type; tok_value := d_zero; func_name := name |}, rest)
      else
        let two :=
          match r with
          | String c1 r2 =>
              if Ascii.eqb c "*" && Ascii.eqb c1 "*" then Some (TOK_POWER, r2)
              else if Ascii.eqb c "<" && Ascii.eqb c1 "=" then Some (TOK_LE, r2)
              else if Ascii.eqb c ">" && Ascii.eqb c1 "=" then Some (TOK_GE, r2)
              else if Ascii.eqb c "!" && Ascii.eqb c1 "=" then Some (TOK_NE, r2)
              else if Ascii.eqb c "&" && Ascii.eqb c1 "&" then Some (TOK_AND, r2)
              else if Ascii.eqb c "|" && Ascii.eqb c1 "|" then Some (TOK_OR, r2)
              else if Ascii.eqb c "=" && Ascii.eqb c1 "=" then Some (TOK_EQ, r2)
              else None
          | EmptyString => None
          end in
        match two with
        | Some (t, rest) => (tok t, rest)
        | None =>
            if Ascii.eqb c "+" then (tok TOK_PLUS, r)
            else if Ascii.eqb c "-" then (tok TOK_MINUS, r)
            else if Ascii.eqb c "*" then (tok TOK_MULTIPLY, r)
            else if Ascii.eqb c "/" then (tok TOK_DIVIDE, r)
            else if Ascii.eqb c "%" then (tok TOK_MODULO, r)
            else if Ascii.eqb c "^" then (tok TOK_POWER, r)
            else if Ascii.eqb c "(" then (tok TOK_LPAREN, r)
            else if Ascii.eqb c ")" then (tok TOK_RPAREN, r)
            else if Ascii.eqb c "," then (tok TOK_COMMA, r)
            else if Ascii.eqb c "<" then (tok TOK_LT, r)
            else if Ascii.eqb c ">" then (tok TOK_GT, r)
            else if Ascii.eqb c "!" then (tok TOK_NOT, r)
            else (tok TOK_END, expr)
        end
  end.

Definition apply_operator (op : token_type_t) (left right : double) : double :=
  match op with
  | TOK_PLUS => d_add left right
  | TOK_MINUS => d_sub left right
  | TOK_MULTIPLY => d_mul left right
  | TOK_DIVIDE => if d_ne right d_zero then d_div left right else d_zero
  | TOK_MODULO => c_fmod left right
  | TOK_POWER => c_pow left right
  | TOK_LT => of_bool (d_lt left right)
  | TOK_LE => of_bool (d_le left right)
  | TOK_GT => of_bool (d_gt left right)
  | TOK_GE => of_bool (d_ge left right)
  | TOK_EQ => of_bool (d_lt (d_abs (d_sub left right)) d_epsilon)
  | TOK_NE => of_bool (d_ge (d_abs (d_sub left right)) d_epsilon)
  | TOK_AND => of_bool (d_ne left d_zero && d_ne right d_zero)
  | TOK_OR => of_bool (d_ne left d_zero || d_ne right d_zero)
  | _ => d_zero
  end.

(** The two stacks, [double value_stack[256]] and
    [expr_token_t op_stack[256]], top first. The code pushes with
    [stack[++top] = x] and tests no bound: a push onto a stack that
    holds 256 entries writes outside the array, and the evaluation has no
    defined result ([None]). *)
Definition value_stack_t := list double.
Definition op_stack_t := list expr_token_t.

Definition push {A : Type} (x : A) (stack : list A) : option (list A) :=
  if (List.length stack <? 256)%nat then Some (x :: stack) else None.

(** Apply a popped function token to the top of the value stack. *)
Definition apply_function (f : expr_token_t) (vs : value_stack_t) : value_stack_t :=
  if is_function2 (func_name f) then
    match vs with
    | arg2 :: arg1 :: vs' => eval_function2 (func_name f) arg1 arg2 :: vs'
    | _ => vs
    end
  else
    match vs with
    | arg :: vs' => eval_function (func_name f) arg :: vs'
    | [] => vs
    end.

Definition apply_not (vs : value_stack_t) : value_stack_t :=
  match vs with
  | v :: vs' => of_bool (d_eq v d_zero) :: vs'
  | [] => vs
  end.

Definition apply_binary (op : token_type_t) (vs : value_stack_t) : value_stack_t :=
  match vs with
  | rhs :: lhs :: vs' => apply_operator op lhs rhs :: vs'
  | _ => vs
  end.

(** A popped token that is not a function: [NOT] or a binary operator. *)
Definition apply_popped (op : expr_token_t) (vs : value_stack_t) : value_stack_t :=
  match tok_type op with
  | TOK_NOT => apply_not vs
  | t => apply_binary t vs
  end.

(** On [)]: pop and apply down to the matching [(]. *)
Fixpoint pop_to_lparen (ops : op_stack_t) (vs : value_stack_t)
  : op_stack_t * value_stack_t :=
  match ops with
  | [] => ([], vs)
  | op :: ops' =>
      match tok_type op with
      | TOK_LPAREN => (ops, vs)
      | TOK_FUNCTION => pop_to_lparen ops' (apply_function op vs)
      | _ => pop_to_lparen ops' (apply_popped op vs)
      end
  end.

Definition on_rparen (ops : op_stack_t) (vs : value_stack_t)
  : op_stack_t * value_stack_t :=
  let (ops1, vs1) := pop_to_lparen ops vs in
  let ops2 := match ops1 with _ :: r => r | [] => [] end in
  match ops2 with
  | f :: ops3 =>
      match tok_type f with
      | TOK_FUNCTION => (ops3, apply_function f vs1)
      | _ => (ops2, vs1)
      end
  | [] => (ops2, vs1)
  end.

(** On an operator: pop while the top binds at least as tightly. *)
Fixpoint pop_higher (t : token_type_t) (ops : op_stack_t) (vs : value_stack_t)
  : op_stack_t * value_stack_t :=
  match ops with
  | [] => ([], vs)
  | op :: ops' =>
      match tok_type op with
      | TOK_LPAREN => (ops, vs)
      | _ =>
          let prec1 := get_precedence t in
          let prec2 := get_precedence (tok_type op) in
          if (prec1 <? prec2) || ((prec2 =? prec1) && negb (is_right_associative t))
          then pop_higher t ops' (apply_popped op vs)
          else (ops, vs)
      end
  end.

Fixpoint pop_remaining (ops : op_stack_t) (vs : value_stack_t) : value_stack_t :=
  match ops with
  | [] => vs
  | op :: ops' => pop_remaining ops' (apply_popped op vs)
  end.

(** The main loop. Every token other than [TOK_END] consumes a
    character, so the length of the text bounds the number of turns. *)
Fixpoint expr_loop (fuel : nat) (pos : string) (ops : op_stack_t)
  (vs : value_stack_t) : option (op_stack_t * value_stack_t) :=
  match fuel with
  | O => None
  | S f =>
      let (t, pos') := parse_expr_token pos in
      match tok_type t with
      | TOK_END => Some (ops, vs)
      | TOK_NUMBER =>
          match push (tok_value t) vs with
          | Some vs' => expr_loop f pos' ops vs'
          | None => None
          end
      | TOK_FUNCTION | TOK_LPAREN =>
          match push t ops with
          | Some ops' => expr_loop f pos' ops' vs
          | None => None
          end
      | TOK_COMMA => expr_loop f pos' ops vs
      | TOK_RPAREN =>
          let (ops', vs') := on_rparen ops vs in expr_loop f pos' ops' vs'
      | ty =>
          let (ops', vs') := pop_higher ty ops vs in
          match push t ops' with
          | Some ops'' => expr_loop f pos' ops'' vs'
          | None => None
          end
      end
  end.

(** The text of a result or of a loop counter, printed into [char buf[64]]. *)
Definition format_number (x : double) : string :=
  snprintf 64 (if d_eq x (d_floor x) then fmt_0f x else fmt_15g x).

Definition eval_expr_text (expr : string) : option double :=
  match expr_loop (S (String.length expr)) expr [] [] with
  | Some (ops, vs) =>
      Some match pop_remaining ops vs with
           | v :: _ => v
           | [] => d_zero
           end
  | None => None
  end.

(** [bcl_cmd_expr]: the result code, the result value (untouched, hence
    [None], on the arity error) and the interpreter. *)
Definition bcl_cmd_expr (interp : bcl_interp_t) (argv : list string)
  : option (bcl_result_t * option bcl_value_t * bcl_interp_t) :=
  match argv with
  | [] =>
      Some (BCL_ERROR, None,
            bcl_set_error interp
              (String.append "EXPR: wrong # args: should be "
                 (String dquote (String.append "EXPR expression" (String dquote EmptyString)))))
  | _ =>
      match eval_expr_text (join " " argv) with
      | Some final_result => Some (BCL_OK, Some (format_number final_result), interp)
      | None => None
      end
  end.

End Expr.

(* ====================================================================== *)
(** ** bcl_block.c: blocks in the store *)

Definition heap_get (h : block_heap) (p : block_ptr) : option bcl_block_t :=
  nth_error h p.

Fixpoint heap_update (h : block_heap) (p : block_ptr)
  (f : bcl_block_t -> bcl_block_t) : block_heap :=
  match h, p with
  | [], _ => []
  | b :: r, O => f b :: r
  | b :: r, S q => b :: heap_update r q f
  end.

(** [block_create]: a fresh block at the end of the store. *)
Definition block_create (h : block_heap) (type : block_type_t)
  : block_ptr * block_heap :=
  (List.length h,
   (h ++ [ {| b_type := type; condition := None; proc_name := None;
              proc_params := None; items := []; children := [];
              start_line_num := O |} ])%list).

Definition add_item (it : block_item_t) (b : bcl_block_t) : bcl_block_t :=
  {| b_type := b_type b; condition := condition b; proc_name := proc_name b;
     proc_params := proc_params b; items := (items b ++ [it])%list;
     children := children b; start_line_num := start_line_num b |}.

Definition block_add_line (h : block_heap) (block : block_ptr) (line : string)
  : block_heap :=
  heap_update h block (add_item (ITEM_LINE line)).

(** [block_add_block_item] does nothing for a [NULL] child. *)
Definition block_add_block_item (h : block_heap) (parent : block_ptr)
  (child : option block_ptr) : block_heap :=
  match child with
  | None => h
  | Some c => heap_update h parent (add_item (ITEM_BLOCK (Some c)))
  end.

Definition block_add_child (h : block_heap) (block child : block_ptr)
  : block_heap :=
  heap_update h block
    (fun b =>
       {| b_type := b_type b; condition := condition b;
          proc_name := proc_name b; proc_params := proc_params b;
          items := items b; children := (children b ++ [child])%list;
          start_line_num := start_line_num b |}).

Definition set_header (cond name prm : option string) (line_num : nat)
  (b : bcl_block_t) : bcl_block_t :=
  {| b_type := b_type b; condition := cond; proc_name := name;
     proc_params := prm; items := items b; children := children b;
     start_line_num := line_num |}.

Definition set_items (its : list block_item_t) (b : bcl_block_t) : bcl_block_t :=
  {| b_type := b_type b; condition := condition b; proc_name := proc_name b;
     proc_params := proc_params b; items := its; children := children b;
     start_line_num := start_line_num b |}.

Definition not_space (c : ascii) : bool := negb (isspace c).

Definition get_first_token (line : string) : option string :=
  match skip_while isspace line with
  | EmptyString => None
  | s => Some (take_while not_space s)
  end.

(** [line_contains_end]: some white-space separated token is [END]. *)
Fixpoint contains_end_loop (fuel : nat) (p : string) : bool :=
  match fuel with
  | O => false
  | S f =>
      match skip_while isspace p with
      | EmptyString => false
      | s =>
          let token := take_while not_space s in
          if (String.length token =? 3)%nat && (bcl_strncasecmp token "END" 3 =? 0)
          then true
          else contains_end_loop f (skip_while not_space s)
      end
  end.

Definition line_contains_end (line : string) : bool :=
  contains_end_loop (S (String.length line)) line.

(** The word at [next] starts with THEN or with DO. *)
Definition at_then_or_do (next : string) : bool :=
  (bcl_strncasecmp next "THEN" 4 =? 0) || (bcl_strncasecmp next "DO" 2 =? 0).

(** Length of the condition: up to the first white space that is followed
    (after more white space) by THEN or DO, else up to the end. *)
Fixpoint condition_length (s : string) : nat :=
  match s with
  | EmptyString => O
  | String c r =>
      if isspace c && at_then_or_do (skip_while isspace r) then O
      else S (condition_length r)
  end.

Definition strip_quotes (condition : string) : string :=
  match condition, last_char condition with
  | String first _, Some final =>
      if (2 <=? String.length condition)%nat
         && ((Ascii.eqb first dquote && Ascii.eqb final dquote)
             || (Ascii.eqb first "'" && Ascii.eqb final "'"))
      then take (String.length condition - 2) (drop 1 condition)
      else condition
  | _, _ => condition
  end.

Definition extract_condition (line keyword : string) : option string :=
  let p := skip_while isspace line in
  let kw_len := String.length keyword in
  if negb (bcl_strncasecmp p keyword kw_len =? 0) then None
  else
    let p1 := skip_while isspace (drop kw_len p) in
    let condition := rtrim isspace (take (condition_length p1) p1) in
    if strcase_eq keyword "CASE" then Some (strip_quotes condition)
    else Some condition.

(** The word at [p] is DO: followed by the end of the line or white space. *)
Definition at_do_word (p : string) : bool :=
  (bcl_strncasecmp p "DO" 2 =? 0)
  && match drop 2 p with
     | EmptyString => true
     | String c _ => isspace c
     end.

(** Offset of [do_pos] from [param_start]: the first white space followed
    by the word DO; [None] when the scan reaches the end of the line. *)
Fixpoint find_do_pos (p : string) : option nat :=
  match p with
  | EmptyString => None
  | String c r =>
      if isspace c && at_do_word (skip_while isspace p) then Some O
      else match find_do_pos r with
           | Some n => Some (S n)
           | None => None
           end
  end.

(** The header of a PROC line: name and parameter text. *)
Definition parse_proc_header (line_text : string) : option string * option string :=
  let p0 := skip_while isspace (drop 4 (skip_while isspace line_text)) in
  let name := take_while not_space p0 in
  let p1 := skip_while isspace (skip_while not_space p0) in
  let proc_name := match name with EmptyString => None | _ => Some name end in
  if at_do_word p1 then (proc_name, None)
  else if bcl_strncasecmp p1 "WITH" 4 =? 0 then
    let param_start := skip_while isspace (drop 4 p1) in
    if at_do_word param_start then (proc_name, None)
    else
      match find_do_pos param_start with
      | Some (S n) =>
          (proc_name, Some (rtrim isspace (take (S n) param_start)))
      | _ => (proc_name, None)
      end
  else (proc_name, None).

(** *** The parser: a store of blocks and the stack of open blocks

    [stack] lists the open blocks, the current one first; the root is its
    last element: [stack_top] of the C code is its length less one, and
    [stack_top > 0] is [has_open_block]. The C array is
    [bcl_block_t *stack[256]], and a block is pushed with
    [stack[++stack_top] = block] without a bound check: with 256 entries
    on the stack the push writes outside the array, and the parse has no
    defined result ([None]). *)
Record parser_state := mk_parser {
  p_heap : block_heap;
  stack : list block_ptr
}.

Definition has_open_block (stack : list block_ptr) : bool :=
  match stack with
  | _ :: _ :: _ => true
  | _ => false
  end.

Definition stack_peek (stack : list block_ptr) : block_ptr := hd O stack.

Definition type_of (h : block_heap) (p : block_ptr) : block_type_t :=
  match heap_get h p with
  | Some b => b_type b
  | None => BLOCK_NONE
  end.

(** [stack[++stack_top] = b]. *)
Definition stack_push (h : block_heap) (b : block_ptr) (stack : list block_ptr)
  : option parser_state :=
  if (List.length stack <? 256)%nat then Some {| p_heap := h; stack := b :: stack |}
  else None.

(** Open a block of [type] as an item of the current block. *)
Definition open_as_item (st : parser_state) (type : block_type_t)
  (cond name prm : option string) (line_num : nat) : option parser_state :=
  let current_block := stack_peek (stack st) in
  let (b, h1) := block_create (p_heap st) type in
  let h2 := heap_update h1 b (set_header cond name prm line_num) in
  let h3 := block_add_block_item h2 current_block (Some b) in
  stack_push h3 b (stack st).

(** Open a block of [type] as a child (sibling chain) of [owner], on top
    of the [below] part of the stack. *)
Definition open_as_child (h : block_heap) (below : list block_ptr)
  (owner : block_ptr) (type : block_type_t) (cond : option string)
  (line_num : nat) : option parser_state :=
  let (b, h1) := block_create h type in
  let h2 := heap_update h1 b (set_header cond None None line_num) in
  let h3 := block_add_child h2 owner b in
  stack_push h3 b below.

Definition add_line_to_current (st : parser_state) (line_text : string)
  : parser_state :=
  {| p_heap := block_add_line (p_heap st) (stack_peek (stack st)) line_text;
     stack := stack st |}.

Definition is_case_or_default (t : block_type_t) : bool :=
  match t with
  | BLOCK_CASE | BLOCK_DEFAULT => true
  | _ => false
  end.

(** The END branch. *)
Definition parse_end (st : parser_state) : parser_state :=
  if has_open_block (stack st) then
    let current_type := type_of (p_heap st) (stack_peek (stack st)) in
    let stack1 := tl (stack st) in
    if has_open_block stack1 && is_case_or_default current_type then
      if block_type_eqb (type_of (p_heap st) (stack_peek stack1)) BLOCK_SWITCH
      then {| p_heap := p_heap st; stack := tl stack1 |}
      else {| p_heap := p_heap st; stack := stack1 |}
    else {| p_heap := p_heap st; stack := stack1 |}
  else st.

(** One iteration of the loop over the lines; [i] is the 0-based index. *)
Definition parse_one_line (st : parser_state) (i : nat) (line_text : string)
  : option parser_state :=
  let p := skip_while isspace line_text in
  match p with
  | EmptyString => Some st
  | String c _ =>
      if Ascii.eqb c "#" then Some st
      else
        match get_first_token p with
        | None => Some (add_line_to_current st line_text)
        | Some first_token =>
            let h := p_heap st in
            let stk := stack st in
            if strcase_eq first_token "IF" then
              if line_contains_end line_text
              then Some (add_line_to_current st line_text)
              else open_as_item st BLOCK_IF (extract_condition line_text "IF")
                     None None (S i)
            else if strcase_eq first_token "ELSEIF" then
              if has_open_block stk then
                open_as_child h (tl stk) (stack_peek stk) BLOCK_ELSEIF
                  (extract_condition line_text "ELSEIF") (S i)
              else Some st
            else if strcase_eq first_token "ELSE" then
              if has_open_block stk then
                open_as_child h (tl stk) (stack_peek stk) BLOCK_ELSE None (S i)
              else Some st
            else if strcase_eq first_token "WHILE" then
              open_as_item st BLOCK_WHILE (extract_condition line_text "WHILE")
                None None (S i)
            else if strcase_eq first_token "FOR" then
              open_as_item st BLOCK_FOR (extract_condition line_text "FOR")
                None None (S i)
            else if strcase_eq first_token "FOREACH" then
              open_as_item st BLOCK_FOREACH (extract_condition line_text "FOREACH")
                None None (S i)
            else if strcase_eq first_token "SWITCH" then
              open_as_item st BLOCK_SWITCH (extract_condition line_text "SWITCH")
                None None (S i)
            else if strcase_eq first_token "CASE" then
              if has_open_block stk then
                let stk1 := if is_case_or_default (type_of h (stack_peek stk))
                            then tl stk else stk in
                open_as_child h stk1 (stack_peek stk1) BLOCK_CASE
                  (extract_condition line_text "CASE") (S i)
              else Some st
            else if strcase_eq first_token "DEFAULT" then
              if has_open_block stk then
                let stk1 := if block_type_eqb (type_of h (stack_peek stk)) BLOCK_CASE
                            then tl stk else stk in
                open_as_child h stk1 (stack_peek stk1) BLOCK_DEFAULT None (S i)
              else Some st
            else if strcase_eq first_token "PROC" then
              let (name, prm) := parse_proc_header line_text in
              open_as_item st BLOCK_PROC None name prm (S i)
            else if strcase_eq first_token "END" then Some (parse_end st)
            else Some (add_line_to_current st line_text)
        end
  end.

Fixpoint parse_lines (st : parser_state) (i : nat) (lines : list string)
  : option parser_state :=
  match lines with
  | [] => Some st
  | line_text :: rest =>
      match parse_one_line st i line_text with
      | Some st' => parse_lines st' (S i) rest
      | None => None
      end
  end.

Definition newline : string := String (chr 10) EmptyString.

(** The parser state before the first line: the root alone on the stack. *)
Definition parser_init (h : block_heap) : parser_state :=
  let (root, h1) := block_create h BLOCK_NONE in
  {| p_heap := h1; stack := [root] |}.

Definition parser_run (h : block_heap) (code : string) : option parser_state :=
  parse_lines (parser_init h) O (strtok_all code newline).

(** [bcl_parse_blocks]: the root block and the store holding the tree. *)
Definition bcl_parse_blocks (h : block_heap) (code : string)
  : option (block_ptr * block_heap) :=
  match parser_run h code with
  | Some st => Some (List.length h, p_heap st)
  | None => None
  end.

(* ====================================================================== *)
(** ** Running code: a state monad over the interpreter

    [None] means that there is no result to speak of: the recursion
    bound given to the evaluator was too small, or the C code wrote
    outside one of its arrays (the two stacks of EXPR, the parser's
    stack of open blocks). Every C function that returns does so as
    [Some]. *)

Definition M (A : Type) : Type := bcl_interp_t -> option (A * bcl_interp_t).

Definition ret {A : Type} (a : A) : M A := fun st => Some (a, st).

Definition bind {A B : Type} (m : M A) (f : A -> M B) : M B :=
  fun st =>
    match m st with
    | Some (a, st') => f a st'
    | None => None
    end.

Definition get_interp : M bcl_interp_t := fun st => Some (st, st).

Definition lift {A : Type} (f : bcl_interp_t -> A * bcl_interp_t) : M A :=
  fun st => Some (f st).

Definition modify (f : bcl_interp_t -> bcl_interp_t) : M unit :=
  fun st => Some (tt, f st).

Definition out_of_fuel {A : Type} : M A := fun _ => None.

(** A result that exists only while the code stays inside its arrays. *)
Definition defined {A : Type} (o : option A) : M A :=
  fun st => match o with
            | Some a => Some (a, st)
            | None => None
            end.

Declare Scope bcl_scope.
Delimit Scope bcl_scope with bcl.
Notation "x <- m ;; k" := (bind m (fun x => k))
  (at level 61, m at next level, right associativity) : bcl_scope.
Notation "' p <- m ;; k" := (bind m (fun x => let p := x in k))
  (at level 61, p pattern, m at next level, right associativity) : bcl_scope.
Notation "m ;;; k" := (bind m (fun _ => k))
  (at level 61, right associativity) : bcl_scope.
Local Open Scope bcl_scope.

(** What a command hands back: the result code and [*result]. *)
Definition cmd_result : Type := bcl_result_t * option bcl_value_t.

Definition command_fn : Type :=
  list string -> bcl_interp_t -> cmd_result * bcl_interp_t.

(** The commands of the dispatch table whose bodies are in the library
    files (lists, strings, arrays, files, ...) and the commands that
    loaded extensions register. *)
Class Library := {
  library_command : string -> command_fn;
  extension_command : string -> option command_fn
}.

Definition quoted (s : string) : string :=
  String dquote (s ++ String dquote EmptyString).

(** Fail with a message: [bcl_set_error (...); return BCL_ERROR;]. *)
Definition fail_with (msg : string) : M cmd_result :=
  fun st => Some ((BCL_ERROR, None), bcl_set_error st msg).

(* ---------------------------------------------------------------------- *)
(** *** bcl_commands.c *)

Definition bcl_cmd_set (argv : list string) : M cmd_result :=
  match argv with
  | [varname] =>
      interp <- get_interp ;;
      match bcl_var_get interp varname with
      | None =>
          fail_with ("can't read " ++ quoted varname ++ ": no such variable")
      | Some val => ret (BCL_OK, Some val)
      end
  | [varname; value] =>
      res <- lift (fun st => bcl_var_set st varname value) ;;
      match res with
      | BCL_OK => ret (BCL_OK, Some value)
      | _ => ret (BCL_ERROR, None)
      end
  | _ =>
      fail_with ("SET: wrong # args: should be " ++ quoted "SET varname ?value?")
  end.

Definition bcl_cmd_unset (argv : list string) : M cmd_result :=
  match argv with
  | [name] =>
      lift (fun st => bcl_var_unset st name) ;;;
      ret (BCL_OK, Some EmptyString)
  | _ => fail_with ("UNSET: wrong # args: should be " ++ quoted "UNSET varname")
  end.

Definition incr_var (varname : string) (increment : double) : M cmd_result :=
  interp <- get_interp ;;
  let current :=
    match bcl_var_get interp varname with
    | Some val => Some (bcl_value_to_number val, val)
    | None => None
    end in
  match current with
  | Some ((_, false), val) =>
      fail_with ("expected integer but got " ++ quoted val)
  | _ =>
      let cur := match current with
                 | Some ((x, _), _) => x
                 | None => d_zero
                 end in
      let buf := snprintf 64 (fmt_0f (d_add cur increment)) in
      lift (fun st => bcl_var_set st varname buf) ;;;
      ret (BCL_OK, Some buf)
  end.

Definition bcl_cmd_incr (argv : list string) : M cmd_result :=
  match argv with
  | [varname] => incr_var varname d_one
  | [varname; amount] =>
      match bcl_str_to_number amount with
      | (_, false) => fail_with ("expected integer but got " ++ quoted amount)
      | (increment, true) => incr_var varname increment
      end
  | _ =>
      fail_with ("INCR: wrong # args: should be " ++ quoted "INCR varname ?increment?")
  end.

Definition bcl_cmd_append (argv : list string) : M cmd_result :=
  match argv with
  | [] =>
      fail_with ("APPEND: wrong # args: should be "
                 ++ quoted "APPEND varname ?value ...?")
  | varname :: values =>
      interp <- get_interp ;;
      let str := value_text (bcl_var_get interp varname) ++ String.concat "" values in
      lift (fun st => bcl_var_set st varname str) ;;;
      ret (BCL_OK, Some str)
  end.

(** PUTS and PUTSN with no file handle open. *)
Definition bcl_cmd_puts (argv : list string) : M cmd_result :=
  modify (fun st => write_stdout st (join " " argv ++ newline)) ;;;
  ret (BCL_OK, Some EmptyString).

Definition bcl_cmd_putsn (argv : list string) : M cmd_result :=
  modify (fun st => write_stdout st (join " " argv)) ;;;
  ret (BCL_OK, Some EmptyString).

(** The conversion [(int) x], truncating toward zero. *)
Definition d_to_int (x : double) : Z :=
  match x with
  | S754_finite s m e =>
      let (n, d) := d_fraction m e in
      if s then - (n / d) else n / d
  | _ => 0
  end.

Definition bcl_cmd_exit (argv : list string) : M cmd_result :=
  match argv with
  | [] =>
      modify (fun st => set_exit_code st 0) ;;;
      ret (BCL_EXIT, Some EmptyString)
  | a :: _ =>
      match bcl_str_to_number a with
      | (_, false) => fail_with ("expected integer but got " ++ quoted a)
      | (x, true) =>
          modify (fun st => set_exit_code st (d_to_int x)) ;;;
          ret (BCL_EXIT, Some EmptyString)
      end
  end.

(** Mark each name in the [global_refs] of the current scope. *)
Fixpoint mark_global (refs : bcl_hash_table_t bcl_value_t) (argv : list string)
  : bcl_hash_table_t bcl_value_t :=
  match argv with
  | [] => refs
  | varname :: rest => mark_global (bcl_hash_set refs varname "1") rest
  end.

Definition bcl_cmd_global (argv : list string) : M cmd_result :=
  match argv with
  | [] =>
      fail_with ("GLOBAL: wrong # args: should be "
                 ++ quoted "GLOBAL varName ?varName ...?")
  | _ =>
      interp <- get_interp ;;
      match scope_stack interp with
      | [] => ret (BCL_OK, Some EmptyString)
      | scope :: rest =>
          modify (fun st =>
            set_scope_stack st
              (set_scope_global_refs scope (mark_global (global_refs scope) argv)
               :: rest)) ;;;
          ret (BCL_OK, Some EmptyString)
      end
  end.

Definition bcl_cmd_break (argv : list string) : M cmd_result :=
  ret (BCL_BREAK, Some EmptyString).

Definition bcl_cmd_continue (argv : list string) : M cmd_result :=
  ret (BCL_CONTINUE, Some EmptyString).

Definition bcl_cmd_return (argv : list string) : M cmd_result :=
  let value := match argv with
               | [] => EmptyString
               | _ => join " " argv
               end in
  modify (fun st => set_return_value st (Some value)) ;;;
  ret (BCL_RETURN, Some value).

(* ---------------------------------------------------------------------- *)
(** *** The mutually recursive core: bcl_parser.c (subcommands, lines),
        bcl_eval.c, bcl_control.c, bcl_block.c (execution) and
        [bcl_proc_call] of bcl_interp.c

    The C functions call each other recursively. Here each is defined
    from [handles], the same functions one level of recursion down, and
    a [bound] on the iterations of a loop; [run] ties the knot. *)

Record handles := mk_handles {
  h_exec_block : option block_ptr -> M bcl_result_t;
  h_eval : string -> M cmd_result;
  h_expand_subcommands : string -> M string
}.

Definition library_names : list string :=
  [ "GETS"; "ARRAY"; "BINARY"; "LIST"; "SPLIT"; "JOIN"; "LINDEX"; "LRANGE";
    "LLENGTH"; "LAPPEND"; "LINSERT"; "LREPLACE"; "CONCAT"; "LSORT"; "LSEARCH";
    "INFO"; "CLOCK"; "STRING"; "FORMAT"; "SCAN"; "REGEXP"; "REGSUB"; "OPEN";
    "CLOSE"; "READ"; "TELL"; "SEEK"; "EOF"; "PWD"; "FILE"; "GLOB"; "EVAL";
    "SOURCE"; "LOAD"; "ENV"; "ARGV"; "EXEC"; "AFTER"; "EVENT" ].

Section Exec.
Context {libm : Libm} {lib : Library}.
Variable H : handles.
Variable bound : nat.

(* bcl_parser.c *)

Definition bcl_eval_subcommand (cmd : string) : M string :=
  r <- h_eval H cmd ;;
  ret (match r with
       | (BCL_OK, Some v) => v
       | _ => EmptyString
       end).

(** The text of a subcommand: up to the bracket that closes the one just
    read; the second component starts at that bracket (or is empty). *)
Fixpoint scan_bracket (bracket_count : nat) (s : string) : string * string :=
  match s with
  | EmptyString => (EmptyString, EmptyString)
  | String c r =>
      let count' := if Ascii.eqb c "[" then S bracket_count
                    else if Ascii.eqb c "]" then Nat.pred bracket_count
                    else bracket_count in
      match count' with
      | O => (EmptyString, s)
      | _ => let (t, rest) := scan_bracket count' r in (String c t, rest)
      end
  end.

Fixpoint has_spaces (s : string) : bool :=
  match s with
  | EmptyString => false
  | String c r => isspace c || has_spaces r
  end.

Fixpoint escape_quotes (s : string) : string :=
  match s with
  | EmptyString => EmptyString
  | String c r =>
      if Ascii.eqb c dquote then String "\" (String c (escape_quotes r))
      else String c (escape_quotes r)
  end.

(** A result with white space goes back into the line quoted. *)
Definition protect_result (cmd_result : string) : string :=
  if has_spaces cmd_result then quoted (escape_quotes cmd_result)
  else cmd_result.

Fixpoint expand_subcommands_loop (k : nat) (str : string) : M string :=
  match k with
  | O => out_of_fuel
  | S k' =>
      match str with
      | EmptyString => ret EmptyString
      | String c r =>
          if Ascii.eqb c "[" then
            let (cmd, at_close) := scan_bracket 1 r in
            expanded_cmd <- h_expand_subcommands H cmd ;;
            cmd_result <- bcl_eval_subcommand expanded_cmd ;;
            rest <- expand_subcommands_loop k' (skip_char "]" at_close) ;;
            ret (protect_result cmd_result ++ rest)
          else
            rest <- expand_subcommands_loop k' r ;;
            ret (String c rest)
      end
  end.

Definition expand_subcommands_body (str : string) : M string :=
  expand_subcommands_loop (S (String.length str)) str.

(** [bcl_parse_line]: the processed tokens; the empty list is the [NULL]
    result. *)
Definition bcl_parse_line (line : string) : M (list string) :=
  if is_comment line then ret []
  else
    expanded_line <- expand_subcommands_body line ;;
    interp <- get_interp ;;
    ret (map (fun t => bcl_expand_vars interp (bcl_decode_escapes t))
             (raw_tokens (S (String.length expanded_line)) 0 expanded_line)).

(* bcl_control.c *)

Fixpoint take_nonspace (room : nat) (s : string) : string :=
  match room, s with
  | S room', String c r =>
      if isspace c then EmptyString else String c (take_nonspace room' r)
  | _, _ => EmptyString
  end.

(** The tokens handed to EXPR by the condition evaluators. *)
Fixpoint condition_tokens (fuel : nat) (p : string) : list string :=
  match fuel with
  | O => []
  | S f =>
      match skip_while isspace p with
      | EmptyString => []
      | s =>
          let token := take_nonspace (BCL_MAX_TOKEN_LEN - 1) s in
          token :: condition_tokens f (drop (String.length token) s)
      end
  end.

(** Truth of an expanded condition: tokenize, call EXPR, test the value. *)
Definition expr_truth (interp : bcl_interp_t) (expanded : string) : option bool :=
  match firstn 256 (condition_tokens (S (String.length expanded)) expanded) with
  | [] => Some false
  | argv =>
      match bcl_cmd_expr interp argv with
      | Some (BCL_OK, Some result, _) => Some (bcl_value_to_bool result)
      | Some _ => Some false
      | None => None
      end
  end.

Definition eval_condition (interp : bcl_interp_t) (condition : string)
  : option bool :=
  match condition with
  | EmptyString => Some false
  | _ => expr_truth interp (bcl_expand_vars interp condition)
  end.

(** Index of the first element at or after [from] satisfying [p]. *)
Fixpoint find_from (p : string -> bool) (from : nat) (l : list string)
  : option nat :=
  match l with
  | [] => None
  | x :: r =>
      match from with
      | O => if p x then Some O
             else option_map S (find_from p O r)
      | S from' => option_map S (find_from p from' r)
      end
  end.

(** The scan for ELSE and END after THEN: [(else_idx, end_idx)]. *)
Fixpoint find_else_end (i : nat) (l : list string) (else_idx : option nat)
  : option nat * option nat :=
  match l with
  | [] => (else_idx, None)
  | x :: r =>
      if strcase_eq x "ELSE" && match else_idx with None => true | _ => false end
      then find_else_end (S i) r (Some i)
      else if strcase_eq x "END" then (else_idx, Some i)
      else find_else_end (S i) r else_idx
  end.

(** [argv[from .. to)] joined by single spaces. *)
Definition words_between (argv : list string) (from to : nat) : string :=
  join " " (firstn (to - from) (skipn from argv)).

Definition bcl_cmd_if (argv : list string) : M cmd_result :=
  if (List.length argv <? 4)%nat then
    fail_with ("IF: wrong # args: should be "
               ++ quoted "IF condition THEN command [ELSE command] END")
  else
    match find_from (fun a => strcase_eq a "THEN") 1 argv with
    | None => fail_with "IF: missing THEN keyword"
    | Some then_idx =>
        interp <- get_interp ;;
        cond_result <- defined (eval_condition interp (words_between argv 0 then_idx)) ;;
        match find_else_end (S then_idx) (skipn (S then_idx) argv) None with
        | (_, None) => fail_with "IF: missing END keyword"
        | (else_idx, Some end_idx) =>
            let range :=
              if cond_result then
                Some (S then_idx, match else_idx with Some e => e | None => end_idx end)
              else match else_idx with
                   | Some e => Some (S e, end_idx)
                   | None => None
                   end in
            match range with
            | None => ret (BCL_OK, None)
            | Some (cmd_start, cmd_end) =>
                match words_between argv cmd_start cmd_end with
                | EmptyString => ret (BCL_OK, None)
                | cmd => h_eval H cmd
                end
            end
        end
    end.

Definition bcl_cmd_while (argv : list string) : M cmd_result :=
  fail_with "WHILE: multi-line control structures not yet implemented".

Definition bcl_cmd_for (argv : list string) : M cmd_result :=
  fail_with "FOR: multi-line control structures not yet implemented".

Definition bcl_cmd_foreach (argv : list string) : M cmd_result :=
  fail_with "FOREACH: multi-line control structures not yet implemented".

Definition bcl_cmd_switch (argv : list string) : M cmd_result :=
  fail_with "SWITCH: multi-line control structures not yet implemented".

(* bcl_interp.c *)

Fixpoint count_required (ps : list bcl_param_t) : nat :=
  match ps with
  | [] => O
  | p :: r => if optional p then count_required r else S (count_required r)
  end.

(** Bind the parameters to the arguments, position by position. *)
Fixpoint bind_params (ps : list bcl_param_t) (args : list bcl_value_t)
  (interp : bcl_interp_t) : bcl_interp_t :=
  match ps, args with
  | p :: ps', a :: args' =>
      bind_params ps' args' (snd (bcl_var_set interp (param_name p) a))
  | _, _ => interp
  end.

Definition bcl_proc_call (name : string) (args : list bcl_value_t) : M cmd_result :=
  interp <- get_interp ;;
  match bcl_hash_get (procedures interp) name with
  | None => fail_with ("invalid command name " ++ quoted name)
  | Some proc =>
      if (List.length args <? count_required (params proc))%nat then
        fail_with ("wrong # args: should be " ++ quoted (name ++ " param ..."))
      else
        pushed <- lift bcl_scope_push ;;
        match pushed with
        | BCL_OK =>
            modify (bind_params (params proc) args) ;;;
            res <- match body_block proc with
                   | Some b => h_exec_block H (Some b)
                   | None => ret BCL_OK
                   end ;;
            after <- get_interp ;;
            match res with
            | BCL_RETURN =>
                modify (fun st => set_return_value st None) ;;;
                lift bcl_scope_pop ;;;
                ret (BCL_OK, Some (value_text (return_value after)))
            | _ =>
                lift bcl_scope_pop ;;;
                ret (res, Some EmptyString)
            end
        | _ => ret (pushed, None)
        end
  end.

(* bcl_eval.c *)

Definition run_command (f : command_fn) (argv : list string) : M cmd_result :=
  fun st => Some (f argv st).

Definition bcl_dispatch_command (name : string) (argv : list string)
  : M cmd_result :=
  if strcase_eq "SET" name then bcl_cmd_set argv
  else if strcase_eq "UNSET" name then bcl_cmd_unset argv
  else if strcase_eq "INCR" name then bcl_cmd_incr argv
  else if strcase_eq "APPEND" name then bcl_cmd_append argv
  else if strcase_eq "GLOBAL" name then bcl_cmd_global argv
  else if strcase_eq "PUTS" name then bcl_cmd_puts argv
  else if strcase_eq "PUTSN" name then bcl_cmd_putsn argv
  else if strcase_eq "EXPR" name then (fun st => bcl_cmd_expr st argv)
  else if strcase_eq "IF" name then bcl_cmd_if argv
  else if strcase_eq "WHILE" name then bcl_cmd_while argv
  else if strcase_eq "FOR" name then bcl_cmd_for argv
  else if strcase_eq "FOREACH" name then bcl_cmd_foreach argv
  else if strcase_eq "SWITCH" name then bcl_cmd_switch argv
  else if strcase_eq "BREAK" name then bcl_cmd_break argv
  else if strcase_eq "CONTINUE" name then bcl_cmd_continue argv
  else if strcase_eq "RETURN" name then bcl_cmd_return argv
  else if strcase_eq "EXIT" name then bcl_cmd_exit argv
  else if existsb (fun n => strcase_eq n name) library_names then
    run_command (library_command name) argv
  else
    interp <- get_interp ;;
    if bcl_proc_exists interp name then bcl_proc_call name argv
    else match extension_command name with
         | Some f => run_command f argv
         | None => fail_with ("invalid command name " ++ quoted name)
         end.

(** The loop of [bcl_eval] over the lines of the code. *)
Fixpoint eval_lines (lines : list string) (last_result : option bcl_value_t)
  : M cmd_result :=
  match lines with
  | [] => ret (BCL_OK, Some (value_text last_result))
  | line :: rest =>
      argv <- bcl_parse_line line ;;
      match argv with
      | [] => eval_lines rest last_result
      | cmd_name :: args =>
          r <- bcl_dispatch_command cmd_name args ;;
          match r with
          | (BCL_OK, cmd_result) => eval_lines rest cmd_result
          | (res, cmd_result) => ret (res, Some (value_text cmd_result))
          end
      end
  end.

Definition eval_body (code : string) : M cmd_result :=
  eval_lines (strtok_all code newline) None.

(* bcl_block.c *)

Definition eval_block_condition (condition : option string) : M bool :=
  match condition with
  | None | Some EmptyString => ret false
  | Some cond =>
      with_cmds <- expand_subcommands_body cond ;;
      interp <- get_interp ;;
      defined (expr_truth interp (bcl_expand_vars interp with_cmds))
  end.

(** [exec_block_items] on the items of the block. The items of a block
    that is being executed are not changed by what it executes, so they
    are read once. *)
Fixpoint exec_items (its : list block_item_t) : M bcl_result_t :=
  match its with
  | [] => ret BCL_OK
  | ITEM_LINE line :: rest =>
      argv <- bcl_parse_line line ;;
      match argv with
      | [] => exec_items rest
      | name :: args =>
          r <- bcl_dispatch_command name args ;;
          match fst r with
          | BCL_OK => exec_items rest
          | res => ret res
          end
      end
  | ITEM_BLOCK b :: rest =>
      res <- h_exec_block H b ;;
      match res with
      | BCL_OK => exec_items rest
      | _ => ret res
      end
  end.

Definition exec_block_items (block : bcl_block_t) : M bcl_result_t :=
  exec_items (items block).

Fixpoint while_loop (k : nat) (block : bcl_block_t) : M bcl_result_t :=
  match k with
  | O => out_of_fuel
  | S k' =>
      c <- eval_block_condition (condition block) ;;
      if c then
        res <- exec_block_items block ;;
        match res with
        | BCL_BREAK => ret BCL_OK
        | BCL_CONTINUE => while_loop k' block
        | BCL_OK => while_loop k' block
        | _ => ret res
        end
      else ret BCL_OK
  end.

(** The loop test of FOR. *)
Definition for_continues (i fin paso : double) : bool :=
  (d_gt paso d_zero && d_le i fin) || (d_lt paso d_zero && d_ge i fin).

Fixpoint for_loop (k : nat) (i fin paso : double) (block : bcl_block_t)
  : M bcl_result_t :=
  match k with
  | O => out_of_fuel
  | S k' =>
      if for_continues i fin paso then
        lift (fun st => bcl_var_set st "__FOR" (format_number i)) ;;;
        res <- exec_block_items block ;;
        match res with
        | BCL_BREAK => ret BCL_OK
        | BCL_CONTINUE => for_loop k' (d_add i paso) fin paso block
        | BCL_OK => for_loop k' (d_add i paso) fin paso block
        | _ => ret res
        end
      else ret BCL_OK
  end.

Definition space_tab : string := String " " (String (chr 9) EmptyString).
Definition space_tab_nl : string :=
  String " " (String (chr 9) (String (chr 10) EmptyString)).

(** The header of FOR: [inicio TO fin [STEP paso]]; [None] is the syntax
    error. *)
Definition parse_for_header (cond : string) : option (double * double * double) :=
  match strtok_all cond space_tab with
  | inicio_str :: to_keyword :: fin_str :: more =>
      if strcase_eq to_keyword "TO" then
        let paso_str :=
          match more with
          | step_keyword :: rest =>
              if strcase_eq step_keyword "STEP" then
                match rest with
                | p :: _ => Some p
                | [] => None
                end
              else None
          | [] => None
          end in
        Some (atof inicio_str, atof fin_str,
              match paso_str with Some p => atof p | None => d_one end)
      else None
  | _ => None
  end.

Definition fail_block (msg : string) : M bcl_result_t :=
  fun st => Some (BCL_ERROR, bcl_set_error st msg).

Definition exec_for (block : bcl_block_t) : M bcl_result_t :=
  match condition block with
  | None => fail_block "FOR: missing condition"
  | Some cond =>
      match parse_for_header cond with
      | None =>
          fail_block "FOR: invalid syntax, expected 'inicio TO fin [STEP paso]'"
      | Some (inicio, fin, paso) => for_loop bound inicio fin paso block
      end
  end.

Fixpoint foreach_loop (var : string) (elements : list string)
  (block : bcl_block_t) : M bcl_result_t :=
  match elements with
  | [] => ret BCL_OK
  | item :: rest =>
      lift (fun st => bcl_var_set st var item) ;;;
      res <- exec_block_items block ;;
      match res with
      | BCL_BREAK => ret BCL_OK
      | BCL_CONTINUE => foreach_loop var rest block
      | BCL_OK => foreach_loop var rest block
      | _ => ret res
      end
  end.

Definition exec_foreach (block : bcl_block_t) : M bcl_result_t :=
  match condition block with
  | None => fail_block "FOREACH: missing condition"
  | Some cond =>
      match strtok_r cond space_tab with
      | None => fail_block "FOREACH: missing variable name"
      | Some (varname, save1) =>
          let lista_expr :=
            match strtok_r save1 space_tab with
            | Some (next_token, save2) =>
                if String.eqb next_token "IN" || String.eqb next_token "in"
                then Some save2
                else match save2 with
                     | EmptyString => Some next_token
                     | _ => Some (next_token ++ " " ++ save2)
                     end
            | None => None
            end in
          match lista_expr with
          | None | Some EmptyString => fail_block "FOREACH: missing list"
          | Some (String c vname as literal) =>
              interp <- get_interp ;;
              let lista_val :=
                if Ascii.eqb c "$" then value_text (bcl_var_get interp vname)
                else literal in
              foreach_loop varname (strtok_all lista_val space_tab_nl) block
          end
      end
  end.

(** The parameter list of a PROC block: at most 32 names, [@] marks an
    optional one. *)
Definition parse_param (token : string) : option bcl_param_t :=
  match token with
  | EmptyString => None
  | String c r =>
      if Ascii.eqb c "@" then
        match r with
        | EmptyString => None
        | _ => Some {| param_name := r; optional := true |}
        end
      else Some {| param_name := token; optional := false |}
  end.

Fixpoint filter_params (tokens : list string) : list bcl_param_t :=
  match tokens with
  | [] => []
  | t :: r =>
      match parse_param t with
      | Some p => p :: filter_params r
      | None => filter_params r
      end
  end.

Definition parse_params (proc_params : option string) : list bcl_param_t :=
  match proc_params with
  | None | Some EmptyString => []
  | Some ps => firstn 32 (filter_params (strtok_all ps space_tab))
  end.

(** Move the items of a PROC block into the body block: lines are
    copied, blocks change owner. *)
Fixpoint transfer_items (h : block_heap) (body : block_ptr)
  (its : list block_item_t) : block_heap :=
  match its with
  | [] => h
  | ITEM_LINE line :: rest => transfer_items (block_add_line h body line) body rest
  | ITEM_BLOCK b :: rest => transfer_items (block_add_block_item h body b) body rest
  end.

(** The PROC block after the transfer: its block items are [NULL]. *)
Definition disown (it : block_item_t) : block_item_t :=
  match it with
  | ITEM_LINE line => ITEM_LINE line
  | ITEM_BLOCK _ => ITEM_BLOCK None
  end.

Definition exec_proc (p : block_ptr) (block : bcl_block_t) : M bcl_result_t :=
  match proc_name block with
  | None => fail_block "PROC: missing procedure name"
  | Some name =>
      let prms := parse_params (proc_params block) in
      interp <- get_interp ;;
      let (body_block, h1) := block_create (heap interp) BLOCK_NONE in
      let h2 := transfer_items h1 body_block (items block) in
      let h3 := heap_update h2 p (set_items (map disown (items block))) in
      modify (fun st => set_heap st h3) ;;;
      lift (fun st => bcl_proc_define st name prms (Some body_block))
  end.

(** The scan of SWITCH over the CASE and DEFAULT siblings. *)
Fixpoint switch_scan (switch_value : string) (cases : list block_ptr)
  : M bcl_result_t :=
  match cases with
  | [] => ret BCL_OK
  | c :: rest =>
      interp <- get_interp ;;
      match heap_get (heap interp) c with
      | None => switch_scan switch_value rest
      | Some case_block =>
          match b_type case_block with
          | BLOCK_CASE =>
              let case_value :=
                bcl_expand_vars interp (value_text (condition case_block)) in
              if String.eqb switch_value case_value
              then exec_block_items case_block
              else switch_scan switch_value rest
          | BLOCK_DEFAULT => exec_block_items case_block
          | _ => switch_scan switch_value rest
          end
      end
  end.

Definition exec_switch (block : bcl_block_t) : M bcl_result_t :=
  match condition block with
  | None => fail_block "SWITCH: missing expression"
  | Some cond =>
      interp <- get_interp ;;
      switch_scan (bcl_expand_vars interp cond) (children block)
  end.

(** The first ELSEIF or ELSE among the siblings of an IF. *)
Fixpoint first_alternative (h : block_heap) (siblings : list block_ptr)
  : option block_ptr :=
  match siblings with
  | [] => None
  | s :: rest =>
      match type_of h s with
      | BLOCK_ELSEIF | BLOCK_ELSE => Some s
      | _ => first_alternative h rest
      end
  end.

Definition exec_block_body (block : option block_ptr) : M bcl_result_t :=
  match block with
  | None => ret BCL_ERROR
  | Some p =>
      interp <- get_interp ;;
      match heap_get (heap interp) p with
      | None => ret BCL_ERROR
      | Some b =>
          match b_type b with
          | BLOCK_NONE => exec_block_items b
          | BLOCK_IF | BLOCK_ELSEIF =>
              c <- eval_block_condition (condition b) ;;
              if c then exec_block_items b
              else
                cur <- get_interp ;;
                match first_alternative (heap cur) (children b) with
                | Some sibling => h_exec_block H (Some sibling)
                | None => ret BCL_OK
                end
          | BLOCK_ELSE => exec_block_items b
          | BLOCK_WHILE => while_loop bound b
          | BLOCK_FOR => exec_for b
          | BLOCK_FOREACH => exec_foreach b
          | BLOCK_PROC => exec_proc p b
          | BLOCK_SWITCH => exec_switch b
          | BLOCK_CASE | BLOCK_DEFAULT =>
              fail_block "Block type not yet implemented"
          end
      end
  end.

End Exec.

(** The evaluator with recursion depth at most [fuel]. *)
Fixpoint run {libm : Libm} {lib : Library} (fuel : nat) : handles :=
  match fuel with
  | O => {| h_exec_block := fun _ => out_of_fuel;
            h_eval := fun _ => out_of_fuel;
            h_expand_subcommands := fun _ => out_of_fuel |}
  | S n =>
      let below := run n in
      {| h_exec_block := exec_block_body below n;
         h_eval := eval_body below;
         h_expand_subcommands := expand_subcommands_body below |}
  end.

Section Entry.
Context {libm : Libm} {lib : Library}.

Definition bcl_exec_block (fuel : nat) (block : option block_ptr)
  : M bcl_result_t :=
  h_exec_block (run fuel) block.

Definition bcl_eval (fuel : nat) (code : string) : M cmd_result :=
  h_eval (run fuel) code.

Definition bcl_expand_subcommands (fuel : nat) (str : string) : M string :=
  h_expand_subcommands (run fuel) str.

(** [bcl_eval_structured]: parse the code into the store and execute the
    root block. *)
Definition bcl_eval_structured (fuel : nat) (code : string) : M bcl_result_t :=
  interp <- get_interp ;;
  ' (root, h) <- defined (bcl_parse_blocks (heap interp) code) ;;
  modify (fun st => set_heap st h) ;;;
  bcl_exec_block fuel (Some root).

End Entry.

(* ====================================================================== *)
(** ** Scripts and a plain environment for concrete runs *)

(** A script given line by line. *)
Definition script (lines : list string) : string := String.concat newline lines.

(** A math library whose functions are never consulted by the runs below
    (each answers NaN). *)
Definition plain_libm : Libm :=
  {| c_sin := fun _ => S754_nan; c_cos := fun _ => S754_nan;
     c_tan := fun _ => S754_nan; c_asin := fun _ => S754_nan;
     c_acos := fun _ => S754_nan; c_atan := fun _ => S754_nan;
     c_sinh := fun _ => S754_nan; c_cosh := fun _ => S754_nan;
     c_tanh := fun _ => S754_nan; c_cbrt := fun _ => S754_nan;
     c_log := fun _ => S754_nan; c_log10 := fun _ => S754_nan;
     c_log2 := fun _ => S754_nan; c_exp := fun _ => S754_nan;
     c_pow := fun _ _ => S754_nan; c_hypot := fun _ _ => S754_nan;
     c_atan2 := fun _ _ => S754_nan; c_fmod := fun _ _ => S754_nan;
     c_rand_unit := d_zero |}.

(** An interpreter without library commands in use: each fails, and no
    extension is loaded. *)
Definition no_library : Library :=
  {| library_command := fun name _ st =>
       ((BCL_ERROR, None), bcl_set_error st ("unavailable command " ++ quoted name));
     extension_command := fun _ => None |}.

(** The value of a global variable. *)
Definition global_value (interp : bcl_interp_t) (name : string)
  : option bcl_value_t :=
  bcl_hash_get (global_vars interp) name.

(** Run a script with the structured evaluator in a fresh interpreter. *)
Definition run_script {libm : Libm} {lib : Library} (fuel : nat)
  (lines : list string) : option (bcl_result_t * bcl_interp_t) :=
  bcl_eval_structured fuel (script lines) bcl_interp_create.

(* ====================================================================== *)
(** ** Sample scripts and the vocabulary of the properties *)

(** *** States and observations *)

(** The interpreter holding the parsed script [lines], and nothing else. *)
Definition loaded (lines : list string) : bcl_interp_t :=
  match bcl_parse_blocks [] (script lines) with
  | Some (_, h) => set_heap bcl_interp_create h
  | None => bcl_interp_create
  end.

(** What a run leaves in one global variable. *)
Definition result_and_global (r : option (bcl_result_t * bcl_interp_t))
  (x : string) : option (bcl_result_t * option bcl_value_t) :=
  match r with
  | Some (res, st) => Some (res, global_value st x)
  | None => None
  end.

(** What a run leaves in two global variables. *)
Definition two_globals (r : option (bcl_result_t * bcl_interp_t)) (x y : string)
  : option (bcl_result_t * option bcl_value_t * option bcl_value_t) :=
  match r with
  | Some (res, st) => Some (res, global_value st x, global_value st y)
  | None => None
  end.

(** What a run leaves: the result, a global, the scope stack and what the
    names in [locals] read as afterwards. *)
Definition call_outcome (r : option (bcl_result_t * bcl_interp_t))
  (x : string) (locals : list string)
  : option (bcl_result_t * option bcl_value_t * list bcl_scope_t
            * list (option bcl_value_t)) :=
  match r with
  | Some (res, st) =>
      Some (res, global_value st x, scope_stack st, map (bcl_var_get st) locals)
  | None => None
  end.

(** What a failed run leaves: result, message, scope stack, globals. *)
Definition error_outcome (r : option (bcl_result_t * bcl_interp_t))
  : option (bcl_result_t * string * list bcl_scope_t
            * bcl_hash_table_t bcl_value_t) :=
  match r with
  | Some (res, st) => Some (res, error_msg st, scope_stack st, global_vars st)
  | None => None
  end.

(** A rendered number shows a decimal point. *)
Definition has_point (s : string) : bool := strchr_mem "." s.

(** *** FOR *)

Definition zero_step_script : list string :=
  [ "FOR 1 TO 5 STEP 0 DO"; "SET X 1"; "END" ].

Definition for_up_script : list string :=
  [ "FOR 1 TO 5 STEP 2 DO"; "APPEND SEEN $__FOR ,"; "INCR N"; "END" ].

Definition for_down_script : list string :=
  [ "FOR 5 TO 1 STEP -1 DO"; "APPEND SEEN $__FOR ,"; "INCR N"; "END" ].

(** A step given in hexadecimal. *)
Definition for_hex_script : list string :=
  [ "FOR 1 TO 0x5 STEP 0x2 DO"; "APPEND SEEN $__FOR ,"; "INCR N"; "END" ].

(** Every character of [s] satisfies [p]. *)
Fixpoint all_chars (p : ascii -> bool) (s : string) : bool :=
  match s with
  | EmptyString => true
  | String c r => p c && all_chars p r
  end.

(** A word of a FOR header: not empty, and free of spaces and tabs. *)
Definition header_word (w : string) : bool :=
  match w with
  | EmptyString => false
  | _ => all_chars (fun c => negb (strchr_mem c space_tab)) w
  end.

Section ForDescription.
Context {libm : Libm} {lib : Library}.
Variable H : handles.
Variable b : bcl_block_t.
Variables fin paso : double.

(** The description of FOR, in its own words: iterate while
    [(step > 0 && i <= end) || (step < 0 && i >= end)], binding the
    reserved loop counter at each iteration; Break stops with Ok,
    Continue (like Ok) goes on with the next counter, any other signal
    propagates at once. [for_runs k i] is a run from the counter [i] that
    makes the test [k] times. *)
Definition for_test (i : double) : bool :=
  (d_gt paso d_zero && d_le i fin) || (d_lt paso d_zero && d_ge i fin).

Definition bind_counter (i : double) (st : bcl_interp_t) : bcl_interp_t :=
  snd (bcl_var_set st "__FOR" (format_number i)).

Inductive for_runs
  : nat -> double -> bcl_interp_t -> bcl_result_t -> bcl_interp_t -> Prop :=
  | for_test_false i st :
      for_test i = false ->
      for_runs 1 i st BCL_OK st
  | for_body_breaks i st st2 :
      for_test i = true ->
      exec_block_items H b (bind_counter i st) = Some (BCL_BREAK, st2) ->
      for_runs 1 i st BCL_OK st2
  | for_body_continues k i st st2 res st3 :
      for_test i = true ->
      exec_block_items H b (bind_counter i st) = Some (BCL_CONTINUE, st2) ->
      for_runs k (d_add i paso) st2 res st3 ->
      for_runs (S k) i st res st3
  | for_body_completes k i st st2 res st3 :
      for_test i = true ->
      exec_block_items H b (bind_counter i st) = Some (BCL_OK, st2) ->
      for_runs k (d_add i paso) st2 res st3 ->
      for_runs (S k) i st res st3
  | for_body_propagates i st res st2 :
      for_test i = true ->
      exec_block_items H b (bind_counter i st) = Some (res, st2) ->
      res = BCL_ERROR \/ res = BCL_RETURN \/ res = BCL_EXIT ->
      for_runs 1 i st res st2.

End ForDescription.

(** *** WHILE *)

Section WhileDescription.
Context {libm : Libm} {lib : Library}.
Variable H : handles.
Variable b : bcl_block_t.

(** The description of WHILE, in its own words: loop while the condition
    is true; Break stops with Ok; Continue (like Ok) re-checks the
    condition; any other signal propagates at once. [while_runs k] is a
    run that checks the condition [k] times. *)
Inductive while_runs
  : nat -> bcl_interp_t -> bcl_result_t -> bcl_interp_t -> Prop :=
  | while_condition_false st st1 :
      eval_block_condition H (condition b) st = Some (false, st1) ->
      while_runs 1 st BCL_OK st1
  | while_body_breaks st st1 st2 :
      eval_block_condition H (condition b) st = Some (true, st1) ->
      exec_block_items H b st1 = Some (BCL_BREAK, st2) ->
      while_runs 1 st BCL_OK st2
  | while_body_continues k st st1 st2 res st3 :
      eval_block_condition H (condition b) st = Some (true, st1) ->
      exec_block_items H b st1 = Some (BCL_CONTINUE, st2) ->
      while_runs k st2 res st3 ->
      while_runs (S k) st res st3
  | while_body_completes k st st1 st2 res st3 :
      eval_block_condition H (condition b) st = Some (true, st1) ->
      exec_block_items H b st1 = Some (BCL_OK, st2) ->
      while_runs k st2 res st3 ->
      while_runs (S k) st res st3
  | while_body_propagates st st1 res st2 :
      eval_block_condition H (condition b) st = Some (true, st1) ->
      exec_block_items H b st1 = Some (res, st2) ->
      res = BCL_ERROR \/ res = BCL_RETURN \/ res = BCL_EXIT ->
      while_runs 1 st res st2.

End WhileDescription.

Definition while_break_script : list string :=
  [ "SET I 0";
    "WHILE $I < 1000000 DO";
    "INCR I";
    "IF $I == 3 THEN BREAK END";
    "END" ].

(** The interpreter at the WHILE of [while_break_script]: the script is
    parsed and [SET I 0] has run. *)
Definition at_while : bcl_interp_t :=
  set_global_vars (loaded while_break_script) [("I", "0")].

(** *** Scope discipline *)

(** Two states have the same scopes below the current one, and the same
    depth. *)
Definition same_frames (st st' : bcl_interp_t) : Prop :=
  List.length (scope_stack st') = List.length (scope_stack st)
  /\ tl (scope_stack st') = tl (scope_stack st).

Definition keeps_frames {A : Type} (m : M A) : Prop :=
  forall st a st', m st = Some (a, st') -> same_frames st st'.

(** Library and extension commands are assumed to respect the scope
    discipline as the core commands do. *)
Definition library_keeps_frames (lib : Library) : Prop :=
  (forall name argv st, same_frames st (snd (library_command name argv st)))
  /\ (forall name f argv st,
        extension_command name = Some f -> same_frames st (snd (f argv st))).

Definition handles_keep_frames (H : handles) : Prop :=
  (forall b, keeps_frames (h_exec_block H b))
  /\ (forall code, keeps_frames (h_eval H code))
  /\ (forall str, keeps_frames (h_expand_subcommands H str)).

(** *** Procedures *)

(** The interpreter on entry to the body of [proc]: a fresh scope with
    the parameters bound to the arguments. *)
Definition enter_proc (st : bcl_interp_t) (proc : bcl_procedure_t)
  (args : list bcl_value_t) : bcl_interp_t :=
  bind_params (params proc) args
    (set_scope_stack st (scope_create :: scope_stack st)).

Definition double_script : list string :=
  [ "PROC double WITH x DO";
    "RETURN [EXPR $x * 2]";
    "END";
    "SET R [double 21]" ].

Definition local_script : list string :=
  [ "PROC double WITH x DO";
    "SET tmp [EXPR $x * 2]";
    "RETURN $tmp";
    "END";
    "SET R [double 21]" ].

(** The interpreter after the definition of [double] has been executed. *)
Definition double_defined : bcl_interp_t :=
  Eval vm_compute in
    match @run_script plain_libm no_library 10
            [ "PROC double WITH x DO"; "RETURN [EXPR $x * 2]"; "END" ] with
    | Some (_, st) => st
    | None => bcl_interp_create
    end.

Definition need_script : list string :=
  [ "PROC need WITH a b DO";
    "SET INSIDE yes";
    "RETURN $a";
    "END";
    "SET BEFORE 1";
    "need 1" ].

(** The interpreter after the definition of [need] has been executed. *)
Definition need_defined : bcl_interp_t :=
  Eval vm_compute in
    match @run_script plain_libm no_library 10
            [ "PROC need WITH a b DO"; "RETURN $a"; "END" ] with
    | Some (_, st) => st
    | None => bcl_interp_create
    end.

(** *** Depth limits *)

Definition runaway_script : list string :=
  [ "PROC f DO"; "f"; "END"; "f" ].

(** A chain of [n] ELSEIF alternatives, all false, before the ELSE. *)
Definition elseif_chain (n : nat) : list string :=
  ("IF 0 THEN" :: List.repeat "ELSEIF 0 THEN" n) ++ [ "ELSE"; "SET X 1"; "END" ].

(** An interpreter with 256 scopes open, [need] defined. *)
Definition at_depth_limit : bcl_interp_t :=
  set_scope_stack need_defined (List.repeat scope_create 256).

(** *** SWITCH *)

Definition switch_quoted_script : list string :=
  [ "SWITCH " ++ quoted "b" ++ " DO";
    "CASE " ++ quoted "a";
    "APPEND T a";
    "CASE " ++ quoted "b";
    "APPEND T b";
    "DEFAULT";
    "APPEND T d";
    "END" ].

Definition switch_variable_script : list string :=
  "SET V b" :: "SWITCH $V DO" :: tl switch_quoted_script.

Definition switch_default_first_script : list string :=
  [ "SWITCH b DO";
    "DEFAULT";
    "APPEND T d";
    "CASE b";
    "APPEND T b";
    "END" ].

(** *** GLOBAL *)

Definition global_script : list string :=
  [ "SET G 1";
    "PROC bump DO";
    "GLOBAL G";
    "INCR G";
    "SET LOCAL 5";
    "END";
    "bump" ].

Definition global_shadow_script : list string :=
  [ "SET x outer";
    "PROC p WITH x DO";
    "GLOBAL x";
    "RETURN $x";
    "END";
    "SET SEEN [p inner]" ].

Definition global_array_script : list string :=
  [ "SET arr(1) old";
    "PROC q DO";
    "GLOBAL arr";
    "SET arr(1) new";
    "END";
    "q" ].

(** The interpreter inside [p] of [global_shadow_script] once [GLOBAL x]
    has run: the parameter [x] is a local variable, [x] is registered. *)
Definition shadow_state : bcl_interp_t :=
  set_scope_stack
    (set_global_vars bcl_interp_create [("x", "outer")])
    [ {| vars := [("x", "inner")];
         global_refs := [("x", "1")];
         global_prefixes := [] |} ].

(** *** The block parser *)

(** The parser invariant: the root is the bottom of the stack, it is an
    allocated block of the store, and it is the Sequence block. *)
Definition rooted (root : block_ptr) (st : parser_state) : Prop :=
  (exists above, stack st = (above ++ [root])%list)
  /\ (root < List.length (p_heap st))%nat
  /\ type_of (p_heap st) root = BLOCK_NONE.

Definition stray_end_script : list string :=
  [ "SET X 1"; "END"; "END"; "SET Y 2" ].

Definition open_while_script : list string :=
  [ "WHILE $N < 1 DO"; "INCR N" ].

Definition open_switch_lines : list string :=
  [ "SWITCH $V DO"; "CASE a"; "SET X 1" ].

(** [n] WHILE blocks, each inside the one before, none of them closed. *)
Definition nested_whiles (n : nat) : list string :=
  List.repeat "WHILE 1 DO" n.

(** What a parse leaves on the stack of open blocks. *)
Definition open_blocks (r : option parser_state) : option (list block_ptr) :=
  match r with
  | Some st => Some (stack st)
  | None => None
  end.

(** *** Tables and variables *)

(** The variable tables in use hold C strings as keys, each key once:
    the global table, and the table of the current scope. *)
Definition vars_ok (interp : bcl_interp_t) : bool :=
  table_ok (global_vars interp)
  && match get_current_scope interp with
     | Some scope => table_ok (vars scope)
     | None => true
     end.

(** *** Texts the parser reads *)

(** A character of a variable name, as [bcl_expand_vars] reads it. *)
Definition name_char (c : ascii) : bool := isalnum c || Ascii.eqb c "_".

(** A name that fits [varname[256]]. *)
Definition name_ok (name : string) : bool :=
  (String.length name <=? 255)%nat && all_chars name_char name.

(** The text after a variable name: it does not go on with a name
    character nor open an index. *)
Definition ends_name (s : string) : bool :=
  match s with
  | EmptyString => true
  | String c _ => negb (name_char c || Ascii.eqb c "(")
  end.

(** An index text without parentheses that fits [index_str[256]]. *)
Definition index_ok (idx : string) : bool :=
  (String.length idx <=? 255)%nat
  && negb (strchr_mem "(" idx) && negb (strchr_mem ")" idx).

(** A character with no meaning to the line parser. *)
Definition plain_char (c : ascii) : bool :=
  negb (isspace c || strchr_mem c "#[]$\'" || Ascii.eqb c dquote).

(** A word the tokenizer copies whole. *)
Definition plain_word (w : string) : bool :=
  match w with
  | EmptyString => false
  | _ => (String.length w <? BCL_MAX_TOKEN_LEN)%nat && all_chars plain_char w
  end.

(** The text after a word: nothing, or white space first. *)
Definition ends_word (s : string) : bool :=
  match s with
  | EmptyString => true
  | String c _ => isspace c
  end.

(** *** Blocks *)

(** The items a PROC block can hand over: lines, and blocks it still
    owns. *)
Definition owned (its : list block_item_t) : list block_item_t :=
  filter (fun it => match it with
                    | ITEM_BLOCK None => false
                    | _ => true
                    end) its.

Definition lines_of (its : list block_item_t) : list block_item_t :=
  filter (fun it => match it with
                    | ITEM_LINE _ => true
                    | ITEM_BLOCK _ => false
                    end) its.

(** A procedure whose body holds a block. *)
Definition nested_proc_script : list string :=
  [ "PROC f DO"; "IF 1 THEN"; "SET R yes"; "END"; "SET Q 1"; "END" ].

(* ====================================================================== *)
(** * Properties *)

(** ** Doubles *)

Lemma d_eq_zero_inv (x : double) :
  d_eq x d_zero = true -> exists s, x = S754_zero s.
Proof.
  destruct x as [s | s | | s m e]; cbn; intro E.
  - now exists s.
  - destruct s; discriminate.
  - discriminate.
  - destruct s; discriminate.
Qed.

Lemma d_ne_zero_false (x : double) :
  d_eq x d_zero = true -> d_ne x d_zero = false.
Proof. unfold d_ne, d_eq. now intros ->. Qed.

(** A zero step fails the loop test of FOR whatever the counter. *)
Lemma for_continues_zero_step (i fin paso : double) :
  d_eq paso d_zero = true -> for_continues i fin paso = false.
Proof.
  intro E. destruct (d_eq_zero_inv paso E) as [s ->].
  unfold for_continues, d_gt, d_lt. now destruct s.
Qed.

(* ====================================================================== *)
(** ** How much text a conversion consumes *)

Section TextConsumed.
Local Open Scope nat_scope.

Lemma skip_while_length (p : ascii -> bool) (s : string) :
  String.length (skip_while p s) <= String.length s.
Proof.
  induction s as [| c r IH]; cbn; [lia |]. destruct (p c); cbn; lia.
Qed.

Lemma take_skip_length (p : ascii -> bool) (s : string) :
  String.length (take_while p s) + String.length (skip_while p s)
  = String.length s.
Proof.
  induction s as [| c r IH]; cbn; [reflexivity |].
  destruct (p c); cbn; lia.
Qed.

Lemma length_append (a b : string) :
  String.length (a ++ b) = String.length a + String.length b.
Proof. induction a as [| x a IH]; cbn; [reflexivity | now rewrite IH]. Qed.

Lemma parse_sign_length (s : string) :
  String.length (snd (parse_sign s)) <= String.length s.
Proof.
  destruct s as [| c r]; cbn; [lia |].
  destruct c as [[] [] [] [] [] [] [] []]; cbn; lia.
Qed.

Lemma after_word_length (word : string) : forall s r,
  after_word word s = Some r ->
  String.length s = String.length word + String.length r.
Proof.
  induction word as [| a word IH]; intros s r E; cbn in E.
  - now injection E as ->.
  - destruct s as [| b s]; [discriminate |].
    destruct (Ascii.eqb (tolower a) (tolower b)); [| discriminate].
    cbn. now rewrite (IH s r E).
Qed.

Lemma parse_exponent_length (mark : ascii) (s : string) :
  String.length (snd (parse_exponent mark s)) <= String.length s.
Proof.
  unfold parse_exponent. destruct s as [| c r]; cbn [snd]; [lia |].
  destruct (Ascii.eqb (tolower c) mark); cbn [snd]; [| lia].
  pose proof (parse_sign_length r) as L1.
  destruct (parse_sign r) as [neg r1]. cbn [snd] in L1.
  pose proof (skip_while_length isdigit r1) as L2.
  destruct (take_while isdigit r1); cbn [snd String.length] in *; lia.
Qed.

Lemma parse_digits_length (digit : ascii -> bool) (s ip fp s3 : string) :
  parse_digits digit s = (ip, fp, s3) ->
  String.length ip + String.length fp + String.length s3 <= String.length s.
Proof.
  unfold parse_digits. intro E.
  pose proof (take_skip_length digit s) as L.
  destruct (skip_while digit s) as [| c r] eqn:S2.
  - injection E as <- <- <-. cbn in *. lia.
  - assert (P : (ip, fp, s3) = (take_while digit s, take_while digit r, skip_while digit r)
                \/ (ip, fp, s3) = (take_while digit s, "", String c r)).
    { destruct c as [[] [] [] [] [] [] [] []]; auto. }
    pose proof (take_skip_length digit r) as L2.
    destruct P as [P | P]; injection P as -> -> ->; cbn in *; lia.
Qed.

Lemma parse_inf_nan_length (neg : bool) (s : string) v rest :
  parse_inf_nan neg s = Some (v, rest) -> String.length rest < String.length s.
Proof.
  unfold parse_inf_nan. intro E.
  destruct (after_word "infinity" s) as [r |] eqn:A1.
  { injection E as _ <-. apply after_word_length in A1. cbn in A1. lia. }
  destruct (after_word "inf" s) as [r |] eqn:A2.
  { injection E as _ <-. apply after_word_length in A2. cbn in A2. lia. }
  destruct (after_word "nan" s) as [r |] eqn:A3; [| discriminate].
  injection E as _ <-. apply after_word_length in A3. cbn in A3.
  assert (String.length (after_nan r) <= String.length r); [| lia].
  unfold after_nan. destruct r as [| c r]; [cbn; lia |].
  assert (P : after_nan (String c r)
              = match skip_while is_nan_char r with
                | String ")"%char r' => r'
                | _ => String c r
                end
              \/ after_nan (String c r) = String c r).
  { destruct c as [[] [] [] [] [] [] [] []]; (now right) || (now left). }
  fold (after_nan (String c r)).
  destruct P as [-> | ->]; [| lia].
  pose proof (skip_while_length is_nan_char r) as L.
  destruct (skip_while is_nan_char r) as [| d r']; [cbn; lia |].
  destruct d as [[] [] [] [] [] [] [] []]; cbn in *; lia.
Qed.

Lemma parse_hex_length (neg : bool) (s : string) v rest :
  parse_hex neg s = Some (v, rest) -> String.length rest < String.length s.
Proof.
  unfold parse_hex. intro E.
  destruct (after_word "0x" s) as [r |] eqn:A; [| discriminate].
  apply after_word_length in A. cbn in A.
  destruct (parse_digits isxdigit r) as [[ip fp] s3] eqn:D.
  apply parse_digits_length in D.
  pose proof (parse_exponent_length "p" s3) as L.
  destruct (ip ++ fp)%string; [discriminate |].
  destruct (parse_exponent "p" s3) as [ex s4]. injection E as _ <-.
  cbn [snd] in L. lia.
Qed.

Lemma parse_decimal_length (neg : bool) (s : string) v rest :
  parse_decimal neg s = Some (v, rest) -> String.length rest < String.length s.
Proof.
  unfold parse_decimal. intro E.
  destruct (parse_digits isdigit s) as [[ip fp] s3] eqn:D.
  apply parse_digits_length in D.
  pose proof (parse_exponent_length "e" s3) as L.
  pose proof (length_append ip fp) as La.
  destruct (ip ++ fp)%string; [discriminate |].
  destruct (parse_exponent "e" s3) as [ex s4]. injection E as _ <-.
  cbn [snd String.length] in *. lia.
Qed.

(** [strtod] leaves a suffix of its input, and a strict one unless no
    number was found. *)
Lemma strtod_length (s : string) :
  strtod s = (d_zero, s)
  \/ String.length (snd (strtod s)) < String.length s.
Proof.
  unfold strtod.
  pose proof (skip_while_length isspace s) as L0.
  pose proof (parse_sign_length (skip_while isspace s)) as L1.
  destruct (parse_sign (skip_while isspace s)) as [neg s1]. cbn [snd] in L1.
  destruct (parse_inf_nan neg s1) as [[v rest] |] eqn:E1.
  { right. apply parse_inf_nan_length in E1. cbn. lia. }
  destruct (parse_hex neg s1) as [[v rest] |] eqn:E2.
  { right. apply parse_hex_length in E2. cbn. lia. }
  destruct (parse_decimal neg s1) as [[v rest] |] eqn:E3.
  { right. apply parse_decimal_length in E3. cbn. lia. }
  now left.
Qed.

Lemma digit_is_plain (c : ascii) :
  isdigit c = true ->
  isspace c = false /\ forall r, parse_sign (String c r) = (false, String c r).
Proof.
  destruct c as [[] [] [] [] [] [] [] []]; intro D; try discriminate D;
    split; reflexivity.
Qed.

Lemma parse_decimal_none (neg : bool) (s : string) :
  parse_decimal neg s = None ->
  let '(ip, fp, _) := parse_digits isdigit s in (ip ++ fp)%string = "".
Proof.
  unfold parse_decimal. destruct (parse_digits isdigit s) as [[ip fp] s3].
  destruct (ip ++ fp)%string; [reflexivity |].
  destruct (parse_exponent _ _); discriminate.
Qed.

(** Where [parse_expr_token] calls it, [strtod] finds a number. *)
Lemma strtod_at_number (c : ascii) (r : string) :
  isdigit c
  || (Ascii.eqb c "." && match r with String d _ => isdigit d | _ => false end)
  = true ->
  String.length (snd (strtod (String c r))) < String.length (String c r).
Proof.
  intro N. destruct (strtod_length (String c r)) as [E | L]; [| exact L].
  exfalso. revert E. unfold strtod.
  assert (P : skip_while isspace (String c r) = String c r
              /\ parse_sign (String c r) = (false, String c r)
              /\ parse_decimal false (String c r) <> None).
  { apply orb_prop in N as [D | D].
    - destruct (digit_is_plain c D) as [Sp Sg].
      split; [cbn; now rewrite Sp |]. split; [apply Sg |].
      intro E. apply parse_decimal_none in E. revert E.
      unfold parse_digits. cbn [take_while skip_while]. rewrite D.
      destruct (skip_while isdigit r) as [| d q]; [discriminate |].
      destruct d as [[] [] [] [] [] [] [] []]; discriminate.
    - apply andb_prop in D as [D1 D2]. apply Ascii.eqb_eq in D1. subst c.
      split; [reflexivity |]. split; [reflexivity |].
      destruct r as [| d q]; [discriminate |].
      intro E. apply parse_decimal_none in E. revert E.
      unfold parse_digits. cbn. rewrite D2. discriminate. }
  destruct P as (-> & -> & Pd).
  destruct (parse_inf_nan false (String c r)) as [[v rest] |] eqn:E1.
  { intro E. apply parse_inf_nan_length in E1. injection E as _ ->. lia. }
  destruct (parse_hex false (String c r)) as [[v rest] |] eqn:E2.
  { intro E. apply parse_hex_length in E2. injection E as _ ->. lia. }
  destruct (parse_decimal false (String c r)) as [[v rest] |] eqn:E3.
  { intro E. apply parse_decimal_length in E3. injection E as _ ->. lia. }
  congruence.
Qed.

End TextConsumed.

(* ====================================================================== *)
(** ** The expression evaluator never fails on arithmetic *)

Section ExprProperties.
Context {libm : Libm}.

Lemma divide_by_zero_yields_zero (lhs rhs : double) :
  d_eq rhs d_zero = true -> apply_operator TOK_DIVIDE lhs rhs = d_zero.
Proof.
  intro E. cbn [apply_operator]. unfold d_ne, d_eq in *. now rewrite E.
Qed.

(** On the value stack: a division whose right operand (the top) is zero
    replaces both operands by [0.0]. *)
Lemma divide_on_stack (rhs lhs : double) (vs : value_stack_t) :
  d_eq rhs d_zero = true ->
  apply_popped (tok TOK_DIVIDE) (rhs :: lhs :: vs) = d_zero :: vs.
Proof.
  intro E. cbn. unfold d_ne, d_eq in *. now rewrite E.
Qed.

(** *** Every token takes text, and only three of them push *)

Lemma drop_length (n : nat) : forall s,
  (String.length (drop n s) <= String.length s)%nat.
Proof.
  induction n as [| n IH]; intros [| c r]; cbn; try lia. specialize (IH r). lia.
Qed.

Lemma parse_expr_token_consumes (pos : string) t pos' :
  parse_expr_token pos = (t, pos') -> tok_type t <> TOK_END ->
  (String.length pos' < String.length pos)%nat.
Proof.
  intros E Hne. unfold parse_expr_token in E.
  pose proof (skip_while_length isspace pos) as L0.
  destruct (skip_while isspace pos) as [| c r] eqn:S.
  { injection E as <- <-. now destruct Hne. }
  destruct (isdigit c || _) eqn:N.
  { pose proof (strtod_at_number c r N) as L.
    destruct (strtod (String c r)) as [v endptr]. injection E as <- <-.
    cbn [snd String.length] in *. lia. }
  destruct (is_func_char c) eqn:F.
  { clear Hne. cbv zeta in E.
    change (take_func_name 31 (String c r))
      with (if is_func_char c then String c (take_func_name 30 r) else "") in E.
    rewrite F in E. remember (take_func_name 30 r) as name eqn:Hname.
    clear Hname. injection E as _ <-. cbn [String.length drop].
    pose proof (drop_length (String.length name) r).
    cbn [String.length] in L0. lia. }
  cbn [String.length] in L0.
  destruct r as [| c1 r2];
    repeat match type of E with
           | context [if ?b then _ else _] => destruct b
           end;
    injection E as <- <-; cbn [String.length] in *; try lia; now destruct Hne.
Qed.

Lemma apply_function_length (f : expr_token_t) (vs : value_stack_t) :
  (List.length (apply_function f vs) <= List.length vs)%nat.
Proof.
  unfold apply_function. destruct (is_function2 _).
  - destruct vs as [| a [| b vs]]; cbn; lia.
  - destruct vs; cbn; lia.
Qed.

Lemma apply_popped_length (op : expr_token_t) (vs : value_stack_t) :
  (List.length (apply_popped op vs) <= List.length vs)%nat.
Proof.
  unfold apply_popped, apply_not, apply_binary.
  destruct (tok_type op); destruct vs as [| a [| b vs]]; cbn; lia.
Qed.

Lemma pop_to_lparen_length (ops : op_stack_t) : forall vs,
  (List.length (fst (pop_to_lparen ops vs)) <= List.length ops
   /\ List.length (snd (pop_to_lparen ops vs)) <= List.length vs)%nat.
Proof.
  induction ops as [| op ops IH]; intro vs; cbn [pop_to_lparen]; [cbn; lia |].
  pose proof (apply_function_length op vs).
  pose proof (apply_popped_length op vs).
  destruct (tok_type op);
    try (destruct (IH (apply_popped op vs)); cbn [List.length]; lia);
    try (destruct (IH (apply_function op vs)); cbn [List.length]; lia).
  cbn. lia.
Qed.

Lemma on_rparen_length (ops : op_stack_t) (vs : value_stack_t) :
  (List.length (fst (on_rparen ops vs)) <= List.length ops
   /\ List.length (snd (on_rparen ops vs)) <= List.length vs)%nat.
Proof.
  unfold on_rparen. destruct (pop_to_lparen_length ops vs) as [L1 L2].
  destruct (pop_to_lparen ops vs) as [ops1 vs1]. cbn [fst snd] in *.
  destruct ops1 as [| p [| f ops3]]; cbn [fst snd List.length] in *; try lia.
  pose proof (apply_function_length f vs1).
  destruct (tok_type f); cbn [fst snd List.length]; lia.
Qed.

Lemma pop_higher_length (t : token_type_t) (ops : op_stack_t) : forall vs,
  (List.length (fst (pop_higher t ops vs)) <= List.length ops
   /\ List.length (snd (pop_higher t ops vs)) <= List.length vs)%nat.
Proof.
  induction ops as [| op ops IH]; intro vs; cbn [pop_higher]; [cbn; lia |].
  pose proof (apply_popped_length op vs).
  destruct (tok_type op); try (cbn; lia);
    (destruct (_ || _);
     [destruct (IH (apply_popped op vs)); cbn [List.length]; lia | cbn; lia]).
Qed.

(** The bound on the number of turns is never what ends the loop. *)
Lemma expr_loop_fuel (n : nat) : forall f1 f2 pos ops vs,
  (String.length pos <= n)%nat ->
  (String.length pos < f1)%nat -> (String.length pos < f2)%nat ->
  expr_loop f1 pos ops vs = expr_loop f2 pos ops vs.
Proof.
  induction n as [| n IH]; intros [| f1] [| f2] pos ops vs Ln L1 L2; try lia;
    cbn [expr_loop].
  - destruct pos; [reflexivity | cbn in Ln; lia].
  - destruct (parse_expr_token pos) as [t pos'] eqn:E.
    pose proof (parse_expr_token_consumes pos t pos' E) as C.
    destruct (tok_type t); try reflexivity; specialize (C ltac:(discriminate));
      repeat match goal with
             | |- context [match ?x with _ => _ end] => destruct x
             end;
      try reflexivity; apply IH; lia.
Qed.

(** The loop ends with a result when the text still to read, added to
    what either stack holds, fits the stacks. *)
Lemma expr_loop_defined (fuel : nat) : forall pos ops vs,
  (String.length pos < fuel)%nat ->
  (List.length vs + String.length pos <= 256)%nat ->
  (List.length ops + String.length pos <= 256)%nat ->
  exists r, expr_loop fuel pos ops vs = Some r.
Proof.
  induction fuel as [| fuel IH]; intros pos ops vs Lf Lv Lo; [lia |].
  cbn [expr_loop].
  destruct (parse_expr_token pos) as [t pos'] eqn:E.
  pose proof (parse_expr_token_consumes pos t pos' E) as C.
  pose proof (on_rparen_length ops vs) as [R1 R2].
  pose proof (pop_higher_length (tok_type t) ops vs) as [P1 P2].
  assert (Pv : push (tok_value t) vs = Some (tok_value t :: vs)
               \/ tok_type t = TOK_END).
  { destruct (tok_type t) eqn:T; auto; left; unfold push;
      specialize (C ltac:(discriminate));
      (replace (List.length vs <? 256)%nat with true
        by (symmetry; apply Nat.ltb_lt; lia)); reflexivity. }
  assert (Po : forall ops', (List.length ops' <= List.length ops)%nat ->
               push t ops' = Some (t :: ops') \/ tok_type t = TOK_END).
  { intros ops' Lo'. destruct (tok_type t) eqn:T; auto; left; unfold push;
      specialize (C ltac:(discriminate));
      (replace (List.length ops' <? 256)%nat with true
        by (symmetry; apply Nat.ltb_lt; lia)); reflexivity. }
  destruct (on_rparen ops vs) as [ops1 vs1]. cbn [fst snd] in R1, R2.
  destruct (pop_higher (tok_type t) ops vs) as [ops2 vs2] eqn:Ph.
  cbn [fst snd] in P1, P2.
  destruct (tok_type t) eqn:T;
    try (now eexists);
    try specialize (C ltac:(discriminate));
    try (destruct Pv as [-> | ?]; [| discriminate]);
    try (rewrite Ph);
    try (destruct (Po ops (le_n _)) as [-> | ?]; [| discriminate]);
    try (destruct (Po ops2 P1) as [-> | ?]; [| discriminate]);
    apply IH; cbn [List.length]; lia.
Qed.

Lemma eval_expr_text_defined (expr : string) :
  (String.length expr <= 256)%nat -> exists v, eval_expr_text expr = Some v.
Proof.
  intro L. unfold eval_expr_text.
  destruct (expr_loop_defined (S (String.length expr)) expr [] [])
    as [[ops vs] ->]; cbn [List.length]; try lia.
  now eexists.
Qed.

(** With at least one argument EXPR, when it answers, answers [BCL_OK]
    with a value and leaves the interpreter alone. *)
Lemma expr_answers_ok (interp : bcl_interp_t) (argv : list string) r v st :
  argv <> [] -> bcl_cmd_expr interp argv = Some (r, v, st) ->
  r = BCL_OK /\ st = interp /\ v <> None.
Proof.
  intros Hne E. destruct argv as [| a rest]; [congruence |].
  unfold bcl_cmd_expr in E.
  destruct (eval_expr_text _) as [x |]; [| discriminate].
  injection E as <- <- <-. repeat split. discriminate.
Qed.

(** It does answer when the expression has at most 256 characters: the
    stacks cannot fill up. *)
Lemma expr_within_capacity (interp : bcl_interp_t) (argv : list string) :
  argv <> [] -> (String.length (join " " argv) <= 256)%nat ->
  exists v, bcl_cmd_expr interp argv = Some (BCL_OK, Some v, interp).
Proof.
  intros Hne L. destruct argv as [| a rest]; [congruence |].
  unfold bcl_cmd_expr.
  destruct (eval_expr_text_defined _ L) as [x ->]. now eexists.
Qed.

End ExprProperties.

(** The text of [n] numbers separated by commas: each number is pushed,
    no comma pops. *)
Lemma expr_stack_capacity :
  @bcl_cmd_expr plain_libm bcl_interp_create [String.concat "," (List.repeat "1" 256)]
  = Some (BCL_OK, Some "1", bcl_interp_create)
  /\ @bcl_cmd_expr plain_libm bcl_interp_create [String.concat "," (List.repeat "1" 257)]
     = None.
Proof. split; vm_compute; reflexivity. Qed.

(** C7. The expression evaluator raises no error for an invalid
    arithmetic operation: a division whose right operand is zero (of
    either sign) yields [0.0], on its own and on the evaluator's value
    stack; EXPR with an expression never answers anything but [BCL_OK]
    with a value, the interpreter unchanged, and it does answer whenever
    the expression has at most 256 characters (its two stacks of 256
    entries cannot fill up); and [EXPR 1 / 0], called directly,
    dispatched by name or run as a script line, is ["0"] with
    [BCL_OK]. *)
Theorem expr_never_raises (libm : Libm) (lib : Library) :
  (forall lhs rhs, d_eq rhs d_zero = true ->
     apply_operator TOK_DIVIDE lhs rhs = d_zero)
  /\ (forall rhs lhs vs, d_eq rhs d_zero = true ->
        apply_popped (tok TOK_DIVIDE) (rhs :: lhs :: vs) = d_zero :: vs)
  /\ (forall interp argv r v st,
        argv <> [] -> bcl_cmd_expr interp argv = Some (r, v, st) ->
        r = BCL_OK /\ st = interp /\ v <> None)
  /\ (forall interp argv,
        argv <> [] -> (String.length (join " " argv) <= 256)%nat ->
        exists v, bcl_cmd_expr interp argv = Some (BCL_OK, Some v, interp))
  /\ bcl_cmd_expr bcl_interp_create ["1"; "/"; "0"]
     = Some (BCL_OK, Some "0", bcl_interp_create)
  /\ (forall H interp,
        bcl_dispatch_command H "EXPR" ["1"; "/"; "0"] interp
        = Some ((BCL_OK, Some "0"), interp))
  /\ bcl_eval 3 "SET R [EXPR 1 / 0]" bcl_interp_create
     = Some ((BCL_OK, Some "0"),
             set_global_vars bcl_interp_create [("R", "0")]).
Proof.
  split; [exact divide_by_zero_yields_zero |].
  split; [exact divide_on_stack |].
  split; [exact expr_answers_ok |].
  split; [exact expr_within_capacity |].
  split; [reflexivity |].
  split; [reflexivity |].
  vm_compute. reflexivity.
Qed.

(** [expr_never_raises] at [1 / -0.0], and on an expression that divides
    by a difference that is zero. *)
Lemma expr_never_raises_witness :
  @apply_operator plain_libm TOK_DIVIDE d_one (S754_zero true) = d_zero
  /\ exists v,
       @bcl_cmd_expr plain_libm bcl_interp_create ["7"; "/"; "(2 - 2)"; "+"; "1"]
       = Some (BCL_OK, Some v, bcl_interp_create).
Proof.
  split.
  - apply (proj1 (expr_never_raises plain_libm no_library)). reflexivity.
  - apply (proj1 (proj2 (proj2 (proj2 (expr_never_raises plain_libm no_library))))).
    + discriminate.
    + vm_compute. lia.
Defined.

(* ====================================================================== *)
(** ** Number rendering: an integral value has no decimal point *)

Lemma strchr_mem_app (c : ascii) (a b : string) :
  strchr_mem c (a ++ b) = strchr_mem c a || strchr_mem c b.
Proof.
  induction a as [| d a IH]; cbn; [reflexivity |].
  rewrite IH. now rewrite orb_assoc.
Qed.

Lemma digit_char_not_point (n : Z) :
  Ascii.eqb "." (digit_char (n mod 10)) = false.
Proof.
  pose proof (Z.mod_pos_bound n 10 ltac:(lia)) as B.
  assert (n mod 10 = 0 \/ n mod 10 = 1 \/ n mod 10 = 2 \/ n mod 10 = 3
          \/ n mod 10 = 4 \/ n mod 10 = 5 \/ n mod 10 = 6 \/ n mod 10 = 7
          \/ n mod 10 = 8 \/ n mod 10 = 9) as D by lia.
  repeat (destruct D as [-> | D]; [reflexivity |]). now rewrite D.
Qed.

Lemma digits_loop_no_point (fuel : nat) : forall n acc,
  has_point (digits_loop fuel n acc) = has_point acc.
Proof.
  unfold has_point.
  induction fuel as [| f IH]; intros n acc; cbn [digits_loop]; [reflexivity |].
  destruct (n / 10 =? 0).
  - cbn [strchr_mem]. now rewrite digit_char_not_point.
  - rewrite IH. cbn [strchr_mem]. now rewrite digit_char_not_point.
Qed.

Lemma fmt_0f_no_point (x : double) : has_point (fmt_0f x) = false.
Proof.
  unfold has_point.
  destruct x as [s | s | | s m e]; cbn [fmt_0f].
  - now destruct s.
  - now destruct s.
  - reflexivity.
  - destruct (d_fraction m e) as [n d].
    rewrite strchr_mem_app. unfold Z_digits.
    fold (has_point (digits_loop (S (Z.to_nat (Z.log2 (round_half_even n d))))
                       (round_half_even n d) "")).
    rewrite digits_loop_no_point. now destruct s.
Qed.

Lemma take_no_point (n : nat) : forall s,
  has_point s = false -> has_point (take n s) = false.
Proof.
  unfold has_point.
  induction n as [| n IH]; intros [| c r] P; cbn in *; try reflexivity.
  apply orb_false_iff in P as [P1 P2]. now rewrite P1, (IH r P2).
Qed.

Lemma take_length (n : nat) : forall s, (String.length (take n s) <= n)%nat.
Proof.
  induction n as [| n IH]; intros [| c r]; cbn; try lia. specialize (IH r). lia.
Qed.

(** The counter of FOR and the result of EXPR: an integral value is
    printed with no decimal point. *)
Lemma format_number_integral (x : double) :
  d_eq x (d_floor x) = true -> has_point (format_number x) = false.
Proof.
  intro E. unfold format_number, snprintf. rewrite E.
  apply take_no_point, fmt_0f_no_point.
Qed.

(** The text fits its 64 bytes, the terminating NUL included. *)
Lemma format_number_fits (x : double) :
  (String.length (format_number x) < 64)%nat.
Proof.
  unfold format_number, snprintf.
  pose proof (take_length (64 - 1) (if d_eq x (d_floor x) then fmt_0f x else fmt_15g x)).
  lia.
Qed.

(* ====================================================================== *)
(** ** strtok_r: the words of a text *)

Section Tokens.
Variable delims : string.
Local Open Scope nat_scope.

Lemma span_token_rest_length (s : string) :
  String.length (snd (span_token delims s)) <= String.length s.
Proof.
  induction s as [| c r IH]; cbn [span_token]; [cbn; lia |].
  destruct (strchr_mem c delims); [cbn; lia |].
  destruct (span_token delims r). cbn in *. lia.
Qed.

Lemma skip_delims_length (s : string) :
  String.length (skip_delims delims s) <= String.length s.
Proof.
  induction s as [| c r IH]; cbn [skip_delims]; [lia |].
  destruct (strchr_mem c delims); cbn; lia.
Qed.

Lemma skip_delims_stops (s : string) (c : ascii) (r : string) :
  skip_delims delims s = String c r -> strchr_mem c delims = false.
Proof.
  induction s as [| d s IH]; [discriminate |].
  cbn. destruct (strchr_mem d delims) eqn:M; [exact IH | congruence].
Qed.

Lemma strtok_r_rest_length (s t rest : string) :
  strtok_r s delims = Some (t, rest) -> String.length rest < String.length s.
Proof.
  unfold strtok_r. pose proof (skip_delims_length s) as L.
  destruct (skip_delims delims s) as [| c r] eqn:E; [discriminate |].
  intros [= Hs]. cbn [span_token] in Hs.
  rewrite (skip_delims_stops s c r E) in Hs.
  pose proof (span_token_rest_length r) as L2.
  destruct (span_token delims r) as [t' rest']. injection Hs as <- <-.
  cbn in *. lia.
Qed.

(** The bound on the number of tokens is never what ends the loop. *)
Lemma strtok_loop_fuel (n : nat) : forall f1 f2 s,
  String.length s <= n -> String.length s < f1 -> String.length s < f2 ->
  strtok_loop f1 s delims = strtok_loop f2 s delims.
Proof.
  induction n as [| n IH]; intros [| f1] [| f2] s Ln L1 L2; try lia;
    cbn [strtok_loop].
  - destruct s; [reflexivity | cbn in Ln; lia].
  - destruct (strtok_r s delims) as [[t rest] |] eqn:E; [| reflexivity].
    apply strtok_r_rest_length in E. f_equal. apply IH; lia.
Qed.

Lemma strtok_all_none (s : string) :
  strtok_r s delims = None -> strtok_all s delims = [].
Proof. intro E. unfold strtok_all. cbn [strtok_loop]. now rewrite E. Qed.

Lemma strtok_all_some (s t rest : string) :
  strtok_r s delims = Some (t, rest) ->
  strtok_all s delims = t :: strtok_all rest delims.
Proof.
  intro E. unfold strtok_all at 1. cbn [strtok_loop]. rewrite E. f_equal.
  apply strtok_r_rest_length in E. unfold strtok_all.
  apply (strtok_loop_fuel (String.length rest)); lia.
Qed.

Lemma strtok_all_same (s s' : string) :
  strtok_r s delims = strtok_r s' delims ->
  strtok_all s delims = strtok_all s' delims.
Proof.
  intro E. destruct (strtok_r s' delims) as [[t rest] |] eqn:E'.
  - now rewrite (strtok_all_some _ _ _ E), (strtok_all_some _ _ _ E').
  - now rewrite (strtok_all_none _ E), (strtok_all_none _ E').
Qed.

Lemma span_token_append (d : ascii) (y : string) :
  strchr_mem d delims = true ->
  forall x,
    span_token delims (x ++ String d y)
    = if all_chars (fun c => negb (strchr_mem c delims)) x
      then (x, y)
      else (fst (span_token delims x), snd (span_token delims x) ++ String d y).
Proof.
  intro D. induction x as [| c x IH]; cbn [append span_token all_chars].
  - now rewrite D.
  - destruct (strchr_mem c delims); cbn [negb andb]; [reflexivity |].
    rewrite IH. destruct (all_chars _ x); [reflexivity |].
    now destruct (span_token delims x).
Qed.

Lemma span_token_whole (x : string) :
  all_chars (fun c => negb (strchr_mem c delims)) x = true ->
  span_token delims x = (x, "").
Proof.
  induction x as [| c x IH]; intro A; [reflexivity |].
  cbn in A. apply andb_prop in A as [Ac A]. apply negb_true_iff in Ac.
  cbn [span_token]. now rewrite Ac, (IH A).
Qed.

Lemma skip_delims_append_all (a x : string) :
  skip_delims delims a = "" ->
  skip_delims delims (a ++ x) = skip_delims delims x.
Proof.
  induction a as [| c a IH]; intro E; [reflexivity |].
  cbn in *. destruct (strchr_mem c delims); [now apply IH | discriminate].
Qed.

Lemma skip_delims_append_some (a x : string) (c : ascii) (a1 : string) :
  skip_delims delims a = String c a1 ->
  skip_delims delims (a ++ x) = String c a1 ++ x.
Proof.
  induction a as [| d a IH]; intro E; [discriminate |].
  cbn in *. destruct (strchr_mem d delims); [now apply IH |].
  now injection E as <- <-.
Qed.

(** Splitting a text at a delimiter splits its list of tokens. *)
Lemma strtok_all_append (d : ascii) (b : string) (n : nat) :
  strchr_mem d delims = true ->
  forall a, String.length a <= n ->
    strtok_all (a ++ String d b) delims
    = (strtok_all a delims ++ strtok_all b delims)%list.
Proof.
  intro D. induction n as [| n IH]; intros a L.
  - destruct a; [| cbn in L; lia].
    rewrite (strtok_all_none "" eq_refl). cbn [app append].
    apply strtok_all_same. unfold strtok_r. cbn [skip_delims]. now rewrite D.
  - destruct (skip_delims delims a) as [| c a1] eqn:Ea.
    + assert (E0 : strtok_r a delims = None) by (unfold strtok_r; now rewrite Ea).
      rewrite (strtok_all_none _ E0). cbn [app].
      apply strtok_all_same. unfold strtok_r.
      rewrite (skip_delims_append_all a _ Ea). cbn [skip_delims].
      now rewrite D.
    + pose proof (skip_delims_length a) as Lk. rewrite Ea in Lk.
      assert (E0 : strtok_r a delims = Some (span_token delims (String c a1)))
        by (unfold strtok_r; now rewrite Ea).
      assert (E1 : strtok_r (a ++ String d b) delims
                   = Some (span_token delims (String c a1 ++ String d b))).
      { unfold strtok_r. rewrite (skip_delims_append_some a _ c a1 Ea).
        reflexivity. }
      rewrite span_token_append in E1 by exact D.
      destruct (all_chars (fun c0 => negb (strchr_mem c0 delims)) (String c a1)) eqn:A.
      * rewrite (span_token_whole _ A) in E0.
        rewrite (strtok_all_some _ _ _ E0), (strtok_all_some _ _ _ E1).
        now rewrite (strtok_all_none "" eq_refl).
      * destruct (span_token delims (String c a1)) as [t rest] eqn:Es.
        cbn [fst snd] in *.
        pose proof (strtok_r_rest_length _ _ _ E0) as Ls.
        rewrite (strtok_all_some _ _ _ E0), (strtok_all_some _ _ _ E1).
        cbn [app]. f_equal. apply IH. lia.
Qed.

(** A word is its own single token. *)
Lemma strtok_all_word (c : ascii) (w : string) :
  all_chars (fun c => negb (strchr_mem c delims)) (String c w) = true ->
  strtok_all (String c w) delims = [String c w].
Proof.
  intro A. pose proof A as A'. cbn in A'. apply andb_prop in A' as [Ac _].
  apply negb_true_iff in Ac.
  assert (E : strtok_r (String c w) delims = Some (String c w, "")).
  { unfold strtok_r. cbn [skip_delims]. rewrite Ac. now rewrite span_token_whole. }
  rewrite (strtok_all_some _ _ _ E). now rewrite (strtok_all_none "" eq_refl).
Qed.

End Tokens.

(* ====================================================================== *)
(** ** The block executor, construct by construct *)

Section BlockProperties.
Context {libm : Libm} {lib : Library}.

Lemma exec_block_unfold (n : nat) (block : option block_ptr) :
  bcl_exec_block (S n) block = exec_block_body (run n) n block.
Proof. reflexivity. Qed.

Lemma exec_block_for (H : handles) (bound : nat) p b st :
  heap_get (heap st) p = Some b -> b_type b = BLOCK_FOR ->
  exec_block_body H bound (Some p) st = exec_for H bound b st.
Proof.
  intros Hb Ht. unfold exec_block_body, bind, get_interp.
  now rewrite Hb, Ht.
Qed.

Lemma exec_block_while (H : handles) (bound : nat) p b st :
  heap_get (heap st) p = Some b -> b_type b = BLOCK_WHILE ->
  exec_block_body H bound (Some p) st = while_loop H bound b st.
Proof.
  intros Hb Ht. unfold exec_block_body, bind, get_interp.
  now rewrite Hb, Ht.
Qed.

Lemma exec_block_switch (H : handles) (bound : nat) p b st :
  heap_get (heap st) p = Some b -> b_type b = BLOCK_SWITCH ->
  exec_block_body H bound (Some p) st = exec_switch H b st.
Proof.
  intros Hb Ht. unfold exec_block_body, bind, get_interp.
  now rewrite Hb, Ht.
Qed.

(** *** FOR *)

Lemma for_header_default_step (cond a t e : string) :
  strtok_all cond space_tab = [a; t; e] -> strcase_eq t "TO" = true ->
  parse_for_header cond = Some (atof a, atof e, d_one).
Proof.
  intros Htok Hto. unfold parse_for_header. now rewrite Htok, Hto.
Qed.

Lemma for_header_with_step (cond a t e k s : string) (more : list string) :
  strtok_all cond space_tab = a :: t :: e :: k :: s :: more ->
  strcase_eq t "TO" = true -> strcase_eq k "STEP" = true ->
  parse_for_header cond = Some (atof a, atof e, atof s).
Proof.
  intros Htok Hto Hstep. unfold parse_for_header. now rewrite Htok, Hto, Hstep.
Qed.

Lemma header_word_tokens (w : string) :
  header_word w = true -> strtok_all w space_tab = [w].
Proof.
  destruct w as [| c w]; [discriminate |]. apply strtok_all_word.
Qed.

Lemma header_then_word (a rest : string) :
  header_word a = true ->
  strtok_all (a ++ String " " rest) space_tab
  = a :: strtok_all rest space_tab.
Proof.
  intro Wa.
  rewrite (strtok_all_append space_tab " " rest (String.length a) eq_refl a (le_n _)).
  now rewrite (header_word_tokens a Wa).
Qed.

(** The header as it is written, without a step. *)
Lemma for_header_text (a e : string) :
  header_word a = true -> header_word e = true ->
  parse_for_header (a ++ " TO " ++ e) = Some (atof a, atof e, d_one).
Proof.
  intros Wa We. apply (for_header_default_step _ a "TO" e); [| reflexivity].
  change (a ++ " TO " ++ e) with (a ++ String " " ("TO" ++ String " " e)).
  rewrite (header_then_word a _ Wa), (header_then_word "TO" _ eq_refl).
  now rewrite (header_word_tokens e We).
Qed.

(** The header as it is written, with a step. *)
Lemma for_header_text_step (a e s : string) :
  header_word a = true -> header_word e = true -> header_word s = true ->
  parse_for_header (a ++ " TO " ++ e ++ " STEP " ++ s)
  = Some (atof a, atof e, atof s).
Proof.
  intros Wa We Ws.
  apply (for_header_with_step _ a "TO" e "STEP" s []); try reflexivity.
  change (a ++ " TO " ++ e ++ " STEP " ++ s)
    with (a ++ String " " ("TO" ++ String " " (e ++ String " " ("STEP" ++ String " " s)))).
  rewrite (header_then_word a _ Wa), (header_then_word "TO" _ eq_refl).
  rewrite (header_then_word e _ We), (header_then_word "STEP" _ eq_refl).
  now rewrite (header_word_tokens s Ws).
Qed.

Lemma for_loop_done (H : handles) (k : nat) (i fin paso : double) b st :
  for_continues i fin paso = false ->
  for_loop H (S k) i fin paso b st = Some (BCL_OK, st).
Proof. intro G. cbn [for_loop]. now rewrite G. Qed.

(** One turn of the loop: the counter is bound, the body runs, and its
    signal decides. *)
Lemma for_loop_turn (H : handles) (k : nat) (i fin paso : double) b st :
  for_continues i fin paso = true ->
  for_loop H (S k) i fin paso b st
  = match exec_block_items H b (snd (bcl_var_set st "__FOR" (format_number i))) with
    | Some (BCL_BREAK, st') => Some (BCL_OK, st')
    | Some (BCL_CONTINUE, st') => for_loop H k (d_add i paso) fin paso b st'
    | Some (BCL_OK, st') => for_loop H k (d_add i paso) fin paso b st'
    | Some (res, st') => Some (res, st')
    | None => None
    end.
Proof.
  intro G. cbn [for_loop]. rewrite G. unfold bind, lift.
  destruct (bcl_var_set st "__FOR" (format_number i)) as [r st1]. cbn [snd].
  destruct (exec_block_items H b st1) as [[res st2] |]; [| reflexivity].
  now destruct res.
Qed.

Lemma exec_for_block (n : nat) p b st cond (i fin paso : double) :
  heap_get (heap st) p = Some b -> b_type b = BLOCK_FOR ->
  condition b = Some cond -> parse_for_header cond = Some (i, fin, paso) ->
  bcl_exec_block (S n) (Some p) st = for_loop (run n) n i fin paso b st.
Proof.
  intros Hb Ht Hc Hh. rewrite exec_block_unfold, (exec_block_for _ _ p b st Hb Ht).
  unfold exec_for. now rewrite Hc, Hh.
Qed.

End BlockProperties.

(** *** FOR against its description *)

Section ForProperties.
Context {libm : Libm} {lib : Library}.
Variable H : handles.
Variable b : bcl_block_t.
Variables fin paso : double.

(** A run of the description is what the loop computes, as soon as the
    bound covers its tests. *)
Lemma for_loop_complete k i st res st' :
  for_runs H b fin paso k i st res st' ->
  forall bound, (k <= bound)%nat ->
    for_loop H bound i fin paso b st = Some (res, st').
Proof.
  induction 1 as [i st Ht | i st st2 Ht Hb | k i st st2 res st3 Ht Hb _ IH
                 | k i st st2 res st3 Ht Hb _ IH | i st res st2 Ht Hb Hr];
    intros [| bound] Hle; try lia.
  - now apply for_loop_done.
  - rewrite for_loop_turn by exact Ht. unfold bind_counter in Hb. now rewrite Hb.
  - rewrite for_loop_turn by exact Ht. unfold bind_counter in Hb. rewrite Hb.
    apply IH. lia.
  - rewrite for_loop_turn by exact Ht. unfold bind_counter in Hb. rewrite Hb.
    apply IH. lia.
  - rewrite for_loop_turn by exact Ht. unfold bind_counter in Hb. rewrite Hb.
    now destruct Hr as [-> | [-> | ->]].
Qed.

(** Whatever the loop computes is a run of the description. *)
Lemma for_loop_sound bound : forall i st res st',
  for_loop H bound i fin paso b st = Some (res, st') ->
  exists k, (k <= bound)%nat /\ for_runs H b fin paso k i st res st'.
Proof.
  induction bound as [| bound IH]; intros i st res st' E; [discriminate |].
  destruct (for_continues i fin paso) eqn:Ht.
  - rewrite for_loop_turn in E by exact Ht.
    destruct (exec_block_items H b (snd (bcl_var_set st "__FOR" (format_number i))))
      as [[r st2] |] eqn:Hb; [| discriminate].
    destruct r.
    + destruct (IH _ _ _ _ E) as (k & Hk & Hrun).
      exists (S k). split; [lia |]. eapply for_body_completes; eauto.
    + injection E as <- <-. exists 1%nat. split; [lia |].
      eapply for_body_propagates; eauto.
    + injection E as <- <-. exists 1%nat. split; [lia |].
      eapply for_body_breaks; eauto.
    + destruct (IH _ _ _ _ E) as (k & Hk & Hrun).
      exists (S k). split; [lia |]. eapply for_body_continues; eauto.
    + injection E as <- <-. exists 1%nat. split; [lia |].
      eapply for_body_propagates; eauto.
    + injection E as <- <-. exists 1%nat. split; [lia |].
      eapply for_body_propagates; eauto.
  - rewrite for_loop_done in E by exact Ht. injection E as <- <-.
    exists 1%nat. split; [lia |]. now apply for_test_false.
Qed.

End ForProperties.

(** C10. A FOR block whose header parses with a step that is zero (of
    either sign) executes its body zero times: the block returns
    [BCL_OK] at once and the interpreter, loop counter included, is
    exactly as before. *)
Theorem for_zero_step_terminates (libm : Libm) (lib : Library)
  (fuel : nat) (p : block_ptr) (b : bcl_block_t) (st : bcl_interp_t)
  (cond : string) (i fin paso : double) :
  heap_get (heap st) p = Some b ->
  b_type b = BLOCK_FOR ->
  condition b = Some cond ->
  parse_for_header cond = Some (i, fin, paso) ->
  d_eq paso d_zero = true ->
  bcl_exec_block (S (S fuel)) (Some p) st = Some (BCL_OK, st).
Proof.
  intros Hb Ht Hc Hh Hzero.
  rewrite (exec_for_block (S fuel) p b st cond i fin paso Hb Ht Hc Hh).
  apply for_loop_done. now apply for_continues_zero_step.
Qed.

(** [for_zero_step_terminates] on the FOR block of [FOR 1 TO 5 STEP 0]:
    the step text [0] parses as zero, and the block ends at once. *)
Lemma for_zero_step_witness :
  exists b,
    heap_get (heap (loaded zero_step_script)) 1%nat = Some b
    /\ b_type b = BLOCK_FOR
    /\ condition b = Some "1 TO 5 STEP 0"
    /\ parse_for_header "1 TO 5 STEP 0" = Some (atof "1", atof "5", atof "0")
    /\ @bcl_exec_block plain_libm no_library 2 (Some 1%nat) (loaded zero_step_script)
       = Some (BCL_OK, loaded zero_step_script).
Proof.
  eexists. split; [reflexivity |]. split; [reflexivity |]. split; [reflexivity |].
  split; [reflexivity |].
  eapply (for_zero_step_terminates plain_libm no_library 0 1%nat _ _
            "1 TO 5 STEP 0" (atof "1") (atof "5") (atof "0"));
    reflexivity.
Defined.

(** C4. A FOR header [start TO end] or [start TO end STEP step] is read
    with its operands converted by [atof], the step being 1 when none is
    written. Executing the block is exactly a run of the description
    [for_runs]: the loop turns while
    [(step > 0 && i <= end) || (step < 0 && i >= end)], binds [__FOR] to
    the text of the counter before each turn of the body, ends with
    [BCL_OK] on Break, goes to the next counter after Continue as after
    Ok, and returns any other signal at once; every such run is computed
    once the recursion bound covers its tests. The text of an integral
    counter has no decimal point. [FOR 1 TO 5 STEP 2] shows the body the
    counters 1, 3, 5 (three turns) and [FOR 5 TO 1 STEP -1] the counters
    5, 4, 3, 2, 1; operands written in hexadecimal, [FOR 1 TO 0x5 STEP 0x2],
    give 1, 3, 5 as well. *)
Theorem for_block_semantics (libm : Libm) (lib : Library) :
  (forall a e,
      header_word a = true -> header_word e = true ->
      parse_for_header (a ++ " TO " ++ e) = Some (atof a, atof e, d_one))
  /\ (forall a e s,
        header_word a = true -> header_word e = true -> header_word s = true ->
        parse_for_header (a ++ " TO " ++ e ++ " STEP " ++ s)
        = Some (atof a, atof e, atof s))
  /\ (forall n p b st cond i fin paso res st',
        heap_get (heap st) p = Some b -> b_type b = BLOCK_FOR ->
        condition b = Some cond -> parse_for_header cond = Some (i, fin, paso) ->
        bcl_exec_block (S n) (Some p) st = Some (res, st') ->
        exists k, (k <= n)%nat /\ for_runs (run n) b fin paso k i st res st')
  /\ (forall n p b st cond i fin paso res st' k,
        heap_get (heap st) p = Some b -> b_type b = BLOCK_FOR ->
        condition b = Some cond -> parse_for_header cond = Some (i, fin, paso) ->
        for_runs (run n) b fin paso k i st res st' -> (k <= n)%nat ->
        bcl_exec_block (S n) (Some p) st = Some (res, st'))
  /\ (forall i, d_eq i (d_floor i) = true -> has_point (format_number i) = false)
  /\ two_globals (run_script 10 for_up_script) "SEEN" "N"
     = Some (BCL_OK, Some "1,3,5,", Some "3")
  /\ two_globals (run_script 10 for_down_script) "SEEN" "N"
     = Some (BCL_OK, Some "5,4,3,2,1,", Some "5")
  /\ two_globals (run_script 10 for_hex_script) "SEEN" "N"
     = Some (BCL_OK, Some "1,3,5,", Some "3").
Proof.
  split; [exact for_header_text |].
  split; [exact for_header_text_step |].
  split.
  { intros n p b st cond i fin paso res st' Hb Ht Hc Hh E.
    rewrite (exec_for_block n p b st cond i fin paso Hb Ht Hc Hh) in E.
    now apply for_loop_sound. }
  split.
  { intros n p b st cond i fin paso res st' k Hb Ht Hc Hh Hrun Hk.
    rewrite (exec_for_block n p b st cond i fin paso Hb Ht Hc Hh).
    now apply (for_loop_complete _ _ _ _ k). }
  split; [exact format_number_integral |].
  split; [| split]; vm_compute; reflexivity.
Qed.

(** [for_block_semantics] on the FOR block of [for_up_script]: its header
    is read as 1, 5 and 2, and its execution is a run of the description
    that leaves [1,3,5,] in [SEEN]. *)
Lemma for_block_semantics_witness :
  exists b,
    heap_get (heap (loaded for_up_script)) 1%nat = Some b
    /\ b_type b = BLOCK_FOR
    /\ condition b = Some ("1" ++ " TO " ++ "5" ++ " STEP " ++ "2")
    /\ parse_for_header ("1" ++ " TO " ++ "5" ++ " STEP " ++ "2")
       = Some (atof "1", atof "5", atof "2")
    /\ exists st' k,
         (k <= 9)%nat
         /\ @for_runs plain_libm no_library (@run plain_libm no_library 9) b
              (atof "5") (atof "2") k (atof "1") (loaded for_up_script) BCL_OK st'
         /\ global_value st' "SEEN" = Some "1,3,5,".
Proof.
  pose proof (for_block_semantics plain_libm no_library) as (_ & Hh & Hs & _).
  eexists. split; [reflexivity |]. split; [reflexivity |]. split; [reflexivity |].
  assert (Eh : parse_for_header ("1" ++ " TO " ++ "5" ++ " STEP " ++ "2")
               = Some (atof "1", atof "5", atof "2"))
    by (apply (Hh "1" "5" "2"); reflexivity).
  split; [exact Eh |].
  assert (exists st',
             @bcl_exec_block plain_libm no_library 10 (Some 1%nat) (loaded for_up_script)
             = Some (BCL_OK, st')
             /\ global_value st' "SEEN" = Some "1,3,5,") as (st' & E & HS).
  { eexists. split; [vm_compute; reflexivity | reflexivity]. }
  exists st'.
  destruct (Hs 9%nat 1%nat _ (loaded for_up_script) _ _ _ _ BCL_OK st'
              eq_refl eq_refl eq_refl Eh E) as (k & Hk & Hrun).
  exists k. auto.
Defined.

(* ====================================================================== *)
(** ** WHILE against its description *)

Section WhileProperties.
Context {libm : Libm} {lib : Library}.
Variable H : handles.
Variable b : bcl_block_t.

(** A run of the description is what the loop computes, as soon as the
    bound covers its condition checks. *)
Lemma while_loop_complete k st res st' :
  while_runs H b k st res st' ->
  forall bound, (k <= bound)%nat -> while_loop H bound b st = Some (res, st').
Proof.
  induction 1 as [st st1 Hc | st st1 st2 Hc Hb | k st st1 st2 res st3 Hc Hb _ IH
                 | k st st1 st2 res st3 Hc Hb _ IH | st st1 res st2 Hc Hb Hr];
    intros [| bound] Hle; try lia;
    cbn [while_loop]; unfold bind; rewrite Hc; try rewrite Hb; try reflexivity.
  - apply IH. lia.
  - apply IH. lia.
  - now destruct Hr as [-> | [-> | ->]].
Qed.

(** Whatever the loop computes is a run of the description. *)
Lemma while_loop_sound bound : forall st res st',
  while_loop H bound b st = Some (res, st') ->
  exists k, (k <= bound)%nat /\ while_runs H b k st res st'.
Proof.
  induction bound as [| bound IH]; intros st res st' E; [discriminate |].
  cbn [while_loop] in E. unfold bind in E.
  destruct (eval_block_condition H (condition b) st) as [[c st1] |] eqn:Hc;
    [| discriminate].
  destruct c.
  - destruct (exec_block_items H b st1) as [[r st2] |] eqn:Hb; [| discriminate].
    destruct r.
    + destruct (IH _ _ _ E) as (k & Hk & Hrun).
      exists (S k). split; [lia |]. eapply while_body_completes; eauto.
    + injection E as <- <-. exists 1%nat. split; [lia |].
      eapply while_body_propagates; eauto.
    + injection E as <- <-. exists 1%nat. split; [lia |].
      eapply while_body_breaks; eauto.
    + destruct (IH _ _ _ E) as (k & Hk & Hrun).
      exists (S k). split; [lia |]. eapply while_body_continues; eauto.
    + injection E as <- <-. exists 1%nat. split; [lia |].
      eapply while_body_propagates; eauto.
    + injection E as <- <-. exists 1%nat. split; [lia |].
      eapply while_body_propagates; eauto.
  - injection E as <- <-. exists 1%nat. split; [lia |].
    now apply while_condition_false.
Qed.

End WhileProperties.

(** C2. Executing a WHILE block is exactly a run of the description
    [while_runs]: the body is re-executed while the condition evaluates
    true; a Break from the body stops the loop with [BCL_OK]; after a
    Continue (as after Ok) the condition is checked again; Error, Return
    and Exit are returned at once, unchanged, with the state the body
    left. Every such run is computed once the recursion bound covers its
    condition checks. And [SET I 0] followed by
    [WHILE $I < 1000000 ... INCR I ... IF $I == 3 THEN BREAK END] ends
    with [BCL_OK] and [I] equal to ["3"]. *)
Theorem while_block_semantics (libm : Libm) (lib : Library) :
  (forall n p b st res st',
      heap_get (heap st) p = Some b -> b_type b = BLOCK_WHILE ->
      bcl_exec_block (S n) (Some p) st = Some (res, st') ->
      exists k, (k <= n)%nat /\ while_runs (run n) b k st res st')
  /\ (forall n p b st res st' k,
        heap_get (heap st) p = Some b -> b_type b = BLOCK_WHILE ->
        while_runs (run n) b k st res st' -> (k <= n)%nat ->
        bcl_exec_block (S n) (Some p) st = Some (res, st'))
  /\ result_and_global (run_script 10 while_break_script) "I"
     = Some (BCL_OK, Some "3").
Proof.
  split; [| split].
  - intros n p b st res st' Hb Ht E.
    rewrite exec_block_unfold, (exec_block_while _ _ p b st Hb Ht) in E.
    now apply while_loop_sound.
  - intros n p b st res st' k Hb Ht Hrun Hk.
    rewrite exec_block_unfold, (exec_block_while _ _ p b st Hb Ht).
    now apply (while_loop_complete _ _ k).
  - vm_compute. reflexivity.
Qed.

(** [while_block_semantics] on the WHILE block of [while_break_script]:
    its execution is a run of the description ending with [I = 3]. *)
Lemma while_block_semantics_witness :
  exists b,
    heap_get (heap at_while) 1%nat = Some b
    /\ b_type b = BLOCK_WHILE
    /\ exists st' k,
         (k <= 9)%nat
         /\ @while_runs plain_libm no_library (@run plain_libm no_library 9) b k
              at_while BCL_OK st'
         /\ global_value st' "I" = Some "3".
Proof.
  eexists. split; [reflexivity |]. split; [reflexivity |].
  assert (exists st',
             @bcl_exec_block plain_libm no_library 10 (Some 1%nat) at_while
             = Some (BCL_OK, st')
             /\ global_value st' "I" = Some "3") as (st' & E & HI).
  { eexists. split; [vm_compute; reflexivity | reflexivity]. }
  exists st'.
  destruct (proj1 (while_block_semantics plain_libm no_library)
              9%nat 1%nat _ at_while BCL_OK st' eq_refl eq_refl E)
    as (k & Hk & Hrun).
  exists k. auto.
Defined.

(* ====================================================================== *)
(** ** Scope discipline: code only touches the current scope

    Whatever runs, the scopes below the current one are left as they
    were and the depth is the same afterwards. *)

Lemma same_frames_refl st : same_frames st st.
Proof. now split. Qed.

Lemma same_frames_trans st1 st2 st3 :
  same_frames st1 st2 -> same_frames st2 st3 -> same_frames st1 st3.
Proof. intros [L1 T1] [L2 T2]. split; congruence. Qed.

(** States with the same scope stack. *)
Lemma same_frames_stack st st' :
  scope_stack st' = scope_stack st -> same_frames st st'.
Proof. intro E. unfold same_frames. now rewrite E. Qed.

(** Replacing the current scope. *)
Lemma same_frames_top st sc sc' rest :
  scope_stack st = sc :: rest ->
  same_frames st (set_scope_stack st (sc' :: rest)).
Proof. intro E. unfold same_frames. cbn. now rewrite E. Qed.

Lemma bind_some {A B : Type} (m : M A) (f : A -> M B) st b st' :
  bind m f st = Some (b, st') ->
  exists a st1, m st = Some (a, st1) /\ f a st1 = Some (b, st').
Proof.
  unfold bind. destruct (m st) as [[a st1] |]; [| discriminate].
  intro E. now exists a, st1.
Qed.

Lemma keeps_ret {A : Type} (a : A) : keeps_frames (ret a).
Proof. intros st x st' E. injection E as _ <-. apply same_frames_refl. Qed.

Lemma keeps_bind {A B : Type} (m : M A) (f : A -> M B) :
  keeps_frames m -> (forall a, keeps_frames (f a)) -> keeps_frames (bind m f).
Proof.
  intros Hm Hf st b st' E. unfold bind in E.
  destruct (m st) as [[a st1] |] eqn:E1; [| discriminate].
  eapply same_frames_trans; [eapply Hm | eapply Hf]; eassumption.
Qed.

Lemma keeps_get : keeps_frames get_interp.
Proof. intros st a st' E. injection E as _ <-. apply same_frames_refl. Qed.

Lemma keeps_defined {A : Type} (o : option A) : keeps_frames (defined o).
Proof.
  intros st a st' E. unfold defined in E. destruct o; [| discriminate].
  injection E as _ <-. apply same_frames_refl.
Qed.

Lemma keeps_out_of_fuel {A : Type} : keeps_frames (@out_of_fuel A).
Proof. intros st a st' E. discriminate. Qed.

Lemma keeps_lift {A : Type} (f : bcl_interp_t -> A * bcl_interp_t) :
  (forall st, same_frames st (snd (f st))) -> keeps_frames (lift f).
Proof.
  intros Hf st a st' E. unfold lift in E. injection E as E.
  specialize (Hf st). rewrite E in Hf. exact Hf.
Qed.

Lemma keeps_modify (f : bcl_interp_t -> bcl_interp_t) :
  (forall st, same_frames st (f st)) -> keeps_frames (modify f).
Proof. intros Hf st a st' E. injection E as _ <-. apply Hf. Qed.

Lemma keeps_fail_with msg : keeps_frames (fail_with msg).
Proof. intros st a st' E. injection E as _ <-. now apply same_frames_stack. Qed.

Lemma keeps_fail_block msg : keeps_frames (fail_block msg).
Proof. intros st a st' E. injection E as _ <-. now apply same_frames_stack. Qed.

Lemma var_set_frames st name value :
  same_frames st (snd (bcl_var_set st name value)).
Proof.
  unfold bcl_var_set.
  destruct (is_global_var (get_current_scope st) name).
  - now apply same_frames_stack.
  - destruct (scope_stack st) as [| sc rest] eqn:E.
    + apply same_frames_refl.
    + now apply (same_frames_top st sc).
Qed.

Lemma var_unset_frames st name :
  same_frames st (snd (bcl_var_unset st name)).
Proof.
  unfold bcl_var_unset.
  destruct (scope_stack st) as [| sc rest] eqn:E.
  - now apply same_frames_stack.
  - destruct (bcl_hash_exists (vars sc) name).
    + now apply (same_frames_top st sc).
    + now apply same_frames_stack.
Qed.

Lemma bind_params_frames ps : forall args st,
  same_frames st (bind_params ps args st).
Proof.
  induction ps as [| p ps IH]; intros [| a args] st; cbn [bind_params];
    try apply same_frames_refl.
  eapply same_frames_trans; [apply var_set_frames | apply IH].
Qed.

Create HintDb frames.

#[local] Hint Resolve keeps_ret keeps_get keeps_out_of_fuel keeps_fail_with
  keeps_fail_block same_frames_refl var_set_frames var_unset_frames
  bind_params_frames : frames.

(** Break a monadic term into its parts. *)
Ltac frames_step :=
  match goal with
  | |- keeps_frames (bind _ _) => apply keeps_bind; [| intros ?]
  | |- keeps_frames (lift _) => apply keeps_lift; intros ?
  | |- keeps_frames (modify _) => apply keeps_modify; intros ?
  | |- keeps_frames (defined _) => apply keeps_defined
  | |- keeps_frames (match ?x with _ => _ end) => destruct x
  | |- keeps_frames (if ?c then _ else _) => destruct c
  | |- keeps_frames _ => solve [auto with frames]
  | |- same_frames _ _ => solve [auto with frames | now apply same_frames_stack]
  end.

Ltac frames := repeat frames_step.

Section CommandFrames.

Lemma cmd_set_frames argv : keeps_frames (bcl_cmd_set argv).
Proof. unfold bcl_cmd_set. frames. Qed.

Lemma cmd_unset_frames argv : keeps_frames (bcl_cmd_unset argv).
Proof. unfold bcl_cmd_unset. frames. Qed.

Lemma incr_var_frames varname increment : keeps_frames (incr_var varname increment).
Proof. unfold incr_var. frames. Qed.

Lemma cmd_incr_frames argv : keeps_frames (bcl_cmd_incr argv).
Proof. unfold bcl_cmd_incr. frames; apply incr_var_frames. Qed.

Lemma cmd_append_frames argv : keeps_frames (bcl_cmd_append argv).
Proof. unfold bcl_cmd_append. frames. Qed.

Lemma cmd_puts_frames argv : keeps_frames (bcl_cmd_puts argv).
Proof. unfold bcl_cmd_puts. frames. Qed.

Lemma cmd_putsn_frames argv : keeps_frames (bcl_cmd_putsn argv).
Proof. unfold bcl_cmd_putsn. frames. Qed.

Lemma cmd_exit_frames argv : keeps_frames (bcl_cmd_exit argv).
Proof. unfold bcl_cmd_exit. frames. Qed.

Lemma cmd_global_frames argv : keeps_frames (bcl_cmd_global argv).
Proof.
  intros st a st' E. unfold bcl_cmd_global in E.
  destruct argv as [| x argv].
  - injection E as _ <-. now apply same_frames_stack.
  - unfold bind, get_interp, modify, ret in E.
    destruct (scope_stack st) as [| sc rest] eqn:Es; injection E as _ <-.
    + apply same_frames_refl.
    + now apply (same_frames_top st sc).
Qed.

Lemma cmd_break_frames argv : keeps_frames (bcl_cmd_break argv).
Proof. unfold bcl_cmd_break. frames. Qed.

Lemma cmd_continue_frames argv : keeps_frames (bcl_cmd_continue argv).
Proof. unfold bcl_cmd_continue. frames. Qed.

Lemma cmd_return_frames argv : keeps_frames (bcl_cmd_return argv).
Proof. unfold bcl_cmd_return. frames. Qed.

End CommandFrames.

Section ExecFrames.
Context {libm : Libm} {lib : Library}.
Variable H : handles.
Variable bound : nat.
Hypothesis lib_ok : library_keeps_frames lib.
Hypothesis H_ok : handles_keep_frames H.

Lemma h_exec_block_frames b : keeps_frames (h_exec_block H b).
Proof. apply H_ok. Qed.

Lemma h_eval_frames code : keeps_frames (h_eval H code).
Proof. apply H_ok. Qed.

Lemma h_expand_frames str : keeps_frames (h_expand_subcommands H str).
Proof. apply H_ok. Qed.

Hint Resolve h_exec_block_frames h_eval_frames h_expand_frames : frames.

Lemma eval_subcommand_frames cmd : keeps_frames (bcl_eval_subcommand H cmd).
Proof. unfold bcl_eval_subcommand. frames. Qed.

Hint Resolve eval_subcommand_frames : frames.

Lemma expand_loop_frames k : forall str,
  keeps_frames (expand_subcommands_loop H k str).
Proof.
  induction k as [| k IH]; intro str; cbn [expand_subcommands_loop]; frames.
Qed.

Lemma expand_body_frames str : keeps_frames (expand_subcommands_body H str).
Proof. apply expand_loop_frames. Qed.

Hint Resolve expand_body_frames : frames.

Lemma parse_line_frames line : keeps_frames (bcl_parse_line H line).
Proof. unfold bcl_parse_line. frames. Qed.

Hint Resolve parse_line_frames : frames.

Lemma cmd_if_frames argv : keeps_frames (bcl_cmd_if H argv).
Proof. unfold bcl_cmd_if. frames. Qed.

Lemma run_command_frames (f : command_fn) argv :
  (forall st, same_frames st (snd (f argv st))) ->
  keeps_frames (run_command f argv).
Proof.
  intros Hf st a st' E. unfold run_command in E. injection E as E.
  specialize (Hf st). now rewrite E in Hf.
Qed.

(** A procedure call leaves the scope stack exactly as it found it. *)
Lemma proc_call_restores_stack name args st r st' :
  bcl_proc_call H name args st = Some (r, st') ->
  scope_stack st' = scope_stack st.
Proof.
  unfold bcl_proc_call. intro E.
  apply bind_some in E as (interp & s0 & E0 & E). injection E0 as <- <-.
  destruct (bcl_hash_get (procedures st) name) as [proc |].
  2:{ injection E as _ <-. reflexivity. }
  destruct (List.length args <? count_required (params proc))%nat.
  { injection E as _ <-. reflexivity. }
  apply bind_some in E as (pushed & s1 & Ep & E).
  unfold lift, bcl_scope_push in Ep.
  destruct (BCL_MAX_SCOPE_DEPTH <=? scope_depth st)%nat;
    injection Ep as <- <-.
  { injection E as _ <-. reflexivity. }
  apply bind_some in E as (u & s2 & Em & E). injection Em as _ <-.
  apply bind_some in E as (res & s3 & Eb & E).
  apply bind_some in E as (after & s4 & Eg & E). injection Eg as <- <-.
  assert (F : same_frames (set_scope_stack st (scope_create :: scope_stack st))
                s3).
  { eapply same_frames_trans; [apply bind_params_frames |].
    destruct (body_block proc) as [b |].
    - eapply h_exec_block_frames; eassumption.
    - injection Eb as _ <-. apply same_frames_refl. }
  destruct F as [FL FT]. cbn in FL, FT.
  destruct (scope_stack s3) as [| top rest] eqn:Es; [discriminate |].
  cbn in FT. subst rest.
  destruct res; unfold bind, modify, lift, ret, bcl_scope_pop in E; cbn in E;
    rewrite Es in E; injection E as _ <-; reflexivity.
Qed.

Lemma proc_call_frames name args : keeps_frames (bcl_proc_call H name args).
Proof.
  intros st r st' E. apply same_frames_stack.
  eapply proc_call_restores_stack; eassumption.
Qed.

Lemma dispatch_frames name argv : keeps_frames (bcl_dispatch_command H name argv).
Proof.
  unfold bcl_dispatch_command, bcl_cmd_while, bcl_cmd_for, bcl_cmd_foreach,
    bcl_cmd_switch.
  repeat match goal with
         | |- keeps_frames (if ?c then _ else _) => destruct c
         end;
    auto using cmd_set_frames, cmd_unset_frames, cmd_incr_frames,
      cmd_append_frames, cmd_global_frames, cmd_puts_frames, cmd_putsn_frames,
      cmd_if_frames, cmd_break_frames, cmd_continue_frames, cmd_return_frames,
      cmd_exit_frames with frames.
  - intros st [r v] st' E. destruct argv as [| a rest].
    + injection E as _ _ <-. now apply same_frames_stack.
    + destruct (expr_answers_ok st (a :: rest) r v st' ltac:(discriminate) E)
        as (_ & -> & _).
      apply same_frames_refl.
  - apply run_command_frames. intro st. apply (proj1 lib_ok).
  - apply keeps_bind; [apply keeps_get | intro interp].
    destruct (bcl_proc_exists interp name); [apply proc_call_frames |].
    destruct (extension_command name) as [f |] eqn:Ef; [| apply keeps_fail_with].
    apply run_command_frames. intro st. destruct lib_ok as [_ Hext].
    now apply (Hext name).
Qed.

Hint Resolve dispatch_frames : frames.

Lemma eval_lines_frames lines : forall last,
  keeps_frames (eval_lines H lines last).
Proof.
  induction lines as [| line rest IH]; intro last; cbn [eval_lines]; frames.
Qed.

Lemma eval_body_frames code : keeps_frames (eval_body H code).
Proof. apply eval_lines_frames. Qed.

Lemma eval_block_condition_frames c : keeps_frames (eval_block_condition H c).
Proof. unfold eval_block_condition. frames. Qed.

Hint Resolve eval_block_condition_frames : frames.

Lemma exec_items_frames its : keeps_frames (exec_items H its).
Proof.
  induction its as [| it rest IH]; cbn [exec_items]; frames.
Qed.

Lemma exec_block_items_frames b : keeps_frames (exec_block_items H b).
Proof. apply exec_items_frames. Qed.

Hint Resolve exec_block_items_frames : frames.

Lemma while_loop_frames k b : keeps_frames (while_loop H k b).
Proof. induction k as [| k IH]; cbn [while_loop]; frames. Qed.

Lemma for_loop_frames k : forall i fin paso b,
  keeps_frames (for_loop H k i fin paso b).
Proof.
  induction k as [| k IH]; intros i fin paso b; cbn [for_loop]; frames.
Qed.

Lemma foreach_loop_frames var elements b :
  keeps_frames (foreach_loop H var elements b).
Proof.
  induction elements as [| item rest IH]; cbn [foreach_loop]; frames.
Qed.

Lemma switch_scan_frames v cases : keeps_frames (switch_scan H v cases).
Proof.
  induction cases as [| c rest IH]; cbn [switch_scan]; frames.
Qed.

Lemma exec_proc_frames p b : keeps_frames (exec_proc p b).
Proof.
  unfold exec_proc. destruct (proc_name b); [| apply keeps_fail_block].
  apply keeps_bind; [apply keeps_get | intro interp].
  destruct (block_create (heap interp) BLOCK_NONE) as [body h1].
  frames.
Qed.

Lemma exec_block_body_frames block : keeps_frames (exec_block_body H bound block).
Proof.
  unfold exec_block_body, exec_for, exec_foreach, exec_switch.
  frames;
    auto using while_loop_frames, for_loop_frames, foreach_loop_frames,
      switch_scan_frames, exec_proc_frames.
Qed.

End ExecFrames.

(** The scope discipline holds at every recursion bound. *)
Lemma run_keeps_frames {libm : Libm} {lib : Library} :
  library_keeps_frames lib -> forall n, handles_keep_frames (run n).
Proof.
  intros Hlib n. induction n as [| n IH].
  - split; [| split]; intros ? st a st' E; discriminate.
  - cbn [run]. split; [| split]; cbn.
    + intro b. now apply exec_block_body_frames.
    + intro code. now apply eval_body_frames.
    + intro str. now apply expand_body_frames.
Qed.

Lemma no_library_keeps_frames : library_keeps_frames no_library.
Proof.
  split.
  - intros name argv st. now apply same_frames_stack.
  - intros name f argv st E. discriminate.
Qed.

(* ====================================================================== *)
(** ** Procedure calls *)

Section CallProperties.
Context {libm : Libm} {lib : Library}.
Variable H : handles.

(** The steps of [bcl_proc_call] up to the body. *)
Lemma proc_call_enters name args st proc :
  bcl_hash_get (procedures st) name = Some proc ->
  (count_required (params proc) <= List.length args)%nat ->
  (scope_depth st < BCL_MAX_SCOPE_DEPTH)%nat ->
  bcl_proc_call H name args st
  = bind (match body_block proc with
          | Some b => h_exec_block H (Some b)
          | None => ret BCL_OK
          end)
      (fun res =>
         bind get_interp (fun after =>
           match res with
           | BCL_RETURN =>
               bind (modify (fun s => set_return_value s None)) (fun _ =>
                 bind (lift bcl_scope_pop) (fun _ =>
                   ret (BCL_OK, Some (value_text (return_value after)))))
           | _ => bind (lift bcl_scope_pop) (fun _ => ret (res, Some EmptyString))
           end))
      (enter_proc st proc args).
Proof.
  intros Hp Hargs Hdepth. unfold bcl_proc_call.
  unfold bind at 1. unfold get_interp at 1. rewrite Hp.
  destruct (List.length args <? count_required (params proc))%nat eqn:Ea.
  { apply Nat.ltb_lt in Ea. lia. }
  unfold bind at 1. unfold lift at 1, bcl_scope_push.
  destruct (BCL_MAX_SCOPE_DEPTH <=? scope_depth st)%nat eqn:Ed.
  { apply Nat.leb_le in Ed. lia. }
  reflexivity.
Qed.

Lemma proc_call_few_args name args st proc :
  bcl_hash_get (procedures st) name = Some proc ->
  (List.length args < count_required (params proc))%nat ->
  bcl_proc_call H name args st
  = Some ((BCL_ERROR, None),
          bcl_set_error st ("wrong # args: should be " ++ quoted (name ++ " param ..."))).
Proof.
  intros Hp Hargs. unfold bcl_proc_call, bind, get_interp. rewrite Hp.
  apply Nat.ltb_lt in Hargs. now rewrite Hargs.
Qed.

Lemma proc_call_too_deep name args st proc :
  bcl_hash_get (procedures st) name = Some proc ->
  (count_required (params proc) <= List.length args)%nat ->
  (BCL_MAX_SCOPE_DEPTH <= scope_depth st)%nat ->
  bcl_proc_call H name args st
  = Some ((BCL_ERROR, None), bcl_set_error st "Maximum scope depth exceeded").
Proof.
  intros Hp Hargs Hdepth. unfold bcl_proc_call, bind, get_interp. rewrite Hp.
  destruct (List.length args <? count_required (params proc))%nat eqn:Ea.
  { apply Nat.ltb_lt in Ea. lia. }
  unfold lift, bcl_scope_push. apply Nat.leb_le in Hdepth. now rewrite Hdepth.
Qed.

End CallProperties.

(** C1. When the body of a called procedure yields the Return signal,
    the call returns [BCL_OK] and its result is the value carried in
    [return_value] (which RETURN sets to its arguments), and the scope
    stack after the call is the one before it: the scope of the call,
    with every local variable set in the body, is gone. Calling
    [double] with ["21"] gives ["42"], and neither the parameter [x] nor
    a local [tmp] can be read afterwards. *)
Theorem proc_call_return (libm : Libm) (lib : Library) :
  (forall n name args st proc b st2,
      library_keeps_frames lib ->
      bcl_hash_get (procedures st) name = Some proc ->
      (count_required (params proc) <= List.length args)%nat ->
      (scope_depth st < BCL_MAX_SCOPE_DEPTH)%nat ->
      body_block proc = Some b ->
      bcl_exec_block n (Some b) (enter_proc st proc args) = Some (BCL_RETURN, st2) ->
      exists st3,
        bcl_proc_call (run n) name args st
        = Some ((BCL_OK, Some (value_text (return_value st2))), st3)
        /\ scope_stack st3 = scope_stack st
        /\ global_vars st3 = global_vars st2
        /\ return_value st3 = None)
  /\ (forall argv st,
        bcl_cmd_return argv st
        = Some ((BCL_RETURN, Some (join " " argv)),
                set_return_value st (Some (join " " argv))))
  /\ call_outcome (run_script 10 double_script) "R" ["x"]
     = Some (BCL_OK, Some "42", [], [None])
  /\ call_outcome (run_script 10 local_script) "R" ["x"; "tmp"]
     = Some (BCL_OK, Some "42", [], [None; None]).
Proof.
  split; [| split; [| split]].
  - intros n name args st proc b st2 Hlib Hp Hargs Hdepth Hb Hbody.
    set (st3 := snd (bcl_scope_pop (set_return_value st2 None))).
    assert (Ecall : bcl_proc_call (run n) name args st
                    = Some ((BCL_OK, Some (value_text (return_value st2))), st3)).
    { rewrite (proc_call_enters (run n) name args st proc Hp Hargs Hdepth).
      rewrite Hb. unfold bind at 1.
      change (h_exec_block (run n) (Some b)) with (bcl_exec_block n (Some b)).
      rewrite Hbody. unfold bind, get_interp, modify, lift, ret. subst st3.
      now destruct (bcl_scope_pop (set_return_value st2 None)). }
    exists st3. split; [exact Ecall |].
    split.
    { eapply (proc_call_restores_stack (run n) (run_keeps_frames Hlib n)).
      exact Ecall. }
    subst st3. unfold bcl_scope_pop. cbn.
    now destruct (scope_stack st2).
  - intros argv st. unfold bcl_cmd_return, bind, modify, ret.
    now destruct argv.
  - vm_compute. reflexivity.
  - vm_compute. reflexivity.
Qed.

(** [proc_call_return] on the call of [double] with ["21"]. *)
Lemma proc_call_return_witness :
  exists st3,
    bcl_proc_call (@run plain_libm no_library 5) "double" ["21"] double_defined
    = Some ((BCL_OK, Some "42"), st3)
    /\ scope_stack st3 = scope_stack double_defined.
Proof.
  edestruct (proj1 (proc_call_return plain_libm no_library)
               5%nat "double" ["21"] double_defined)
    as (st3 & E & Hs & _).
  - exact no_library_keeps_frames.
  - reflexivity.
  - cbn. lia.
  - cbn. unfold BCL_MAX_SCOPE_DEPTH. lia.
  - reflexivity.
  - vm_compute. reflexivity.
  - exists st3. split; [exact E | exact Hs].
Defined.

(** C5. A call with fewer arguments than the procedure has required
    parameters yields [BCL_ERROR] with the message [wrong # args], and
    nothing but the message changes: no scope is pushed (the stack and
    its depth are as before), and the global and local variables are
    untouched; the body is not run whatever it is. Calling [need], which
    requires two arguments, with one stops the script with that error,
    depth 0 and only the global set before the call. *)
Theorem proc_call_missing_args (libm : Libm) (lib : Library) :
  (forall H name args st proc,
      bcl_hash_get (procedures st) name = Some proc ->
      (List.length args < count_required (params proc))%nat ->
      exists st',
        bcl_proc_call H name args st = Some ((BCL_ERROR, None), st')
        /\ error_msg st'
           = "wrong # args: should be " ++ quoted (name ++ " param ...")
        /\ scope_stack st' = scope_stack st
        /\ scope_depth st' = scope_depth st
        /\ global_vars st' = global_vars st
        /\ (forall x, bcl_var_get st' x = bcl_var_get st x))
  /\ error_outcome (run_script 10 need_script)
     = Some (BCL_ERROR,
             "wrong # args: should be " ++ quoted "need param ...",
             [], [("BEFORE", "1")]).
Proof.
  split.
  - intros H name args st proc Hp Hargs.
    eexists. split; [now apply (proc_call_few_args H name args st proc) |].
    repeat split.
  - vm_compute. reflexivity.
Qed.

(** [proc_call_missing_args] on [need 1], whatever would run the body. *)
Lemma proc_call_missing_args_witness :
  exists st',
    bcl_proc_call (@run plain_libm no_library 0) "need" ["1"] need_defined
    = Some ((BCL_ERROR, None), st')
    /\ scope_stack st' = scope_stack need_defined.
Proof.
  edestruct (proj1 (proc_call_missing_args plain_libm no_library)
               (@run plain_libm no_library 0) "need" ["1"] need_defined)
    as (st' & E & _ & Hs & _).
  - reflexivity.
  - cbn. lia.
  - exists st'. split; [exact E | exact Hs].
Defined.

(* ---------------------------------------------------------------------- *)
(** *** Depth limits *)

(** The depth that is limited is the scope depth of procedure calls: a
    call made with [BCL_MAX_SCOPE_DEPTH] scopes open yields [BCL_ERROR]
    with the message [Maximum scope depth exceeded], pushes no scope and
    runs no body. *)
Lemma scope_depth_limit {libm : Libm} {lib : Library} H name args st proc :
  bcl_hash_get (procedures st) name = Some proc ->
  (count_required (params proc) <= List.length args)%nat ->
  (BCL_MAX_SCOPE_DEPTH <= scope_depth st)%nat ->
  exists st',
    bcl_proc_call H name args st = Some ((BCL_ERROR, None), st')
    /\ error_msg st' = "Maximum scope depth exceeded"
    /\ scope_stack st' = scope_stack st
    /\ global_vars st' = global_vars st.
Proof.
  intros Hp Hargs Hdepth.
  eexists. split; [now apply (proc_call_too_deep H name args st proc) |].
  repeat split.
Qed.

(** C9 on the code. The header gives two limits, [BCL_MAX_RECURSION]
    (1000) and [BCL_MAX_SCOPE_DEPTH] (256); only the second is ever
    tested, by [bcl_scope_push]. So a procedure that calls itself without
    end stops with [BCL_ERROR] and [Maximum scope depth exceeded], the
    interpreter back at depth 0; but the recursion of block-tree
    execution is not limited: an IF with 1000 false ELSEIF alternatives
    makes [bcl_exec_block] recurse once per alternative, deeper than
    [BCL_MAX_RECURSION] (a recursion bound of 1000 does not reach the
    end), and the run ends with [BCL_OK] after executing the ELSE branch:
    no error is raised. *)
Theorem block_recursion_unlimited :
  BCL_MAX_SCOPE_DEPTH = 256%nat
  /\ error_outcome (@run_script plain_libm no_library 300 runaway_script)
     = Some (BCL_ERROR, "Maximum scope depth exceeded", [], [])
  /\ BCL_MAX_RECURSION = 1000%nat
  /\ @run_script plain_libm no_library BCL_MAX_RECURSION (elseif_chain 1000) = None
  /\ result_and_global (@run_script plain_libm no_library 1010 (elseif_chain 1000)) "X"
     = Some (BCL_OK, Some "1").
Proof.
  split; [reflexivity |]. split; [vm_compute; reflexivity |].
  split; [reflexivity |]. split; vm_compute; reflexivity.
Qed.

(* ====================================================================== *)
(** ** SWITCH *)

(** C3 on the code. The parser strips the quotes around a CASE label and
    keeps those around the SWITCH expression, and the executor compares
    the two texts after variable substitution only; so [SWITCH "b"] over
    [CASE "a"], [CASE "b"], [DEFAULT] matches no label and executes the
    DEFAULT branch alone, while the same blocks under [SWITCH $V] with
    [V] set to [b] execute the [b] branch alone. The scan also runs a
    DEFAULT as soon as it meets one: placed before a matching CASE, the
    DEFAULT branch is the one executed. *)
Theorem switch_quoted_expression_runs_default (libm : Libm) (lib : Library) :
  extract_condition ("SWITCH " ++ quoted "b" ++ " DO") "SWITCH" = Some (quoted "b")
  /\ extract_condition ("CASE " ++ quoted "b") "CASE" = Some "b"
  /\ result_and_global (run_script 10 switch_quoted_script) "T"
     = Some (BCL_OK, Some "d")
  /\ result_and_global (run_script 10 switch_variable_script) "T"
     = Some (BCL_OK, Some "b")
  /\ result_and_global (run_script 10 switch_default_first_script) "T"
     = Some (BCL_OK, Some "d").
Proof.
  split; [reflexivity |]. split; [reflexivity |].
  split; [| split]; vm_compute; reflexivity.
Qed.

(* ====================================================================== *)
(** ** Tables and variables *)

Lemma strcasecmp_refl (s : string) : bcl_strcasecmp s s = 0.
Proof.
  induction s as [| c s IH]; cbn [bcl_strcasecmp]; [reflexivity |].
  now rewrite Z.eqb_refl.
Qed.

Lemma strcase_eq_refl (s : string) : strcase_eq s s = true.
Proof. unfold strcase_eq. now rewrite strcasecmp_refl. Qed.

Section HashProperties.
Context {V : Type}.
Implicit Types (t : bcl_hash_table_t V) (k : string) (v : V).

Lemma hash_update_get t : forall k v t',
  bcl_hash_update t k v = Some t' -> bcl_hash_get t' k = Some v.
Proof.
  induction t as [| [k0 v0] rest IH]; intros k v t' E; cbn in E; [discriminate |].
  destruct (strcase_eq k0 k) eqn:Ek.
  - injection E as <-. cbn. now rewrite Ek.
  - destruct (bcl_hash_update rest k v) as [rest' |] eqn:Er; [| discriminate].
    injection E as <-. cbn. rewrite Ek. now apply IH.
Qed.

(** A variable reads back what was last stored under its name. *)
Lemma hash_get_set_same t k v : bcl_hash_get (bcl_hash_set t k v) k = Some v.
Proof.
  unfold bcl_hash_set.
  destruct (bcl_hash_update t k v) as [t' |] eqn:E.
  - now apply (hash_update_get t).
  - cbn. now rewrite strcase_eq_refl.
Qed.

Lemma hash_update_keeps t : forall k v t' k',
  bcl_hash_update t k v = Some t' ->
  bcl_hash_exists t k' = true -> bcl_hash_exists t' k' = true.
Proof.
  unfold bcl_hash_exists.
  induction t as [| [k0 v0] rest IH]; intros k v t' k' E X; cbn in E; [discriminate |].
  destruct (strcase_eq k0 k) eqn:Ek.
  - injection E as <-. cbn in *. now destruct (strcase_eq k0 k').
  - destruct (bcl_hash_update rest k v) as [rest' |] eqn:Er; [| discriminate].
    injection E as <-. cbn in *. destruct (strcase_eq k0 k'); [reflexivity |].
    now apply (IH k v).
Qed.

(** Storing under one name removes no other name. *)
Lemma hash_set_keeps t k v k' :
  bcl_hash_exists t k' = true -> bcl_hash_exists (bcl_hash_set t k v) k' = true.
Proof.
  intro X. unfold bcl_hash_set.
  destruct (bcl_hash_update t k v) as [t' |] eqn:E.
  - now apply (hash_update_keeps t k v).
  - unfold bcl_hash_exists in *. cbn. now destruct (strcase_eq k k').
Qed.

Lemma hash_exists_set_same t k v : bcl_hash_exists (bcl_hash_set t k v) k = true.
Proof. unfold bcl_hash_exists. now rewrite hash_get_set_same. Qed.

End HashProperties.

Lemma mark_global_keeps argv : forall refs name,
  bcl_hash_exists refs name = true ->
  bcl_hash_exists (mark_global refs argv) name = true.
Proof.
  induction argv as [| x rest IH]; intros refs name X; cbn [mark_global];
    [exact X |].
  apply IH. now apply hash_set_keeps.
Qed.

(** GLOBAL registers each of its arguments in [global_refs]. *)
Lemma mark_global_registers argv : forall refs name,
  In name argv -> bcl_hash_exists (mark_global refs argv) name = true.
Proof.
  induction argv as [| x rest IH]; intros refs name Hin; [contradiction |].
  cbn [mark_global]. destruct Hin as [-> | Hin].
  - apply mark_global_keeps. apply hash_exists_set_same.
  - now apply IH.
Qed.

Section VariableProperties.
Implicit Types (st : bcl_interp_t) (sc : bcl_scope_t).

Lemma cmd_global_in_scope argv st sc rest :
  argv <> [] -> scope_stack st = sc :: rest ->
  bcl_cmd_global argv st
  = Some ((BCL_OK, Some EmptyString),
          set_scope_stack st
            (set_scope_global_refs sc (mark_global (global_refs sc) argv) :: rest)).
Proof.
  intros Hne Hs. unfold bcl_cmd_global.
  destruct argv as [| x argv]; [congruence |].
  unfold bind, get_interp, modify, ret. now rewrite Hs.
Qed.

Lemma var_set_registered st sc rest name value :
  scope_stack st = sc :: rest ->
  bcl_hash_exists (global_refs sc) name = true ->
  bcl_var_set st name value
  = (BCL_OK, set_global_vars st (bcl_hash_set (global_vars st) name value)).
Proof.
  intros Hs Hreg. unfold bcl_var_set, get_current_scope. rewrite Hs.
  cbn [is_global_var]. now rewrite Hreg.
Qed.

Lemma var_set_local st sc rest name value :
  scope_stack st = sc :: rest ->
  is_global_var (Some sc) name = false ->
  bcl_var_set st name value
  = (BCL_OK, set_scope_stack st
               (set_scope_vars sc (bcl_hash_set (vars sc) name value) :: rest)).
Proof.
  intros Hs Hloc. unfold bcl_var_set, get_current_scope. rewrite Hs.
  now rewrite Hloc.
Qed.

Lemma var_get_in_scope st sc rest name :
  scope_stack st = sc :: rest ->
  bcl_var_get st name
  = match bcl_hash_get (vars sc) name with
    | Some val => Some val
    | None => global_value st name
    end.
Proof.
  intro Hs. unfold bcl_var_get, get_current_scope. now rewrite Hs.
Qed.

End VariableProperties.

(** GLOBAL always answers, and whatever its arguments it leaves the
    table of array prefixes of every scope as it was. *)
Lemma cmd_global_keeps_prefixes (argv : list string) (st : bcl_interp_t) :
  exists r st',
    bcl_cmd_global argv st = Some (r, st')
    /\ map global_prefixes (scope_stack st') = map global_prefixes (scope_stack st).
Proof.
  unfold bcl_cmd_global. destruct argv as [| x argv].
  - eexists _, _. split; reflexivity.
  - unfold bind, get_interp, modify, ret.
    destruct (scope_stack st) as [| sc rest] eqn:Hs.
    + eexists _, _. split; [reflexivity | now rewrite Hs].
    + eexists _, _. split; [reflexivity |]. reflexivity.
Qed.

(** What does work: inside a scope, GLOBAL on a name followed by a set of
    that name writes the global namespace, and the value is there once
    the scope is popped. A name that is not registered is written
    locally, leaving the globals alone. *)
Lemma global_set_reaches_globals st sc rest name value :
  scope_stack st = sc :: rest ->
  exists st1 st2 st3,
    bcl_cmd_global [name] st = Some ((BCL_OK, Some EmptyString), st1)
    /\ bcl_var_set st1 name value = (BCL_OK, st2)
    /\ bcl_scope_pop st2 = (BCL_OK, st3)
    /\ scope_stack st3 = rest
    /\ global_value st3 name = Some value.
Proof.
  intro Hs.
  pose proof (cmd_global_in_scope [name] st sc rest ltac:(discriminate) Hs) as Eg.
  set (st1 := set_scope_stack st
                (set_scope_global_refs sc (mark_global (global_refs sc) [name])
                 :: rest)) in *.
  assert (Hreg : bcl_hash_exists
                   (global_refs (set_scope_global_refs sc
                                   (mark_global (global_refs sc) [name])))
                   name = true).
  { cbn [global_refs set_scope_global_refs].
    apply mark_global_registers. now left. }
  pose proof (var_set_registered st1 _ rest name value eq_refl Hreg) as Es.
  eexists st1, _, _. split; [exact Eg |]. split; [exact Es |].
  unfold bcl_scope_pop. cbn. split; [reflexivity |]. split; [reflexivity |].
  unfold global_value. cbn. apply hash_get_set_same.
Qed.

(** C6 on the code. Setting honours the registration made by GLOBAL;
    getting does not, and array prefixes are never registered.
    In [shadow_state] the name [x] is registered and [is_global_var]
    says so; a set of [x] writes the global namespace, yet a get of [x]
    answers the local value, before the set and after it. So a procedure
    whose parameter is named in GLOBAL reads the argument, not the global
    variable. GLOBAL, whatever its arguments, leaves [global_prefixes]
    as it was: after [GLOBAL arr] an element [arr(1)] set in the
    procedure is a local variable and the global element keeps its old
    value. A scalar marked GLOBAL and incremented in a procedure does
    have the new value in the global scope after the call. *)
Theorem global_read_is_local_first :
  is_global_var (get_current_scope shadow_state) "x" = true
  /\ global_value shadow_state "x" = Some "outer"
  /\ bcl_var_get shadow_state "x" = Some "inner"
  /\ global_value (snd (bcl_var_set shadow_state "x" "new")) "x" = Some "new"
  /\ bcl_var_get (snd (bcl_var_set shadow_state "x" "new")) "x" = Some "inner"
  /\ two_globals (@run_script plain_libm no_library 10 global_shadow_script)
       "SEEN" "x"
     = Some (BCL_OK, Some "inner", Some "outer")
  /\ (forall argv st,
        exists r st',
          bcl_cmd_global argv st = Some (r, st')
          /\ map global_prefixes (scope_stack st')
             = map global_prefixes (scope_stack st))
  /\ result_and_global (@run_script plain_libm no_library 10 global_array_script)
       "arr(1)"
     = Some (BCL_OK, Some "old")
  /\ two_globals (@run_script plain_libm no_library 10 global_script) "G" "LOCAL"
     = Some (BCL_OK, Some "2", None).
Proof.
  split; [reflexivity |]. split; [reflexivity |]. split; [reflexivity |].
  split; [reflexivity |]. split; [reflexivity |].
  split; [vm_compute; reflexivity |].
  split; [exact cmd_global_keeps_prefixes |].
  split; vm_compute; reflexivity.
Qed.

(* ====================================================================== *)
(** ** The block parser: the stack of open blocks *)

Section ParserProperties.
Implicit Types (h : block_heap) (st : parser_state) (p q root : block_ptr).

Lemma heap_update_length h : forall p f,
  List.length (heap_update h p f) = List.length h.
Proof.
  induction h as [| b r IH]; intros [| p] f; cbn; auto.
Qed.

Lemma heap_get_update h : forall p q f,
  heap_get (heap_update h p f) q
  = if Nat.eqb q p then option_map f (heap_get h q) else heap_get h q.
Proof.
  unfold heap_get.
  induction h as [| b r IH]; intros [| p] [| q] f; cbn; try reflexivity.
  - now destruct (Nat.eqb q p).
  - apply IH.
Qed.

(** Updates that keep the type of a block keep every type. *)
Lemma type_of_update h p q f :
  (forall b, b_type (f b) = b_type b) ->
  type_of (heap_update h p f) q = type_of h q.
Proof.
  intro Hf. unfold type_of. rewrite heap_get_update.
  destruct (Nat.eqb q p); [| reflexivity].
  destruct (heap_get h q); cbn; [apply Hf | reflexivity].
Qed.

Lemma type_of_create h t q :
  (q < List.length h)%nat -> type_of (snd (block_create h t)) q = type_of h q.
Proof.
  intro Hq. unfold type_of, heap_get, block_create. cbn [snd].
  now rewrite nth_error_app1.
Qed.

Lemma type_of_add_line h p line q :
  type_of (block_add_line h p line) q = type_of h q.
Proof. apply type_of_update. reflexivity. Qed.

Lemma type_of_add_item h p c q :
  type_of (block_add_block_item h p c) q = type_of h q.
Proof.
  destruct c; [| reflexivity]. apply type_of_update. reflexivity.
Qed.

Lemma type_of_add_child h p c q :
  type_of (block_add_child h p c) q = type_of h q.
Proof. apply type_of_update. reflexivity. Qed.

Lemma rooted_init h : rooted (List.length h) (parser_init h).
Proof.
  unfold parser_init, block_create. cbn. split; [now exists [] |].
  split.
  - cbn [p_heap]. rewrite length_app. cbn. lia.
  - cbn [p_heap]. unfold type_of, heap_get. rewrite nth_error_app2 by lia.
    now rewrite Nat.sub_diag.
Qed.

(** Below an open block the stack still ends with the root. *)
Lemma tail_keeps_root root (stk : list block_ptr) :
  (exists above, stk = (above ++ [root])%list) ->
  has_open_block stk = true ->
  exists above, tl stk = (above ++ [root])%list.
Proof.
  intros [above ->] Hopen.
  destruct above as [| a above]; [discriminate |].
  now exists above.
Qed.

Lemma stack_push_some h b (stk : list block_ptr) st' :
  stack_push h b stk = Some st' ->
  st' = {| p_heap := h; stack := b :: stk |} /\ (List.length stk < 256)%nat.
Proof.
  unfold stack_push. destruct (List.length stk <? 256)%nat eqn:L; [| discriminate].
  intros [= <-]. apply Nat.ltb_lt in L. auto.
Qed.

Lemma stack_push_room h b (stk : list block_ptr) :
  (List.length stk < 256)%nat ->
  stack_push h b stk = Some {| p_heap := h; stack := b :: stk |}.
Proof.
  intro L. unfold stack_push. apply Nat.ltb_lt in L. now rewrite L.
Qed.

Lemma rooted_open_as_item root st t cond name prm n st' :
  rooted root st -> open_as_item st t cond name prm n = Some st' ->
  rooted root st'.
Proof.
  intros ([above Hs] & Hlen & Ht). unfold open_as_item.
  destruct (block_create (p_heap st) t) as [b h1] eqn:Ec.
  assert (h1 = snd (block_create (p_heap st) t)) as Eh1 by now rewrite Ec.
  assert (List.length h1 = S (List.length (p_heap st))) as El.
  { subst h1. unfold block_create. cbn. rewrite length_app. cbn. lia. }
  intro E. apply stack_push_some in E as [-> _].
  unfold rooted. cbn [stack p_heap]. split; [exists (b :: above); now rewrite Hs |].
  split.
  - unfold block_add_block_item. rewrite !heap_update_length. lia.
  - rewrite type_of_add_item, type_of_update by reflexivity.
    subst h1. now rewrite type_of_create.
Qed.

Lemma rooted_open_as_child root h below owner t cond n st' :
  (exists above, below = (above ++ [root])%list) ->
  (root < List.length h)%nat -> type_of h root = BLOCK_NONE ->
  open_as_child h below owner t cond n = Some st' ->
  rooted root st'.
Proof.
  intros [above ->] Hlen Ht. unfold open_as_child.
  destruct (block_create h t) as [b h1] eqn:Ec.
  assert (h1 = snd (block_create h t)) as Eh1 by now rewrite Ec.
  assert (List.length h1 = S (List.length h)) as El.
  { subst h1. unfold block_create. cbn. rewrite length_app. cbn. lia. }
  intro E. apply stack_push_some in E as [-> _].
  unfold rooted. cbn [stack p_heap]. split; [now exists (b :: above) |].
  split.
  - unfold block_add_child. rewrite !heap_update_length. lia.
  - rewrite type_of_add_child, type_of_update by reflexivity.
    subst h1. now rewrite type_of_create.
Qed.

Lemma rooted_add_line root st line :
  rooted root st -> rooted root (add_line_to_current st line).
Proof.
  intros (Hs & Hlen & Ht). unfold add_line_to_current, rooted.
  cbn [stack p_heap]. split; [exact Hs |]. split.
  - unfold block_add_line. now rewrite heap_update_length.
  - now rewrite type_of_add_line.
Qed.

Lemma rooted_parse_end root st : rooted root st -> rooted root (parse_end st).
Proof.
  intros (Hs & Hlen & Ht). unfold parse_end.
  destruct (has_open_block (stack st)) eqn:Ho; [| now repeat split].
  pose proof (tail_keeps_root root (stack st) Hs Ho) as Hs1.
  destruct (has_open_block (tl (stack st))) eqn:Ho1; cbn [andb].
  - destruct (is_case_or_default (type_of (p_heap st) (stack_peek (stack st)))).
    + destruct (block_type_eqb _ BLOCK_SWITCH); unfold rooted; cbn [stack p_heap].
      * split; [| now split]. now apply tail_keeps_root.
      * now split.
    + unfold rooted; cbn [stack p_heap]. now split.
  - unfold rooted; cbn [stack p_heap]. now split.
Qed.

(** One line keeps the invariant, whatever the line. *)
Lemma rooted_parse_one_line root st i line st' :
  rooted root st -> parse_one_line st i line = Some st' -> rooted root st'.
Proof.
  intro R. pose proof R as (Hs & Hlen & Ht). unfold parse_one_line.
  destruct (skip_while isspace line) as [| c rest]; [now intros [= <-] |].
  destruct (Ascii.eqb c "#"); [now intros [= <-] |].
  destruct (get_first_token (String c rest)) as [first_token |];
    [| intros [= <-]; now apply rooted_add_line].
  repeat match goal with
         | |- (if has_open_block ?s then _ else _) = _ -> _ =>
             let Ho := fresh "Ho" in destruct (has_open_block s) eqn:Ho
         | |- (if ?b then _ else _) = _ -> _ => destruct b
         | |- (let (_, _) := ?x in _) = _ -> _ => destruct x
         end;
    try (intros [= <-];
         auto using rooted_add_line, rooted_parse_end);
    try (now apply rooted_open_as_item).
  - apply rooted_open_as_child; auto. now apply tail_keeps_root.
  - apply rooted_open_as_child; auto. now apply tail_keeps_root.
  - apply rooted_open_as_child; auto.
    destruct (is_case_or_default _); [now apply tail_keeps_root | exact Hs].
  - apply rooted_open_as_child; auto.
    destruct (block_type_eqb _ _); [now apply tail_keeps_root | exact Hs].
Qed.

Lemma rooted_parse_lines root lines : forall st i st',
  rooted root st -> parse_lines st i lines = Some st' -> rooted root st'.
Proof.
  induction lines as [| line rest IH]; intros st i st' R; cbn [parse_lines].
  - now intros [= <-].
  - destruct (parse_one_line st i line) as [st1 |] eqn:E1; [| discriminate].
    apply IH. now apply (rooted_parse_one_line root st i line).
Qed.

(** *** Room on the stack: a line opens at most one block *)

Lemma open_as_item_defined st t cond name prm n :
  (List.length (stack st) < 256)%nat ->
  exists st',
    open_as_item st t cond name prm n = Some st'
    /\ List.length (stack st') = S (List.length (stack st)).
Proof.
  intro L. unfold open_as_item.
  destruct (block_create (p_heap st) t) as [b h1].
  rewrite stack_push_room by exact L. now eexists.
Qed.

Lemma open_as_child_defined h (below : list block_ptr) owner t cond n :
  (List.length below < 256)%nat ->
  exists st',
    open_as_child h below owner t cond n = Some st'
    /\ List.length (stack st') = S (List.length below).
Proof.
  intro L. unfold open_as_child.
  destruct (block_create h t) as [b h1].
  rewrite stack_push_room by exact L. now eexists.
Qed.

Lemma tl_length_le (stk : list block_ptr) :
  (List.length (tl stk) <= List.length stk)%nat.
Proof. destruct stk; cbn; lia. Qed.

Lemma parse_end_length st :
  (List.length (stack (parse_end st)) <= List.length (stack st))%nat.
Proof.
  unfold parse_end.
  pose proof (tl_length_le (stack st)).
  pose proof (tl_length_le (tl (stack st))).
  repeat match goal with
         | |- context [if ?b then _ else _] => destruct b
         end; cbn [stack]; lia.
Qed.

Lemma parse_one_line_defined st i line :
  (List.length (stack st) < 256)%nat ->
  exists st',
    parse_one_line st i line = Some st'
    /\ (List.length (stack st') <= S (List.length (stack st)))%nat.
Proof.
  intro L. unfold parse_one_line.
  pose proof (tl_length_le (stack st)) as Lt.
  pose proof (parse_end_length st) as Le.
  assert (Item : forall t cond name prm n,
             exists st', open_as_item st t cond name prm n = Some st'
                         /\ (List.length (stack st') <= S (List.length (stack st)))%nat).
  { intros. destruct (open_as_item_defined st t cond name prm n L) as (st' & -> & E).
    exists st'. split; [reflexivity | lia]. }
  assert (Child : forall below owner t cond n,
             (List.length below <= List.length (stack st))%nat ->
             exists st', open_as_child (p_heap st) below owner t cond n = Some st'
                         /\ (List.length (stack st') <= S (List.length (stack st)))%nat).
  { intros below owner t cond n Lb.
    destruct (open_as_child_defined (p_heap st) below owner t cond n ltac:(lia))
      as (st' & -> & E).
    exists st'. split; [reflexivity | lia]. }
  destruct (skip_while isspace line) as [| c rest];
    [exists st; split; [reflexivity | lia] |].
  destruct (Ascii.eqb c "#"); [exists st; split; [reflexivity | lia] |].
  destruct (get_first_token (String c rest)) as [first_token |];
    [| eexists; split; [reflexivity | cbn [stack add_line_to_current]; lia]].
  repeat match goal with
         | |- exists _, (if ?b then _ else _) = _ /\ _ => destruct b
         | |- exists _, (let (_, _) := ?x in _) = _ /\ _ => destruct x
         end;
    try (apply Item);
    try (apply Child; lia);
    try (cbv zeta; apply Child;
         match goal with
         | |- context [if ?b then _ else _] => destruct b
         end; lia);
    try (eexists; split; [reflexivity | cbn [stack add_line_to_current]; lia]).
Qed.

Lemma parse_lines_defined lines : forall st i,
  (List.length (stack st) + List.length lines <= 256)%nat ->
  exists st',
    parse_lines st i lines = Some st'
    /\ (List.length (stack st') <= List.length (stack st) + List.length lines)%nat.
Proof.
  induction lines as [| line rest IH]; intros st i L; cbn [parse_lines].
  - exists st. split; [reflexivity | lia].
  - cbn [List.length] in L.
    destruct (parse_one_line_defined st i line ltac:(lia)) as (st1 & -> & L1).
    destruct (IH st1 (S i) ltac:(lia)) as (st' & -> & L').
    exists st'. split; [reflexivity |]. cbn [List.length]. lia.
Qed.

(** END with only the root open changes nothing. *)
Lemma parse_end_at_root st root : stack st = [root] -> parse_end st = st.
Proof. intro Hs. unfold parse_end. now rewrite Hs. Qed.

(** END on a CASE or DEFAULT directly above a SWITCH closes both. *)
Lemma parse_end_closes_switch st c s rest :
  stack st = c :: s :: rest -> rest <> [] ->
  is_case_or_default (type_of (p_heap st) c) = true ->
  type_of (p_heap st) s = BLOCK_SWITCH ->
  parse_end st = {| p_heap := p_heap st; stack := rest |}.
Proof.
  intros Hs Hrest Hc Hsw. unfold parse_end. rewrite Hs. cbn.
  destruct rest as [| r rest]; [congruence |].
  cbn. now rewrite Hc, Hsw.
Qed.

(** END on any other open block closes that block alone. *)
Lemma parse_end_closes_one st c rest :
  stack st = c :: rest -> rest <> [] ->
  is_case_or_default (type_of (p_heap st) c) = false ->
  parse_end st = {| p_heap := p_heap st; stack := rest |}.
Proof.
  intros Hs Hrest Hc. unfold parse_end. rewrite Hs.
  destruct rest as [| r rest]; [congruence |].
  cbn. rewrite Hc. now rewrite andb_false_r.
Qed.

End ParserProperties.

(** C8 on the code. While the stack of open blocks has room, the parser
    does what is claimed: after any lines the root is at the bottom of
    the stack, so the stack never drops below it; a parse of fewer than
    256 lines always ends, and [bcl_parse_blocks] then returns that
    root, a Sequence block, without any parse error; END with only the
    root open changes nothing; END on a CASE or DEFAULT that sits on a
    SWITCH closes both; END on any other open block closes it alone; a
    script with stray ENDs parses as the script without them, and a
    WHILE that is never closed is left open on the stack and executes as
    if closed at the end of the text. But the stack is an array of 256
    pointers written without a bound check: 255 WHILE lines that are
    never closed fill it, and with the 256th the parser writes outside
    the array and returns nothing that can be relied on. *)
Theorem parser_stack_keeps_root (libm : Libm) (lib : Library) :
  (forall h lines st,
      parse_lines (parser_init h) 0 lines = Some st -> rooted (List.length h) st)
  /\ (forall h lines,
        (List.length lines < 256)%nat ->
        exists st, parse_lines (parser_init h) 0 lines = Some st)
  /\ (forall h code root h',
        bcl_parse_blocks h code = Some (root, h') ->
        root = List.length h /\ type_of h' root = BLOCK_NONE)
  /\ (forall st i, parse_one_line st i "END" = Some (parse_end st))
  /\ (forall st root, stack st = [root] -> parse_end st = st)
  /\ (forall st c s rest,
        stack st = c :: s :: rest -> rest <> [] ->
        is_case_or_default (type_of (p_heap st) c) = true ->
        type_of (p_heap st) s = BLOCK_SWITCH ->
        parse_end st = {| p_heap := p_heap st; stack := rest |})
  /\ (forall st c rest,
        stack st = c :: rest -> rest <> [] ->
        is_case_or_default (type_of (p_heap st) c) = false ->
        parse_end st = {| p_heap := p_heap st; stack := rest |})
  /\ parser_run [] (script stray_end_script)
     = parser_run [] (script [ "SET X 1"; "SET Y 2" ])
  /\ open_blocks (parser_run [] (script open_while_script)) = Some [1; 0]%nat
  /\ result_and_global (run_script 10 open_while_script) "N"
     = Some (BCL_OK, Some "1")
  /\ open_blocks (parser_run [] (script open_switch_lines)) = Some [2; 1; 0]%nat
  /\ open_blocks (parser_run [] (script (open_switch_lines ++ ["END"])))
     = Some [0%nat]
  /\ option_map (@List.length block_ptr)
       (open_blocks (parser_run [] (script (nested_whiles 255))))
     = Some 256%nat
  /\ bcl_parse_blocks [] (script (nested_whiles 256)) = None.
Proof.
  split.
  { intros h lines st E.
    apply (rooted_parse_lines (List.length h) lines (parser_init h) 0%nat);
      [apply rooted_init | exact E]. }
  split.
  { intros h lines L.
    destruct (parse_lines_defined lines (parser_init h) 0%nat) as (st & E & _);
      [unfold parser_init, block_create; cbn [stack List.length]; lia |].
    now exists st. }
  split.
  { intros h code root h' E. unfold bcl_parse_blocks, parser_run in E.
    destruct (parse_lines (parser_init h) 0 (strtok_all code newline))
      as [st |] eqn:Ep; [| discriminate].
    injection E as <- <-. split; [reflexivity |].
    apply (rooted_parse_lines (List.length h) (strtok_all code newline)
             (parser_init h) 0%nat st (rooted_init h) Ep). }
  split; [reflexivity |].
  split; [exact parse_end_at_root |].
  split; [exact parse_end_closes_switch |].
  split; [exact parse_end_closes_one |].
  repeat split; vm_compute; reflexivity.
Qed.

(** [parser_stack_keeps_root] on [SWITCH $V DO], [CASE a], [SET X 1]:
    the parse ends with the root at the bottom of the stack, and END then
    closes the CASE and the SWITCH. *)
Lemma parser_stack_keeps_root_witness :
  exists st,
    parse_lines (parser_init []) 0 open_switch_lines = Some st
    /\ rooted 0%nat st
    /\ stack st = [2; 1; 0]%nat
    /\ stack (parse_end st) = [0%nat].
Proof.
  pose proof (parser_stack_keeps_root plain_libm no_library)
    as (Hroot & Hdef & _ & _ & _ & Hsw & _).
  destruct (Hdef [] open_switch_lines) as [st E]; [cbn; lia |].
  exists st. split; [exact E |]. split; [exact (Hroot [] _ st E) |].
  assert (Es : stack st = [2; 1; 0]%nat).
  { vm_compute in E. injection E as <-. reflexivity. }
  split; [exact Es |].
  rewrite (Hsw st 2%nat 1%nat [0%nat] Es); [reflexivity | discriminate | |].
  - vm_compute in E. injection E as <-. reflexivity.
  - vm_compute in E. injection E as <-. reflexivity.
Defined.

(** ** Comparing strings without case *)

Lemma code_range (c : ascii) : 0 <= code c < 256.
Proof.
  unfold code. pose proof (N_ascii_bounded c) as B. lia.
Qed.

Lemma code_inj (a b : ascii) : code a = code b -> a = b.
Proof.
  unfold code. intro E. apply N2Z.inj in E.
  rewrite <- (ascii_N_embedding a), <- (ascii_N_embedding b). now rewrite E.
Qed.

Lemma code_tolower (c : ascii) :
  code (tolower c) = if isupper c then code c + 32 else code c.
Proof.
  unfold tolower. destruct (isupper c) eqn:U; [| reflexivity].
  unfold isupper in U. apply andb_prop in U as [L R].
  apply Z.leb_le in L, R. unfold code in *.
  rewrite N_ascii_embedding by lia. lia.
Qed.

Lemma tolower_not_nul (c : ascii) : code c <> 0 -> code (tolower c) <> 0.
Proof.
  intro N. rewrite code_tolower. destruct (isupper c); [| exact N].
  pose proof (code_range c). lia.
Qed.

Lemma tolower_idem (c : ascii) : tolower (tolower c) = tolower c.
Proof.
  apply code_inj. rewrite (code_tolower (tolower c)).
  destruct (isupper (tolower c)) eqn:U; [| reflexivity].
  exfalso. unfold isupper in U. rewrite code_tolower in U.
  destruct (isupper c) eqn:U0.
  - unfold isupper in U0. lia.
  - unfold isupper in U0. rewrite U0 in U. discriminate.
Qed.

Lemma strcasecmp_antisym (a : string) : forall b,
  bcl_strcasecmp b a = - bcl_strcasecmp a b.
Proof.
  induction a as [| x a IH]; intros [| y b]; cbn [bcl_strcasecmp]; try lia.
  destruct (code (tolower x) =? code (tolower y)) eqn:E.
  - apply Z.eqb_eq in E. rewrite E, Z.eqb_refl. cbn. apply IH.
  - rewrite Z.eqb_sym, E. cbn. lia.
Qed.

Lemma strcasecmp_zero_lower (a : string) : forall b,
  nul_free a = true -> nul_free b = true ->
  (bcl_strcasecmp a b = 0 <-> bcl_strtolower a = bcl_strtolower b).
Proof.
  induction a as [| x a IH]; intros [| y b] Na Nb; cbn [bcl_strcasecmp bcl_strtolower].
  - tauto.
  - cbn in Nb. apply andb_prop in Nb as [Ny _].
    apply negb_true_iff, Z.eqb_neq, tolower_not_nul in Ny.
    split; [lia | discriminate].
  - cbn in Na. apply andb_prop in Na as [Nx _].
    apply negb_true_iff, Z.eqb_neq, tolower_not_nul in Nx.
    split; [lia | discriminate].
  - cbn in Na, Nb. apply andb_prop in Na as [_ Na]. apply andb_prop in Nb as [_ Nb].
    destruct (code (tolower x) =? code (tolower y)) eqn:E; cbn [negb].
    + apply Z.eqb_eq, code_inj in E. rewrite E, (IH b Na Nb).
      split; [now intros -> | now intros [= ->]].
    + apply Z.eqb_neq in E. split; [lia |].
      intros [= Ex _]. now rewrite Ex in E.
Qed.

Lemma strcase_eq_sym (a b : string) : strcase_eq a b = strcase_eq b a.
Proof.
  unfold strcase_eq. rewrite (strcasecmp_antisym a b).
  destruct (bcl_strcasecmp a b =? 0) eqn:E.
  - apply Z.eqb_eq in E. rewrite E. reflexivity.
  - apply Z.eqb_neq in E. symmetry. apply Z.eqb_neq. lia.
Qed.

Lemma strcase_eq_lower (a b : string) :
  nul_free a = true -> nul_free b = true ->
  strcase_eq a b = true <-> bcl_strtolower a = bcl_strtolower b.
Proof.
  intros Na Nb. unfold strcase_eq. rewrite Z.eqb_eq.
  now apply strcasecmp_zero_lower.
Qed.

Lemma strcase_eq_trans (a b c : string) :
  nul_free a = true -> nul_free b = true -> nul_free c = true ->
  strcase_eq a b = true -> strcase_eq b c = true -> strcase_eq a c = true.
Proof.
  intros Na Nb Nc. rewrite !strcase_eq_lower by assumption. congruence.
Qed.

(** Keys equal up to case are interchangeable on the left of a comparison. *)
Lemma strcase_eq_left (a b c : string) :
  nul_free a = true -> nul_free b = true -> nul_free c = true ->
  strcase_eq a b = true -> strcase_eq a c = strcase_eq b c.
Proof.
  intros Na Nb Nc E.
  destruct (strcase_eq b c) eqn:Ebc.
  - now apply (strcase_eq_trans a b c).
  - destruct (strcase_eq a c) eqn:Eac; [| reflexivity].
    rewrite <- Ebc. symmetry. apply (strcase_eq_trans b a c); auto.
    now rewrite strcase_eq_sym.
Qed.

(** X1. [bcl_strcasecmp] answers 0 exactly when the two strings have the
    same lower-case copy ([bcl_strtolower]), and swapping its arguments
    negates the answer. *)
Theorem strcasecmp_ignores_case (a b : string) :
  nul_free a = true -> nul_free b = true ->
  (bcl_strcasecmp a b = 0 <-> bcl_strtolower a = bcl_strtolower b)
  /\ bcl_strcasecmp b a = - bcl_strcasecmp a b.
Proof.
  intros Na Nb. split; [now apply strcasecmp_zero_lower | apply strcasecmp_antisym].
Qed.

Lemma strcasecmp_ignores_case_witness :
  bcl_strcasecmp "While" "wHILE" = 0 /\ bcl_strcasecmp "do" "done" = - 110.
Proof.
  split.
  - apply (proj1 (strcasecmp_ignores_case "While" "wHILE" eq_refl eq_refl)).
    reflexivity.
  - rewrite (proj2 (strcasecmp_ignores_case "done" "do" eq_refl eq_refl)).
    reflexivity.
Defined.

Lemma strncasecmp_take (n : nat) : forall a b,
  bcl_strncasecmp a b n = bcl_strcasecmp (take n a) (take n b).
Proof.
  induction n as [| n IH]; intros [| x a] [| y b]; cbn [bcl_strncasecmp take bcl_strcasecmp];
    try reflexivity.
  now rewrite IH.
Qed.

(** X2. [bcl_strncasecmp] with bound [n] compares the first [n] characters
    as [bcl_strcasecmp] compares strings: it answers 0 for [n = 0], and 0
    whenever the whole strings compare equal. *)
Theorem strncasecmp_compares_prefixes (n : nat) (a b : string) :
  bcl_strncasecmp a b n = bcl_strcasecmp (take n a) (take n b)
  /\ (n = O -> bcl_strncasecmp a b n = 0)
  /\ (bcl_strcasecmp a b = 0 -> bcl_strncasecmp a b n = 0).
Proof.
  split; [apply strncasecmp_take |]. split.
  - intros ->. now destruct a.
  - revert a b. induction n as [| n IH]; intros [| x a] [| y b] E;
      cbn [bcl_strncasecmp bcl_strcasecmp] in *; try reflexivity; try exact E.
    destruct (negb (code (tolower x) =? code (tolower y))%Z);
      [exact E | now apply IH].
Qed.

(** ** One chain of a table *)

Section HashMore.
Context {V : Type}.
Implicit Types (t : bcl_hash_table_t V) (k : string) (v : V).

Lemma c_keys_cons k v t :
  c_keys ((k, v) :: t) = nul_free k && c_keys t.
Proof. reflexivity. Qed.

Lemma hash_update_none t : forall k v,
  bcl_hash_update t k v = None <-> bcl_hash_get t k = None.
Proof.
  induction t as [| [k0 v0] rest IH]; intros k v; cbn; [tauto |].
  destruct (strcase_eq k0 k); [split; discriminate |].
  rewrite <- (IH k v). destruct (bcl_hash_update rest k v); split; congruence.
Qed.

(** Lookup does not tell apart keys that differ in case only. *)
Lemma hash_get_case t : forall k k',
  c_keys t = true -> nul_free k = true -> nul_free k' = true ->
  strcase_eq k k' = true -> bcl_hash_get t k = bcl_hash_get t k'.
Proof.
  induction t as [| [k0 v0] rest IH]; intros k k' Ht Nk Nk' E; [reflexivity |].
  cbn in Ht. apply andb_prop in Ht as [N0 Ht]. cbn [bcl_hash_get].
  rewrite (strcase_eq_sym k0 k), (strcase_eq_sym k0 k').
  rewrite (strcase_eq_left k k' k0 Nk Nk' N0 E).
  destruct (strcase_eq k' k0); [reflexivity | now apply IH].
Qed.

Lemma hash_update_other t : forall k v t' k',
  c_keys t = true -> nul_free k = true -> nul_free k' = true ->
  strcase_eq k k' = false ->
  bcl_hash_update t k v = Some t' -> bcl_hash_get t' k' = bcl_hash_get t k'.
Proof.
  induction t as [| [k0 v0] rest IH]; intros k v t' k' Ht Nk Nk' E U; [discriminate |].
  cbn in Ht. apply andb_prop in Ht as [N0 Ht]. cbn in U.
  destruct (strcase_eq k0 k) eqn:E0.
  - injection U as <-. cbn [bcl_hash_get].
    rewrite (strcase_eq_left k0 k k' N0 Nk Nk' E0), E. reflexivity.
  - destruct (bcl_hash_update rest k v) as [rest' |] eqn:Ur; [| discriminate].
    injection U as <-. cbn [bcl_hash_get].
    destruct (strcase_eq k0 k'); [reflexivity |]. now apply (IH k v).
Qed.

Lemma hash_update_keys t : forall k v t',
  bcl_hash_update t k v = Some t' -> map fst t' = map fst t.
Proof.
  induction t as [| [k0 v0] rest IH]; intros k v t' U; [discriminate |].
  cbn in U. destruct (strcase_eq k0 k).
  - now injection U as <-.
  - destruct (bcl_hash_update rest k v) as [rest' |] eqn:Ur; [| discriminate].
    injection U as <-. cbn. f_equal. now apply (IH k v).
Qed.

Lemma c_keys_map t t' : map fst t' = map fst t -> c_keys t' = c_keys t.
Proof.
  unfold c_keys. revert t'.
  induction t as [| [k0 v0] rest IH]; intros [| [k1 v1] rest'] E; try discriminate;
    [reflexivity |].
  cbn in E. injection E as -> E. cbn. now rewrite (IH rest').
Qed.

Lemma c_keys_set t k v :
  c_keys t = true -> nul_free k = true -> c_keys (bcl_hash_set t k v) = true.
Proof.
  intros Ht Nk. unfold bcl_hash_set.
  destruct (bcl_hash_update t k v) as [t' |] eqn:U.
  - now rewrite (c_keys_map t t' (hash_update_keys t k v t' U)).
  - cbn. now rewrite Nk.
Qed.

Lemma c_keys_remove t : forall k,
  c_keys t = true -> c_keys (bcl_hash_remove t k) = true.
Proof.
  induction t as [| [k0 v0] rest IH]; intros k Ht; [reflexivity |].
  cbn in Ht. apply andb_prop in Ht as [N0 Ht]. cbn [bcl_hash_remove].
  destruct (strcase_eq k0 k); [exact Ht |].
  now rewrite c_keys_cons, N0, IH.
Qed.

Lemma hash_exists_keys t : forall t' k,
  map fst t' = map fst t -> bcl_hash_exists t' k = bcl_hash_exists t k.
Proof.
  unfold bcl_hash_exists.
  induction t as [| [k0 v0] rest IH]; intros [| [k1 v1] rest'] k E; try discriminate;
    [reflexivity |].
  cbn in E. injection E as -> E. cbn.
  destruct (strcase_eq k0 k); [reflexivity |]. now apply IH.
Qed.

Lemma unique_keys_map t : forall t',
  map fst t' = map fst t -> unique_keys t' = unique_keys t.
Proof.
  induction t as [| [k0 v0] rest IH]; intros [| [k1 v1] rest'] E; try discriminate;
    [reflexivity |].
  cbn in E. injection E as -> E. cbn.
  now rewrite (hash_exists_keys rest rest' k0 E), (IH rest' E).
Qed.

Lemma unique_keys_set t k v :
  unique_keys t = true -> unique_keys (bcl_hash_set t k v) = true.
Proof.
  intro Ut. unfold bcl_hash_set.
  destruct (bcl_hash_update t k v) as [t' |] eqn:U.
  - now rewrite (unique_keys_map t t' (hash_update_keys t k v t' U)).
  - cbn. unfold bcl_hash_exists.
    rewrite (proj1 (hash_update_none t k v) U). exact Ut.
Qed.

Lemma hash_remove_exists t : forall k k',
  bcl_hash_exists (bcl_hash_remove t k) k' = true -> bcl_hash_exists t k' = true.
Proof.
  unfold bcl_hash_exists.
  induction t as [| [k0 v0] rest IH]; intros k k' X; [discriminate |].
  cbn [bcl_hash_remove] in X. cbn [bcl_hash_get].
  destruct (strcase_eq k0 k).
  - destruct (strcase_eq k0 k'); [reflexivity | exact X].
  - cbn [bcl_hash_get] in X. destruct (strcase_eq k0 k'); [reflexivity |].
    now apply (IH k).
Qed.

Lemma unique_keys_remove t : forall k,
  unique_keys t = true -> unique_keys (bcl_hash_remove t k) = true.
Proof.
  induction t as [| [k0 v0] rest IH]; intros k Ut; [reflexivity |].
  cbn in Ut. apply andb_prop in Ut as [F Ut]. cbn [bcl_hash_remove].
  destruct (strcase_eq k0 k); [exact Ut |].
  cbn. rewrite (IH k Ut), andb_true_r.
  destruct (bcl_hash_exists (bcl_hash_remove rest k) k0) eqn:X; [| reflexivity].
  apply hash_remove_exists in X. now rewrite X in F.
Qed.

Lemma hash_remove_other t : forall k k',
  c_keys t = true -> nul_free k = true -> nul_free k' = true ->
  strcase_eq k k' = false ->
  bcl_hash_get (bcl_hash_remove t k) k' = bcl_hash_get t k'.
Proof.
  induction t as [| [k0 v0] rest IH]; intros k k' Ht Nk Nk' E; [reflexivity |].
  cbn in Ht. apply andb_prop in Ht as [N0 Ht]. cbn [bcl_hash_remove].
  destruct (strcase_eq k0 k) eqn:E0.
  - cbn [bcl_hash_get].
    now rewrite (strcase_eq_left k0 k k' N0 Nk Nk' E0), E.
  - cbn [bcl_hash_get]. destruct (strcase_eq k0 k'); [reflexivity |]. now apply IH.
Qed.

Lemma hash_remove_same t : forall k k',
  c_keys t = true -> unique_keys t = true ->
  nul_free k = true -> nul_free k' = true ->
  strcase_eq k k' = true ->
  bcl_hash_get (bcl_hash_remove t k) k' = None.
Proof.
  induction t as [| [k0 v0] rest IH]; intros k k' Ht Ut Nk Nk' E; [reflexivity |].
  cbn in Ht. apply andb_prop in Ht as [N0 Ht].
  cbn in Ut. apply andb_prop in Ut as [F Ut]. cbn [bcl_hash_remove].
  destruct (strcase_eq k0 k) eqn:E0.
  - assert (E1 : strcase_eq k0 k' = true) by now apply (strcase_eq_trans k0 k k').
    rewrite <- (hash_get_case rest k0 k' Ht N0 Nk' E1).
    unfold bcl_hash_exists in F. now destruct (bcl_hash_get rest k0).
  - cbn [bcl_hash_get].
    assert (E1 : strcase_eq k0 k' = false).
    { rewrite strcase_eq_sym, <- (strcase_eq_left k k' k0 Nk Nk' N0 E).
      now rewrite strcase_eq_sym. }
    rewrite E1. now apply IH.
Qed.

End HashMore.

Lemma hash_get_set_any (V : Type) (t : bcl_hash_table_t V)
  (k k' : string) (v : V) :
  c_keys t = true -> nul_free k = true -> nul_free k' = true ->
  bcl_hash_get (bcl_hash_set t k v) k'
  = if strcase_eq k k' then Some v else bcl_hash_get t k'.
Proof.
  intros Ht Nk Nk'. destruct (strcase_eq k k') eqn:E.
  - rewrite <- (hash_get_case (bcl_hash_set t k v) k k'); auto.
    + apply hash_get_set_same.
    + now apply c_keys_set.
  - unfold bcl_hash_set. destruct (bcl_hash_update t k v) as [t' |] eqn:U.
    + now apply (hash_update_other t k v).
    + cbn [bcl_hash_get]. now rewrite E.
Qed.

Lemma hash_get_remove_any (V : Type) (t : bcl_hash_table_t V) (k k' : string) :
  c_keys t = true -> unique_keys t = true ->
  nul_free k = true -> nul_free k' = true ->
  bcl_hash_get (bcl_hash_remove t k) k'
  = if strcase_eq k k' then None else bcl_hash_get t k'.
Proof.
  intros Ht Ut Nk Nk'. destruct (strcase_eq k k') eqn:E.
  - now apply hash_remove_same.
  - now apply hash_remove_other.
Qed.

(** ** Variables and scopes *)

Lemma set_scope_stack_same st : set_scope_stack st (scope_stack st) = st.
Proof. now destruct st. Qed.

Lemma set_global_vars_same st : set_global_vars st (global_vars st) = st.
Proof. now destruct st. Qed.

Lemma set_scope_vars_same sc : set_scope_vars sc (vars sc) = sc.
Proof. now destruct sc. Qed.

Lemma fresh_scope_is_local name : is_global_var (Some scope_create) name = false.
Proof.
  cbn. destruct (index_of "(" name) as [paren |]; [| reflexivity].
  now destruct (paren <=? 254)%nat.
Qed.

Lemma hash_remove_absent {V : Type} (t : bcl_hash_table_t V) : forall k,
  bcl_hash_get t k = None -> bcl_hash_remove t k = t.
Proof.
  induction t as [| [k0 v0] rest IH]; intros k G; [reflexivity |].
  cbn in G. cbn [bcl_hash_remove].
  destruct (strcase_eq k0 k); [discriminate |]. now rewrite IH.
Qed.

Lemma hash_exists_false {V : Type} (t : bcl_hash_table_t V) k :
  bcl_hash_exists t k = false -> bcl_hash_get t k = None.
Proof. unfold bcl_hash_exists. now destruct (bcl_hash_get t k). Qed.

(** X3. Below the scope limit, pushing a scope, setting a variable in it
    and popping the scope gives back the interpreter as it was: the
    variable is readable inside the scope and the globals are untouched. *)
Theorem scope_push_pop_restores (st : bcl_interp_t) (x v : string) :
  (scope_depth st < BCL_MAX_SCOPE_DEPTH)%nat ->
  exists st1 st2,
    bcl_scope_push st = (BCL_OK, st1)
    /\ bcl_var_set st1 x v = (BCL_OK, st2)
    /\ bcl_var_get st2 x = Some v
    /\ global_vars st2 = global_vars st
    /\ bcl_scope_pop st2 = (BCL_OK, st).
Proof.
  intro Hd. unfold bcl_scope_push.
  destruct (BCL_MAX_SCOPE_DEPTH <=? scope_depth st)%nat eqn:E.
  { apply Nat.leb_le in E. lia. }
  eexists. eexists. split; [reflexivity |].
  unfold bcl_var_set, get_current_scope. cbn [scope_stack set_scope_stack].
  rewrite fresh_scope_is_local.
  split; [reflexivity |].
  split.
  { unfold bcl_var_get, get_current_scope. cbn. now rewrite strcase_eq_refl. }
  split; [reflexivity |].
  unfold bcl_scope_pop. cbn. now destruct st.
Qed.

Lemma scope_push_pop_restores_witness :
  exists st2,
    bcl_var_get st2 "tmp" = Some "1"
    /\ bcl_scope_pop st2 = (BCL_OK, bcl_interp_create)
    /\ bcl_var_get bcl_interp_create "tmp" = None.
Proof.
  destruct (scope_push_pop_restores bcl_interp_create "tmp" "1")
    as (st1 & st2 & _ & _ & Hg & _ & Hp).
  - cbn. unfold BCL_MAX_SCOPE_DEPTH. lia.
  - exists st2. split; [exact Hg |]. split; [exact Hp | reflexivity].
Defined.

(** X4. Setting a variable changes neither the value nor the existence of
    a variable whose name differs from it by more than case, and the
    tables keep their keys unique. *)
Theorem var_set_leaves_other_names (st : bcl_interp_t) (n v n' : string) :
  vars_ok st = true -> nul_free n = true -> nul_free n' = true ->
  strcase_eq n n' = false ->
  bcl_var_get (snd (bcl_var_set st n v)) n' = bcl_var_get st n'
  /\ bcl_var_exists (snd (bcl_var_set st n v)) n' = bcl_var_exists st n'
  /\ vars_ok (snd (bcl_var_set st n v)) = true.
Proof.
  intros Hok Nn Nn' E. unfold vars_ok, table_ok in Hok.
  apply andb_prop in Hok as [Hg Hl]. apply andb_prop in Hg as [Cg Ug].
  unfold bcl_var_set, bcl_var_get, bcl_var_exists, vars_ok, table_ok,
    get_current_scope in *.
  destruct (scope_stack st) as [| sc rest] eqn:Es.
  - cbn [is_global_var snd]. cbn [scope_stack set_global_vars global_vars].
    rewrite Es. unfold bcl_hash_exists.
    rewrite (hash_get_set_any _ (global_vars st) n n' v Cg Nn Nn'), E.
    repeat split. now rewrite c_keys_set, unique_keys_set.
  - apply andb_prop in Hl as [Cl Ul].
    destruct (is_global_var (Some sc) n); cbn [snd].
    + cbn [scope_stack set_global_vars global_vars]. rewrite Es.
      unfold bcl_hash_exists.
      rewrite (hash_get_set_any _ (global_vars st) n n' v Cg Nn Nn'), E.
      repeat split. now rewrite c_keys_set, unique_keys_set, Cl, Ul.
    + cbn [scope_stack set_scope_stack global_vars vars set_scope_vars].
      unfold bcl_hash_exists.
      rewrite (hash_get_set_any _ (vars sc) n n' v Cl Nn Nn'), E.
      repeat split. now rewrite c_keys_set, unique_keys_set, Cg, Ug.
Qed.

Lemma var_set_leaves_other_names_witness :
  bcl_var_get (snd (bcl_var_set shadow_state "X" "new")) "y"
  = bcl_var_get shadow_state "y"
  /\ bcl_var_get (snd (bcl_var_set shadow_state "X" "new")) "x" = Some "inner".
Proof.
  split; [| reflexivity].
  apply (var_set_leaves_other_names shadow_state "X" "new" "y"); reflexivity.
Defined.

(** X5. [bcl_var_unset] always answers BCL_OK. It changes nothing when the
    variable does not exist and leaves every other name alone; with a
    local binding it removes that one only, so that a global of the same
    name shows again; at global level the name is unset afterwards. *)
Theorem var_unset_removes_one_binding (st : bcl_interp_t) (n : string) :
  vars_ok st = true -> nul_free n = true ->
  fst (bcl_var_unset st n) = BCL_OK
  /\ (bcl_var_exists st n = false -> snd (bcl_var_unset st n) = st)
  /\ (forall n', nul_free n' = true -> strcase_eq n n' = false ->
        bcl_var_get (snd (bcl_var_unset st n)) n' = bcl_var_get st n')
  /\ (forall sc rest, scope_stack st = sc :: rest ->
        bcl_hash_exists (vars sc) n = true ->
        global_vars (snd (bcl_var_unset st n)) = global_vars st
        /\ bcl_var_get (snd (bcl_var_unset st n)) n = bcl_hash_get (global_vars st) n)
  /\ (get_current_scope st = None ->
        bcl_var_get (snd (bcl_var_unset st n)) n = None).
Proof.
  intros Hok Nn. unfold vars_ok, table_ok in Hok.
  apply andb_prop in Hok as [Hg Hl]. apply andb_prop in Hg as [Cg Ug].
  unfold bcl_var_unset, bcl_var_get, bcl_var_exists, get_current_scope in *.
  destruct (scope_stack st) as [| sc rest] eqn:Es.
  - cbn [fst snd scope_stack set_global_vars global_vars]. rewrite Es.
    split; [reflexivity |]. split.
    { intro X. rewrite hash_remove_absent by now apply hash_exists_false.
      apply set_global_vars_same. }
    split.
    { intros n' Nn' E. now apply hash_remove_other. }
    split; [discriminate |].
    intros _. apply (hash_remove_same (global_vars st) n n); auto.
    apply strcase_eq_refl.
  - apply andb_prop in Hl as [Cl Ul].
    destruct (bcl_hash_exists (vars sc) n) eqn:X;
      cbn [fst snd scope_stack set_scope_stack set_global_vars global_vars vars
           set_scope_vars]; try rewrite Es.
    + split; [reflexivity |]. split; [discriminate |]. split.
      { intros n' Nn' E. now rewrite hash_remove_other. }
      split; [| discriminate].
      intros sc' rest' [= <- <-] _. split; [reflexivity |].
      rewrite (hash_remove_same (vars sc) n n); auto. apply strcase_eq_refl.
    + split; [reflexivity |]. split.
      { intro Xg. rewrite hash_remove_absent by now apply hash_exists_false.
        apply set_global_vars_same. }
      split.
      { intros n' Nn' E. now rewrite hash_remove_other. }
      split; [| discriminate].
      intros sc' rest' [= <- <-] X'. congruence.
Qed.

Lemma var_unset_removes_one_binding_witness :
  bcl_var_get shadow_state "x" = Some "inner"
  /\ bcl_var_get (snd (bcl_var_unset shadow_state "x")) "x" = Some "outer".
Proof.
  split; [reflexivity |].
  destruct (var_unset_removes_one_binding shadow_state "x" eq_refl eq_refl)
    as (_ & _ & _ & H & _).
  destruct (H _ _ eq_refl eq_refl) as [_ ->]. reflexivity.
Defined.

(** ** The table of buckets *)

Lemma hash_loop_lower (s : string) : forall h,
  Buckets.hash_loop (bcl_strtolower s) h = Buckets.hash_loop s h.
Proof.
  induction s as [| c r IH]; intro h; [reflexivity |].
  cbn [bcl_strtolower Buckets.hash_loop]. now rewrite tolower_idem, IH.
Qed.

Lemma hash_string_case (a b : string) :
  nul_free a = true -> nul_free b = true -> strcase_eq a b = true ->
  Buckets.bcl_hash_string a = Buckets.bcl_hash_string b.
Proof.
  intros Na Nb E. apply (strcase_eq_lower a b Na Nb) in E.
  unfold Buckets.bcl_hash_string.
  now rewrite <- (hash_loop_lower a), <- (hash_loop_lower b), E.
Qed.

Lemma hash_string_range (s : string) :
  (Buckets.bcl_hash_string s < Buckets.BCL_HASH_TABLE_SIZE)%nat.
Proof.
  unfold Buckets.bcl_hash_string, Buckets.BCL_HASH_TABLE_SIZE.
  pose proof (Z.mod_pos_bound (Buckets.hash_loop s 5381) (Z.of_nat 256) ltac:(lia)).
  lia.
Qed.

Section BucketLaws.
Context {V : Type}.
Implicit Types (t : Buckets.table V) (l : list (bcl_hash_table_t V))
  (c : bcl_hash_table_t V).
Local Open Scope nat_scope.

Lemma set_nth_length l : forall i c,
  List.length (Buckets.set_nth l i c) = List.length l.
Proof.
  induction l as [| c0 r IH]; intros [| i] c; cbn; auto.
Qed.

Lemma nth_set_nth_same l : forall i c,
  i < List.length l -> nth i (Buckets.set_nth l i c) [] = c.
Proof.
  induction l as [| c0 r IH]; intros [| i] c L; cbn in *; try lia; auto.
  apply IH. lia.
Qed.

Lemma nth_set_nth_other l : forall i j c,
  i <> j -> nth j (Buckets.set_nth l i c) [] = nth j l [].
Proof.
  induction l as [| c0 r IH]; intros [| i] [| j] c N; cbn; auto; try lia.
Qed.

Lemma concat_set_nth_length l : forall i c,
  i < List.length l ->
  List.length (List.concat (Buckets.set_nth l i c)) + List.length (nth i l [])
  = List.length (List.concat l) + List.length c.
Proof.
  induction l as [| c0 r IH]; intros [| i] c L; cbn in *; try lia.
  - rewrite !length_app. lia.
  - rewrite !length_app. specialize (IH i c ltac:(lia)). lia.
Qed.

Lemma chains_ok_nth l : forall b i,
  Buckets.chains_ok b l = true -> i < List.length l ->
  Buckets.chain_ok (b + i) (nth i l []) = true.
Proof.
  induction l as [| c0 r IH]; intros b [| i] O L; cbn in *; try lia;
    apply andb_prop in O as [O1 O2].
  - now rewrite Nat.add_0_r.
  - rewrite <- Nat.add_succ_comm. apply IH; [exact O2 | lia].
Qed.

Lemma chains_ok_set_nth l : forall b i c,
  Buckets.chains_ok b l = true -> Buckets.chain_ok (b + i) c = true ->
  Buckets.chains_ok b (Buckets.set_nth l i c) = true.
Proof.
  induction l as [| c0 r IH]; intros b [| i] c O C; cbn in *; auto;
    apply andb_prop in O as [O1 O2].
  - rewrite Nat.add_0_r in C. now rewrite C, O2.
  - rewrite O1. cbn. apply IH; [exact O2 |]. now rewrite Nat.add_succ_comm.
Qed.

Lemma chains_ok_repeat n : forall b,
  Buckets.chains_ok b (repeat (@nil (string * V)) n) = true.
Proof. induction n as [| n IH]; intro b; cbn; auto. Qed.

Lemma concat_repeat_nil n :
  List.concat (repeat (@nil (string * V)) n) = [].
Proof. induction n as [| n IH]; cbn; auto. Qed.

Lemma hash_update_length c : forall k v c',
  bcl_hash_update c k v = Some c' -> List.length c' = List.length c.
Proof.
  intros k v c' U. apply hash_update_keys in U.
  now rewrite <- (length_map fst c'), U, length_map.
Qed.

Lemma hash_set_length c k v :
  List.length (bcl_hash_set c k v)
  = match bcl_hash_get c k with
    | Some _ => List.length c
    | None => S (List.length c)
    end.
Proof.
  unfold bcl_hash_set. destruct (bcl_hash_update c k v) as [c' |] eqn:U.
  - rewrite (hash_update_length _ _ _ _ U).
    destruct (bcl_hash_get c k) eqn:G; [reflexivity |].
    apply (proj2 (hash_update_none _ k v)) in G. congruence.
  - apply hash_update_none in U. now rewrite U.
Qed.

Lemma hash_remove_length c : forall k,
  bcl_hash_exists c k = true ->
  S (List.length (bcl_hash_remove c k)) = List.length c.
Proof.
  unfold bcl_hash_exists.
  induction c as [| [k0 v0] r IH]; intros k X; [discriminate |].
  cbn in *. destruct (strcase_eq k0 k); [reflexivity |].
  cbn. now rewrite IH.
Qed.

Lemma hash_remove_keys_incl c : forall k (P : string -> bool),
  forallb P (map fst c) = true ->
  forallb P (map fst (bcl_hash_remove c k)) = true.
Proof.
  induction c as [| [k0 v0] r IH]; intros k P F; [reflexivity |].
  cbn in *. apply andb_prop in F as [F1 F2].
  destruct (strcase_eq k0 k); [exact F2 |].
  cbn. now rewrite F1, IH.
Qed.

Lemma chain_ok_set c k v :
  Buckets.chain_ok (Buckets.bcl_hash_string k) c = true -> nul_free k = true ->
  Buckets.chain_ok (Buckets.bcl_hash_string k) (bcl_hash_set c k v) = true.
Proof.
  unfold Buckets.chain_ok. intros O Nk.
  apply andb_prop in O as [O O3]. apply andb_prop in O as [O1 O2].
  rewrite (c_keys_set c k v O1 Nk), (unique_keys_set c k v O2). cbn.
  unfold bcl_hash_set. destruct (bcl_hash_update c k v) as [c' |] eqn:U.
  - now rewrite (hash_update_keys c k v c' U).
  - cbn. now rewrite Nat.eqb_refl.
Qed.

Lemma chain_ok_remove i c k :
  Buckets.chain_ok i c = true -> Buckets.chain_ok i (bcl_hash_remove c k) = true.
Proof.
  unfold Buckets.chain_ok. intro O.
  apply andb_prop in O as [O O3]. apply andb_prop in O as [O1 O2].
  now rewrite (c_keys_remove c k O1), (unique_keys_remove c k O2),
    hash_remove_keys_incl.
Qed.

Lemma buckets_set t k v :
  Buckets.bcl_hash_set t k v
  = {| Buckets.buckets :=
         Buckets.set_nth (Buckets.buckets t) (Buckets.bcl_hash_string k)
           (bcl_hash_set (Buckets.bucket t (Buckets.bcl_hash_string k)) k v);
       Buckets.count :=
         match bcl_hash_get (Buckets.bucket t (Buckets.bcl_hash_string k)) k with
         | Some _ => Buckets.count t
         | None => S (Buckets.count t)
         end |}.
Proof.
  unfold Buckets.bcl_hash_set, bcl_hash_set.
  destruct (bcl_hash_update _ k v) as [c' |] eqn:U.
  - destruct (bcl_hash_get _ k) eqn:G; [reflexivity |].
    apply (proj2 (hash_update_none _ k v)) in G. congruence.
  - apply hash_update_none in U. now rewrite U.
Qed.

Lemma table_wf_parts t :
  Buckets.table_wf t = true ->
  List.length (Buckets.buckets t) = Buckets.BCL_HASH_TABLE_SIZE
  /\ Buckets.chains_ok 0 (Buckets.buckets t) = true
  /\ Buckets.count t = List.length (List.concat (Buckets.buckets t)).
Proof.
  unfold Buckets.table_wf. intro W.
  apply andb_prop in W as [W W3]. apply andb_prop in W as [W1 W2].
  apply Nat.eqb_eq in W1, W3. auto.
Qed.

Lemma table_wf_build t :
  List.length (Buckets.buckets t) = Buckets.BCL_HASH_TABLE_SIZE ->
  Buckets.chains_ok 0 (Buckets.buckets t) = true ->
  Buckets.count t = List.length (List.concat (Buckets.buckets t)) ->
  Buckets.table_wf t = true.
Proof.
  unfold Buckets.table_wf. intros W1 W2 W3.
  apply Nat.eqb_eq in W1, W3. now rewrite W1, W2, W3.
Qed.

Lemma table_wf_bucket t k :
  Buckets.table_wf t = true ->
  Buckets.chain_ok (Buckets.bcl_hash_string k)
    (Buckets.bucket t (Buckets.bcl_hash_string k)) = true.
Proof.
  intro W. apply table_wf_parts in W as (W1 & W2 & _).
  apply (chains_ok_nth _ 0 _ W2). rewrite W1. apply hash_string_range.
Qed.

Lemma chain_ok_c_keys i c : Buckets.chain_ok i c = true -> c_keys c = true.
Proof.
  unfold Buckets.chain_ok. intro O.
  apply andb_prop in O as [O _]. now apply andb_prop in O as [O _].
Qed.

Lemma chain_ok_unique i c : Buckets.chain_ok i c = true -> unique_keys c = true.
Proof.
  unfold Buckets.chain_ok. intro O.
  apply andb_prop in O as [O _]. now apply andb_prop in O as [_ O].
Qed.

Lemma table_wf_create : Buckets.table_wf (@Buckets.bcl_hash_create V) = true.
Proof.
  apply table_wf_build; cbn [Buckets.buckets Buckets.count Buckets.bcl_hash_create].
  - apply repeat_length.
  - apply chains_ok_repeat.
  - now rewrite concat_repeat_nil.
Qed.

Lemma table_wf_set t k v :
  Buckets.table_wf t = true -> nul_free k = true ->
  Buckets.table_wf (Buckets.bcl_hash_set t k v) = true.
Proof.
  intros W Nk. pose proof (table_wf_bucket t k W) as O.
  pose proof (table_wf_parts t W) as (W1 & W2 & W3).
  pose proof (hash_string_range k) as R. rewrite <- W1 in R.
  rewrite buckets_set. apply table_wf_build; cbn [Buckets.buckets Buckets.count].
  - now rewrite set_nth_length.
  - apply chains_ok_set_nth; [exact W2 |]. now apply chain_ok_set.
  - pose proof (concat_set_nth_length (Buckets.buckets t) _
      (bcl_hash_set (Buckets.bucket t (Buckets.bcl_hash_string k)) k v) R) as L.
    fold (Buckets.bucket t (Buckets.bcl_hash_string k)) in L.
    rewrite hash_set_length in L.
    destruct (bcl_hash_get _ k); lia.
Qed.

Lemma table_wf_remove t k :
  Buckets.table_wf t = true ->
  Buckets.table_wf (Buckets.bcl_hash_remove t k) = true.
Proof.
  intros W. pose proof (table_wf_bucket t k W) as O.
  pose proof (table_wf_parts t W) as (W1 & W2 & W3).
  pose proof (hash_string_range k) as R. rewrite <- W1 in R.
  unfold Buckets.bcl_hash_remove.
  destruct (bcl_hash_exists _ k) eqn:X; [| exact W].
  apply table_wf_build; cbn [Buckets.buckets Buckets.count].
  - now rewrite set_nth_length.
  - apply chains_ok_set_nth; [exact W2 |]. now apply chain_ok_remove.
  - pose proof (concat_set_nth_length (Buckets.buckets t) _
      (bcl_hash_remove (Buckets.bucket t (Buckets.bcl_hash_string k)) k) R) as L.
    fold (Buckets.bucket t (Buckets.bcl_hash_string k)) in L.
    pose proof (hash_remove_length _ _ X) as L'. lia.
Qed.

Lemma buckets_get_set t k k' v :
  Buckets.table_wf t = true -> nul_free k = true -> nul_free k' = true ->
  Buckets.bcl_hash_get (Buckets.bcl_hash_set t k v) k'
  = if strcase_eq k k' then Some v else Buckets.bcl_hash_get t k'.
Proof.
  intros W Nk Nk'. pose proof (table_wf_bucket t k W) as O.
  pose proof (table_wf_parts t W) as (W1 & _).
  pose proof (hash_string_range k) as R. rewrite <- W1 in R.
  rewrite buckets_set. unfold Buckets.bcl_hash_get, Buckets.bucket.
  cbn [Buckets.buckets].
  destruct (Nat.eq_dec (Buckets.bcl_hash_string k) (Buckets.bcl_hash_string k'))
    as [E | N].
  - rewrite <- E, nth_set_nth_same by exact R.
    apply hash_get_set_any; [now apply (chain_ok_c_keys _ _ O) | exact Nk | exact Nk'].
  - rewrite nth_set_nth_other by exact N.
    destruct (strcase_eq k k') eqn:S; [| reflexivity].
    destruct N. now apply hash_string_case.
Qed.

Lemma buckets_get_remove t k k' :
  Buckets.table_wf t = true -> nul_free k = true -> nul_free k' = true ->
  Buckets.bcl_hash_get (Buckets.bcl_hash_remove t k) k'
  = if strcase_eq k k' then None else Buckets.bcl_hash_get t k'.
Proof.
  intros W Nk Nk'. pose proof (table_wf_bucket t k W) as O.
  pose proof (table_wf_parts t W) as (W1 & _).
  pose proof (hash_string_range k) as R. rewrite <- W1 in R.
  unfold Buckets.bcl_hash_remove.
  destruct (bcl_hash_exists _ k) eqn:X.
  - unfold Buckets.bcl_hash_get, Buckets.bucket. cbn [Buckets.buckets].
    destruct (Nat.eq_dec (Buckets.bcl_hash_string k) (Buckets.bcl_hash_string k'))
      as [E | N].
    + rewrite <- E, nth_set_nth_same by exact R.
      destruct (strcase_eq k k') eqn:S.
      * apply hash_remove_same; auto;
          [now apply (chain_ok_c_keys _ _ O) | now apply (chain_ok_unique _ _ O)].
      * apply hash_remove_other; auto. now apply (chain_ok_c_keys _ _ O).
    + rewrite nth_set_nth_other by exact N.
      destruct (strcase_eq k k') eqn:S; [| reflexivity].
      destruct N. now apply hash_string_case.
  - destruct (strcase_eq k k') eqn:S; [| reflexivity].
    unfold Buckets.bcl_hash_get.
    rewrite <- (hash_string_case k k' Nk Nk' S).
    rewrite <- (hash_get_case _ k k' (chain_ok_c_keys _ _ O) Nk Nk' S).
    unfold bcl_hash_exists in X. now destruct (bcl_hash_get _ k).
Qed.

Lemma buckets_keys_count t :
  Buckets.table_wf t = true ->
  match Buckets.bcl_hash_keys t with
  | (n, Some keys) => n = Buckets.count t /\ List.length keys = n /\ 0 < n
  | (n, None) => n = 0 /\ Buckets.count t = 0
  end.
Proof.
  intro W. apply table_wf_parts in W as (_ & _ & W3).
  unfold Buckets.bcl_hash_keys. destruct (Buckets.count t) as [| n] eqn:C;
    [auto |].
  rewrite length_map, <- W3. repeat split; lia.
Qed.

End BucketLaws.

(** X6. [bcl_hash_string] sends strings that are equal up to case to the
    same bucket, and its result is below BCL_HASH_TABLE_SIZE. *)
Theorem hash_string_ignores_case (a b : string) :
  nul_free a = true -> nul_free b = true -> strcase_eq a b = true ->
  Buckets.bcl_hash_string a = Buckets.bcl_hash_string b
  /\ (Buckets.bcl_hash_string a < Buckets.BCL_HASH_TABLE_SIZE)%nat.
Proof.
  intros Na Nb E. split; [now apply hash_string_case | apply hash_string_range].
Qed.

Lemma hash_string_ignores_case_witness :
  Buckets.bcl_hash_string "Total" = Buckets.bcl_hash_string "TOTAL".
Proof.
  apply (hash_string_ignores_case "Total" "TOTAL"); reflexivity.
Defined.

(** X7. The table of bcl_hash.c is a map whose keys are compared without
    case. On a well-formed table, set and remove keep it well formed; a
    lookup after set finds the new value under every key equal up to case
    and the former answer under the others; a lookup after remove finds
    nothing under such keys and the former answer under the others;
    [bcl_hash_keys] reports [count] keys, and no array for an empty table. *)
Theorem bucket_table_is_a_map (V : Type) (t : Buckets.table V) (k k' : string)
  (v : V) :
  Buckets.table_wf t = true -> nul_free k = true -> nul_free k' = true ->
  Buckets.table_wf (Buckets.bcl_hash_set t k v) = true
  /\ Buckets.table_wf (Buckets.bcl_hash_remove t k) = true
  /\ Buckets.bcl_hash_get (Buckets.bcl_hash_set t k v) k'
     = (if strcase_eq k k' then Some v else Buckets.bcl_hash_get t k')
  /\ Buckets.bcl_hash_get (Buckets.bcl_hash_remove t k) k'
     = (if strcase_eq k k' then None else Buckets.bcl_hash_get t k')
  /\ match Buckets.bcl_hash_keys t with
     | (n, Some keys) =>
         n = Buckets.count t /\ List.length keys = n /\ (0 < n)%nat
     | (n, None) => n = O /\ Buckets.count t = O
     end.
Proof.
  intros W Nk Nk'. repeat split.
  - now apply table_wf_set.
  - now apply table_wf_remove.
  - now apply buckets_get_set.
  - now apply buckets_get_remove.
  - now apply buckets_keys_count.
Qed.

Lemma bucket_table_is_a_map_witness :
  Buckets.bcl_hash_get
    (Buckets.bcl_hash_set
       (Buckets.bcl_hash_set
          (Buckets.bcl_hash_set Buckets.bcl_hash_create "Count" "1") "name" "x")
       "COUNT" "2") "count" = Some "2".
Proof.
  refine (proj1 (proj2 (proj2
            (bucket_table_is_a_map string
               (Buckets.bcl_hash_set
                  (Buckets.bcl_hash_set Buckets.bcl_hash_create "Count" "1") "name" "x")
               "COUNT" "count" "2" _ eq_refl eq_refl)))).
  vm_compute. reflexivity.
Defined.

Section BucketRuns.
Context {V : Type}.
Local Open Scope nat_scope.

Lemma same_lookups_create :
  same_lookups (@Buckets.bcl_hash_create V) bcl_hash_create.
Proof.
  unfold same_lookups. split; [apply table_wf_create |].
  split; [reflexivity |]. split; [reflexivity |]. split; [| reflexivity].
  intros k _. unfold Buckets.bcl_hash_get, Buckets.bucket.
  cbn [Buckets.buckets Buckets.bcl_hash_create].
  generalize (Buckets.bcl_hash_string k) as i.
  generalize Buckets.BCL_HASH_TABLE_SIZE as n.
  induction n as [| n IH]; intros [| i]; cbn; auto.
Qed.

Lemma same_lookups_apply (t : Buckets.table V) (l : bcl_hash_table_t V)
  (o : Buckets.hash_op V) :
  same_lookups t l -> nul_free (Buckets.op_key o) = true ->
  same_lookups (Buckets.apply_op t o) (apply_chain l o).
Proof.
  intros (W & Cl & Ul & G & N) Nk. destruct o as [k v | k]; cbn in Nk |- *.
  - repeat split.
    + now apply table_wf_set.
    + now apply c_keys_set.
    + now apply unique_keys_set.
    + intros k' Nk'. rewrite buckets_get_set, hash_get_set_any by assumption.
      now rewrite G.
    + rewrite buckets_set, hash_set_length. cbn [Buckets.count].
      change (bcl_hash_get (Buckets.bucket t (Buckets.bcl_hash_string k)) k)
        with (Buckets.bcl_hash_get t k).
      rewrite (G k Nk), N. reflexivity.
  - repeat split.
    + now apply table_wf_remove.
    + now apply c_keys_remove.
    + now apply unique_keys_remove.
    + intros k' Nk'. rewrite buckets_get_remove, hash_get_remove_any by assumption.
      now rewrite G.
    + unfold Buckets.bcl_hash_remove.
      assert (X : bcl_hash_exists (Buckets.bucket t (Buckets.bcl_hash_string k)) k
                  = bcl_hash_exists l k).
      { unfold bcl_hash_exists.
        change (bcl_hash_get (Buckets.bucket t (Buckets.bcl_hash_string k)) k)
          with (Buckets.bcl_hash_get t k).
        now rewrite (G k Nk). }
      rewrite X. destruct (bcl_hash_exists l k) eqn:E.
      * cbn [Buckets.count]. rewrite N, <- (hash_remove_length l k E). reflexivity.
      * rewrite N. now rewrite (hash_remove_absent l k (hash_exists_false l k E)).
Qed.

Lemma same_lookups_run (ops : list (Buckets.hash_op V)) :
  forall (t : Buckets.table V) (l : bcl_hash_table_t V),
  same_lookups t l ->
  forallb (fun o => nul_free (Buckets.op_key o)) ops = true ->
  same_lookups (fold_left Buckets.apply_op ops t)
    (fold_left apply_chain ops l).
Proof.
  induction ops as [| o ops IH]; intros t l S F; [exact S |].
  cbn in F. apply andb_prop in F as [F1 F2]. cbn [fold_left].
  apply IH; [| exact F2]. now apply same_lookups_apply.
Qed.

End BucketRuns.

(** X8. After any run of [bcl_hash_set] and [bcl_hash_remove] calls on a
    fresh table, the table of buckets answers every lookup as the single
    chain of the interpreter model does, counts as many entries, and is
    well formed. *)
Theorem bucket_table_after_any_calls (V : Type) (ops : list (Buckets.hash_op V))
  (k : string) :
  forallb (fun o => nul_free (Buckets.op_key o)) ops = true ->
  nul_free k = true ->
  Buckets.bcl_hash_get (fold_left Buckets.apply_op ops Buckets.bcl_hash_create) k
  = bcl_hash_get (fold_left apply_chain ops bcl_hash_create) k
  /\ Buckets.count (fold_left Buckets.apply_op ops Buckets.bcl_hash_create)
     = List.length (fold_left apply_chain ops bcl_hash_create)
  /\ Buckets.table_wf (fold_left Buckets.apply_op ops Buckets.bcl_hash_create)
     = true.
Proof.
  intros F Nk.
  destruct (same_lookups_run ops _ _ same_lookups_create F) as (W & _ & _ & G & N).
  auto.
Qed.

Lemma bucket_table_after_any_calls_witness :
  Buckets.count
    (fold_left Buckets.apply_op
       [Buckets.op_set "A" "1"; Buckets.op_set "a" "2"; Buckets.op_set "B" "3";
        Buckets.op_remove "b"] Buckets.bcl_hash_create) = 1%nat.
Proof.
  apply (proj1 (proj2 (bucket_table_after_any_calls string
           [Buckets.op_set "A" "1"; Buckets.op_set "a" "2"; Buckets.op_set "B" "3";
            Buckets.op_remove "b"] "A" eq_refl eq_refl))).
Defined.

(** ** Escapes and tokens *)

(** *** bcl_decode_escapes *)

Lemma decode_escapes_plain (s : string) :
  strchr_mem "\" s = false -> bcl_decode_escapes s = s.
Proof.
  induction s as [| c r IH]; intro N; [reflexivity |].
  cbn [strchr_mem] in N. apply orb_false_elim in N as [Nc Nr].
  cbn [bcl_decode_escapes]. rewrite Ascii.eqb_sym, Nc. now rewrite IH.
Qed.

Lemma decode_escapes_length_aux (n : nat) : forall s,
  (String.length s <= n)%nat ->
  (String.length (bcl_decode_escapes s) <= String.length s)%nat.
Proof.
  induction n as [| n IH]; intros s L.
  - destruct s; [cbn; lia | cbn in L; lia].
  - destruct s as [| c r]; [cbn; lia |].
    cbn [String.length] in L.
    assert (Lr : (String.length r <= n)%nat) by lia.
    pose proof (IH r Lr) as Hr.
    cbn [bcl_decode_escapes]. destruct (Ascii.eqb c "\").
    + destruct r as [| d r']; [cbn; lia |].
      cbn [String.length] in Lr.
      assert (Lr' : (String.length r' <= n)%nat) by lia.
      pose proof (IH r' Lr') as Hr'.
      destruct (Ascii.eqb d "u" && (5 <=? String.length (String d r'))%nat).
      * cbn [String.length] in *. lia.
      * destruct (is_regex_escape d); [cbn [String.length]; lia |].
        destruct (needs_escape d); cbn [String.length] in *; lia.
    + cbn [String.length]. lia.
Qed.

(** *** The tokenizer *)

Lemma copy_dquoted_length (n : nat) : forall room line,
  (room <= n)%nat ->
  (String.length (fst (copy_dquoted room line)) <= room)%nat.
Proof.
  induction n as [| n IH]; intros [| room] line L; try lia;
    try (destruct line; cbn; lia).
  destruct line as [| c r]; [cbn; lia |].
  cbn [copy_dquoted]. destruct (Ascii.eqb c dquote); [cbn; lia |].
  assert (L' : (room <= n)%nat) by lia.
  destruct r as [| c2 r2].
  - pose proof (IH room EmptyString L') as G.
    destruct (copy_dquoted room EmptyString). cbn in *. lia.
  - destruct room as [| room''].
    + pose proof (IH O (String c2 r2) L') as G.
      destruct (copy_dquoted O (String c2 r2)). cbn in *. lia.
    + destruct (Ascii.eqb c "\").
      * assert (L'' : (room'' <= n)%nat) by lia.
        pose proof (IH room'' r2 L'') as G.
        destruct (copy_dquoted room'' r2). cbn in *. lia.
      * pose proof (IH (S room'') (String c2 r2) L') as G.
        destruct (copy_dquoted (S room'') (String c2 r2)). cbn in *. lia.
Qed.

Lemma copy_squoted_length (room : nat) : forall line,
  (String.length (fst (copy_squoted room line)) <= room)%nat.
Proof.
  induction room as [| room IH]; intros [| c r]; cbn [copy_squoted]; try (cbn; lia).
  destruct (Ascii.eqb c "'"); [cbn; lia |].
  pose proof (IH r) as G. destruct (copy_squoted room r). cbn in *. lia.
Qed.

Lemma copy_bracketed_length (room : nat) : forall count line,
  (String.length (fst (copy_bracketed room count line)) <= room)%nat.
Proof.
  induction room as [| room IH]; intros count [| c r]; cbn [copy_bracketed];
    try (cbn; lia).
  destruct count as [| below]; [cbn; lia |].
  destruct (if Ascii.eqb c "[" then S (S below)
            else if Ascii.eqb c "]" then below else S below) as [| k] eqn:Ek;
    [cbn; lia |].
  pose proof (IH (S k) r) as G. destruct (copy_bracketed room (S k) r).
  cbn in *. lia.
Qed.

Lemma copy_plain_length (room : nat) : forall line,
  (String.length (fst (copy_plain room line)) <= room)%nat.
Proof.
  induction room as [| room IH]; intros [| c r]; cbn [copy_plain]; try (cbn; lia).
  destruct (isspace c || Ascii.eqb c "#" || Ascii.eqb c "[" || Ascii.eqb c "]");
    [cbn; lia |].
  pose proof (IH r) as G. destruct (copy_plain room r). cbn in *. lia.
Qed.

Lemma next_token_length (line : string) (token_size : nat) :
  (0 < token_size)%nat ->
  (String.length (snd (fst (bcl_next_token line token_size))) < token_size)%nat.
Proof.
  intro P. unfold bcl_next_token.
  destruct (skip_while isspace line) as [| c r]; [cbn; lia |].
  destruct (Ascii.eqb c "#"); [cbn; lia |].
  destruct (Ascii.eqb c dquote).
  { pose proof (copy_dquoted_length (token_size - 1) (token_size - 1) r (le_n _)) as G.
    destruct (copy_dquoted (token_size - 1) r). cbn in *. lia. }
  destruct (Ascii.eqb c "'").
  { pose proof (copy_squoted_length (token_size - 1) r) as G.
    destruct (copy_squoted (token_size - 1) r). cbn in *. lia. }
  destruct (Ascii.eqb c "[").
  { pose proof (copy_bracketed_length (token_size - 1) 1 r) as G.
    destruct (copy_bracketed (token_size - 1) 1 r). cbn in *. lia. }
  pose proof (copy_plain_length (token_size - 1) (String c r)) as G.
  destruct (copy_plain (token_size - 1) (String c r)). cbn in *. lia.
Qed.

Lemma raw_tokens_bounds (fuel : nat) : forall count line,
  (count < 256)%nat ->
  (List.length (raw_tokens fuel count line) <= 256 - count)%nat
  /\ Forall (fun t => (String.length t < BCL_MAX_TOKEN_LEN)%nat)
       (raw_tokens fuel count line).
Proof.
  induction fuel as [| fuel IH]; intros count line C; cbn [raw_tokens].
  - split; [cbn [List.length]; lia | constructor].
  - pose proof (next_token_length line BCL_MAX_TOKEN_LEN ltac:(unfold BCL_MAX_TOKEN_LEN; lia))
      as T.
    destruct (bcl_next_token line BCL_MAX_TOKEN_LEN) as [[found t] rest].
    cbn [fst snd] in T.
    destruct found; [| split; [cbn [List.length]; lia | constructor]].
    destruct (256 <=? S count)%nat eqn:E.
    + split; [cbn [List.length]; lia | constructor; [exact T | constructor]].
    + apply Nat.leb_gt in E. destruct (IH (S count) rest E) as [L F].
      split; [cbn [List.length]; lia | now constructor].
Qed.

Lemma take_name_length (room : nat) : forall s,
  (String.length (take_name room s) <= room)%nat.
Proof.
  induction room as [| room IH]; intros [| c r]; cbn [take_name]; try (cbn; lia).
  destruct (isalnum c || Ascii.eqb c "_"); cbn [String.length]; [| lia].
  specialize (IH r). lia.
Qed.

Lemma scan_index_length (room : nat) : forall depth s,
  (String.length (fst (scan_index room depth s)) <= room)%nat.
Proof.
  induction room as [| room IH]; intros depth [| c r]; cbn [scan_index];
    try (cbn; lia).
  destruct depth as [| below]; [cbn; lia |].
  destruct (Ascii.eqb c "(").
  { pose proof (IH (S (S below)) r) as G. destruct (scan_index room (S (S below)) r).
    cbn in *. lia. }
  destruct (Ascii.eqb c ")").
  { destruct below as [| b]; [cbn; lia |].
    pose proof (IH (S b) r) as G. destruct (scan_index room (S b) r).
    cbn in *. lia. }
  pose proof (IH (S below) r) as G. destruct (scan_index room (S below) r).
  cbn in *. lia.
Qed.

(** X9. [bcl_decode_escapes] never yields more characters than it reads,
    and gives back a text without backslash as it is. *)
Theorem decode_escapes_never_grows (s : string) :
  (String.length (bcl_decode_escapes s) <= String.length s)%nat
  /\ (strchr_mem "\" s = false -> bcl_decode_escapes s = s).
Proof.
  split; [now apply (decode_escapes_length_aux (String.length s)) |].
  apply decode_escapes_plain.
Qed.

Lemma decode_escapes_never_grows_witness :
  bcl_decode_escapes "SET x 10" = "SET x 10".
Proof.
  apply (proj2 (decode_escapes_never_grows "SET x 10")). reflexivity.
Defined.

(** X10. Tokens fit their buffers: [bcl_next_token] writes fewer characters
    than the buffer has room for, [bcl_parse_line] collects at most 256
    raw tokens, each shorter than BCL_MAX_TOKEN_LEN, and the name and the
    index that [bcl_expand_vars] copies stay within their room. *)
Theorem tokens_fit_their_buffers (line : string) :
  (forall token_size, (0 < token_size)%nat ->
     (String.length (snd (fst (bcl_next_token line token_size))) < token_size)%nat)
  /\ (List.length (raw_tokens (S (String.length line)) 0 line) <= 256)%nat
  /\ Forall (fun t => (String.length t < BCL_MAX_TOKEN_LEN)%nat)
       (raw_tokens (S (String.length line)) 0 line)
  /\ (forall room s, (String.length (take_name room s) <= room)%nat)
  /\ (forall room depth s,
        (String.length (fst (scan_index room depth s)) <= room)%nat).
Proof.
  split; [intros; now apply next_token_length |].
  destruct (raw_tokens_bounds (S (String.length line)) 0 line ltac:(lia)) as [L F].
  split; [lia |]. split; [exact F |].
  split; [apply take_name_length | apply scan_index_length].
Qed.

Lemma tokens_fit_their_buffers_witness :
  (String.length (snd (fst (bcl_next_token "abcdefgh rest" 4))) < 4)%nat.
Proof.
  apply (proj1 (tokens_fit_their_buffers "abcdefgh rest")). lia.
Defined.

(** ** Expanding variables *)

Lemma append_nil_r (s : string) : s ++ "" = s.
Proof. induction s as [| c r IH]; cbn; [reflexivity | now rewrite IH]. Qed.

Lemma append_assoc (a b c : string) : (a ++ b) ++ c = a ++ (b ++ c).
Proof. induction a as [| x a IH]; cbn; [reflexivity | now rewrite IH]. Qed.

Lemma drop_append (a s : string) : drop (String.length a) (a ++ s) = s.
Proof. induction a as [| c a IH]; cbn; [now destruct s | exact IH]. Qed.

Lemma skip_char_length (c : ascii) (s : string) :
  (String.length (skip_char c s) <= String.length s)%nat.
Proof. destruct s as [| d r]; cbn; [lia |]. destruct (Ascii.eqb c d); cbn; lia. Qed.

Lemma scan_index_rest_length (room : nat) : forall depth s,
  (String.length (fst (scan_index room depth s))
   + String.length (snd (scan_index room depth s)) <= String.length s)%nat.
Proof.
  induction room as [| room IH]; intros depth [| c r]; cbn [scan_index];
    try (cbn; lia).
  destruct depth as [| below]; [cbn; lia |].
  destruct (Ascii.eqb c "(").
  { pose proof (IH (S (S below)) r) as G. destruct (scan_index room (S (S below)) r).
    cbn in *. lia. }
  destruct (Ascii.eqb c ")").
  { destruct below as [| b]; [cbn; lia |].
    pose proof (IH (S b) r) as G. destruct (scan_index room (S b) r).
    cbn in *. lia. }
  pose proof (IH (S below) r) as G. destruct (scan_index room (S below) r).
  cbn in *. lia.
Qed.

(** The recursion bound of [bcl_expand_vars] is immaterial once it
    exceeds the length of the text. *)
Lemma expand_vars_fuel (interp : bcl_interp_t) (n : nat) : forall f1 f2 s,
  (String.length s <= n)%nat ->
  (String.length s < f1)%nat -> (String.length s < f2)%nat ->
  expand_vars_loop f1 interp s = expand_vars_loop f2 interp s.
Proof.
  induction n as [| n IH]; intros [| f1] [| f2] s Ln L1 L2; try lia.
  - destruct s; [reflexivity | cbn in Ln; lia].
  - destruct s as [| c rest]; [reflexivity |].
    cbn [String.length] in *. cbn [expand_vars_loop].
    destruct rest as [| c1 r1] eqn:Er; [reflexivity |]. rewrite <- Er in *.
    assert (Lrest : (String.length rest <= n)%nat) by lia.
    destruct (Ascii.eqb c "$").
    + set (varname := take_name 255 rest).
      pose proof (drop_length (String.length varname) rest) as Ld.
      destruct (drop (String.length varname) rest) as [| d r2] eqn:Ea.
      * f_equal. apply IH; cbn; lia.
      * destruct (Ascii.eqb d "(") eqn:Ed.
        -- apply Ascii.eqb_eq in Ed. subst d.
           pose proof (scan_index_rest_length 255 1 r2) as Ls.
           destruct (scan_index 255 1 r2) as [index_str at_close].
           cbn [fst snd] in Ls.
           pose proof (skip_char_length ")" at_close) as Lk.
           cbn [String.length] in Ld.
           rewrite (IH f1 f2 index_str) by lia.
           f_equal. apply IH; lia.
        -- assert (forall A (x y : A), match d with
                                       | "("%char => x
                                       | _ => y
                                       end = y) as Hm.
           { intros A x y.
             destruct d as [[] [] [] [] [] [] [] []]; try reflexivity.
             discriminate Ed. }
           rewrite !Hm. f_equal. apply IH; cbn [String.length] in *; lia.
    + f_equal. apply IH; lia.
Qed.

Lemma expand_vars_unfold (interp : bcl_interp_t) (f : nat) (s : string) :
  (String.length s < f)%nat ->
  expand_vars_loop f interp s = bcl_expand_vars interp s.
Proof.
  intro L. unfold bcl_expand_vars.
  apply (expand_vars_fuel interp (String.length s)); lia.
Qed.

Lemma expand_vars_step_plain (interp : bcl_interp_t) f c rest :
  Ascii.eqb c "$" = false -> rest <> "" ->
  expand_vars_loop (S f) interp (String c rest)
  = String c (expand_vars_loop f interp rest).
Proof.
  intros N R. destruct rest; [congruence |]. cbn [expand_vars_loop]. now rewrite N.
Qed.

Lemma expand_vars_step_dollar (interp : bcl_interp_t) f rest :
  rest <> "" ->
  expand_vars_loop (S f) interp (String "$" rest)
  = let varname := take_name 255 rest in
    let after := drop (String.length varname) rest in
    match after with
    | String "(" r2 =>
        let (index_str, at_close) := scan_index 255 1 r2 in
        let after_idx := skip_char ")" at_close in
        let expanded_index := expand_vars_loop f interp index_str in
        let full_varname :=
          take 511 (varname ++ "(" ++ expanded_index ++ ")") in
        value_text (bcl_var_get interp full_varname)
          ++ expand_vars_loop f interp after_idx
    | _ =>
        value_text (bcl_var_get interp varname)
          ++ expand_vars_loop f interp after
    end.
Proof.
  intro R. destruct rest; [congruence |]. reflexivity.
Qed.

Lemma expand_vars_prefix (interp : bcl_interp_t) (a : string) : forall s,
  strchr_mem "$" a = false ->
  bcl_expand_vars interp (a ++ s) = a ++ bcl_expand_vars interp s.
Proof.
  induction a as [| c a IH]; intros s N; [reflexivity |].
  cbn [strchr_mem] in N. apply orb_false_elim in N as [Nc Na].
  rewrite Ascii.eqb_sym in Nc.
  unfold bcl_expand_vars at 1. cbn [append String.length].
  destruct (a ++ s) as [| c1 r1] eqn:E.
  - destruct a; [| discriminate]. cbn in E. subst s. reflexivity.
  - rewrite <- E.
    rewrite expand_vars_step_plain by (auto; rewrite E; discriminate).
    rewrite expand_vars_unfold by lia. now rewrite IH.
Qed.

Lemma take_name_exact (name : string) : forall room s,
  (String.length name <= room)%nat ->
  all_chars name_char name = true ->
  match s with
  | EmptyString => True
  | String c _ => name_char c = false
  end ->
  take_name room (name ++ s) = name.
Proof.
  induction name as [| c name IH]; intros room s L A E.
  - cbn [append]. destruct room; [now destruct s |].
    destruct s as [| d r]; [reflexivity |]. cbn [take_name].
    unfold name_char in E. now rewrite E.
  - cbn [String.length] in L. destruct room as [| room]; [lia |].
    apply andb_prop in A as [Ac A]. cbn [append take_name].
    unfold name_char in Ac. rewrite Ac. f_equal. apply IH; auto. lia.
Qed.

Lemma ends_name_stops (s : string) :
  ends_name s = true ->
  match s with
  | EmptyString => True
  | String c _ => name_char c = false
  end.
Proof.
  destruct s as [| c r]; [trivial |]. cbn.
  intro E. now apply negb_true_iff, orb_false_elim in E as [E _].
Qed.

Lemma expand_vars_variable (interp : bcl_interp_t) (name s : string) :
  name_ok name = true -> ends_name s = true -> name ++ s <> "" ->
  bcl_expand_vars interp ("$" ++ name ++ s)
  = value_text (bcl_var_get interp name) ++ bcl_expand_vars interp s.
Proof.
  intros Hn He Hne. unfold name_ok in Hn. apply andb_prop in Hn as [Ln An].
  apply Nat.leb_le in Ln.
  unfold bcl_expand_vars at 1. cbn [append String.length].
  rewrite expand_vars_step_dollar by exact Hne. cbv zeta.
  rewrite (take_name_exact name 255 s Ln An (ends_name_stops s He)), drop_append.
  assert (Ls : (String.length s < S (String.length (name ++ s)))%nat).
  { rewrite length_append. lia. }
  destruct s as [| d r2].
  - rewrite expand_vars_unfold by exact Ls. reflexivity.
  - cbn in He. apply negb_true_iff, orb_false_elim in He as [_ Ed].
    destruct d as [[] [] [] [] [] [] [] []]; try discriminate Ed;
      cbv iota beta; now rewrite expand_vars_unfold by exact Ls.
Qed.

Lemma scan_index_exact (idx : string) : forall room s,
  (String.length idx <= room)%nat ->
  strchr_mem "(" idx = false -> strchr_mem ")" idx = false ->
  scan_index room 1 (idx ++ String ")" s) = (idx, String ")" s).
Proof.
  induction idx as [| c idx IH]; intros room s L No Nc.
  - cbn [append]. destruct room; reflexivity.
  - cbn [String.length] in L. destruct room as [| room]; [lia |].
    cbn [strchr_mem] in No, Nc.
    apply orb_false_elim in No as [No1 No]. apply orb_false_elim in Nc as [Nc1 Nc].
    cbn [append scan_index].
    rewrite Ascii.eqb_sym, No1. rewrite (Ascii.eqb_sym c ")"), Nc1.
    rewrite IH by (auto; lia). reflexivity.
Qed.

Lemma expand_vars_element (interp : bcl_interp_t) (name idx s : string) :
  name_ok name = true -> index_ok idx = true ->
  bcl_expand_vars interp ("$" ++ name ++ "(" ++ idx ++ ")" ++ s)
  = value_text
      (bcl_var_get interp
         (take 511 (name ++ "(" ++ bcl_expand_vars interp idx ++ ")")))
    ++ bcl_expand_vars interp s.
Proof.
  intros Hn Hi. unfold name_ok in Hn. apply andb_prop in Hn as [Ln An].
  apply Nat.leb_le in Ln.
  unfold index_ok in Hi. apply andb_prop in Hi as [Hi Nc].
  apply andb_prop in Hi as [Li No]. apply Nat.leb_le in Li.
  apply negb_true_iff in No, Nc.
  unfold bcl_expand_vars at 1. cbn [append String.length].
  rewrite expand_vars_step_dollar by (destruct name; discriminate). cbv zeta.
  rewrite (take_name_exact name 255 (String "(" (idx ++ String ")" s)) Ln An eq_refl).
  rewrite drop_append.
  rewrite (scan_index_exact idx 255 s Li No Nc). cbn [skip_char Ascii.eqb Bool.eqb].
  assert (L0 : String.length (name ++ String "(" (idx ++ String ")" s))
               = (String.length name + S (String.length idx + S (String.length s)))%nat).
  { rewrite length_append. cbn [String.length]. rewrite length_append. reflexivity. }
  rewrite !expand_vars_unfold by (rewrite L0; lia).
  reflexivity.
Qed.

(** X11. [bcl_expand_vars] copies text without a dollar sign as it is,
    replaces [$name] by the value of the variable (by nothing when it is
    unset), and [$name(index)] by the value of the array element whose
    index is expanded first. *)
Theorem expand_vars_substitutes (interp : bcl_interp_t) :
  (forall a s, strchr_mem "$" a = false ->
     bcl_expand_vars interp (a ++ s) = a ++ bcl_expand_vars interp s)
  /\ (forall a, strchr_mem "$" a = false -> bcl_expand_vars interp a = a)
  /\ (forall name s,
        name_ok name = true -> ends_name s = true -> name ++ s <> "" ->
        bcl_expand_vars interp ("$" ++ name ++ s)
        = value_text (bcl_var_get interp name) ++ bcl_expand_vars interp s)
  /\ (forall name idx s,
        name_ok name = true -> index_ok idx = true ->
        bcl_expand_vars interp ("$" ++ name ++ "(" ++ idx ++ ")" ++ s)
        = value_text
            (bcl_var_get interp
               (take 511 (name ++ "(" ++ bcl_expand_vars interp idx ++ ")")))
          ++ bcl_expand_vars interp s).
Proof.
  split; [intros; now apply expand_vars_prefix |].
  split.
  { intros a N. rewrite <- (append_nil_r a) at 1.
    rewrite expand_vars_prefix by exact N. cbn. apply append_nil_r. }
  split; [intros; now apply expand_vars_variable |].
  intros; now apply expand_vars_element.
Qed.

Lemma expand_vars_substitutes_witness :
  bcl_expand_vars shadow_state "$x, $nothing." = "inner, ."
  /\ bcl_expand_vars shadow_state "plain text" = "plain text".
Proof.
  split.
  - exact (proj1 (proj2 (proj2 (expand_vars_substitutes shadow_state)))
             "x" ", $nothing." eq_refl eq_refl ltac:(discriminate)).
  - apply (proj1 (proj2 (expand_vars_substitutes shadow_state))). reflexivity.
Defined.

(** ** Expanding subcommands *)

Lemma all_chars_not_mem (p : ascii -> bool) (c : ascii) (s : string) :
  p c = false -> all_chars p s = true -> strchr_mem c s = false.
Proof.
  intro Pc. induction s as [| d r IH]; intro A; [reflexivity |].
  cbn in A. apply andb_prop in A as [Pd A]. cbn [strchr_mem].
  rewrite (IH A), orb_false_r.
  destruct (Ascii.eqb c d) eqn:E; [| reflexivity].
  apply Ascii.eqb_eq in E. congruence.
Qed.

Lemma strchr_mem_append (c : ascii) (a b : string) :
  strchr_mem c (a ++ b) = strchr_mem c a || strchr_mem c b.
Proof.
  induction a as [| d a IH]; cbn; [reflexivity |]. now rewrite IH, orb_assoc.
Qed.

Section SubcommandText.
Context {libm : Libm} {lib : Library}.
Variable H : handles.

Lemma scan_bracket_rest_length (s : string) : forall count,
  (String.length (snd (scan_bracket count s)) <= String.length s)%nat.
Proof.
  induction s as [| c r IH]; intro count; cbn [scan_bracket]; [cbn; lia |].
  destruct (if Ascii.eqb c "[" then S count
            else if Ascii.eqb c "]" then Nat.pred count else count) as [| k];
    [cbn; lia |].
  pose proof (IH (S k)) as G. destruct (scan_bracket (S k) r). cbn in *. lia.
Qed.

(** The bound of the copy loop is immaterial once it exceeds the length
    of the text. *)
Lemma expand_subcommands_fuel (n : nat) : forall k1 k2 s st,
  (String.length s <= n)%nat ->
  (String.length s < k1)%nat -> (String.length s < k2)%nat ->
  expand_subcommands_loop H k1 s st = expand_subcommands_loop H k2 s st.
Proof.
  induction n as [| n IH]; intros [| k1] [| k2] s st Ln L1 L2; try lia.
  - destruct s; [reflexivity | cbn in Ln; lia].
  - destruct s as [| c r]; [reflexivity |].
    cbn [String.length] in *. cbn [expand_subcommands_loop].
    destruct (Ascii.eqb c "[").
    + pose proof (scan_bracket_rest_length r 1) as Ls.
      destruct (scan_bracket 1 r) as [cmd at_close]. cbn [snd] in Ls.
      pose proof (skip_char_length "]" at_close) as Lk.
      unfold bind.
      destruct (h_expand_subcommands H cmd st) as [[expanded st1] |]; [| reflexivity].
      destruct (bcl_eval_subcommand H expanded st1) as [[res st2] |]; [| reflexivity].
      rewrite (IH k1 k2 (skip_char "]" at_close) st2) by lia. reflexivity.
    + unfold bind. rewrite (IH k1 k2 r st) by lia. reflexivity.
Qed.

Lemma expand_subcommands_unfold (k : nat) (s : string) (st : bcl_interp_t) :
  (String.length s < k)%nat ->
  expand_subcommands_loop H k s st = expand_subcommands_body H s st.
Proof.
  intro L. unfold expand_subcommands_body.
  apply (expand_subcommands_fuel (String.length s)); lia.
Qed.

Lemma expand_subcommands_step_plain (k : nat) (c : ascii) (r : string) st :
  Ascii.eqb c "[" = false ->
  expand_subcommands_loop H (S k) (String c r) st
  = match expand_subcommands_loop H k r st with
    | Some (rest, st') => Some (String c rest, st')
    | None => None
    end.
Proof.
  intro N. cbn [expand_subcommands_loop]. rewrite N. unfold bind, ret.
  now destruct (expand_subcommands_loop H k r st) as [[rest st'] |].
Qed.

Lemma expand_subcommands_prefix (a : string) : forall s st,
  strchr_mem "[" a = false ->
  expand_subcommands_body H (a ++ s) st
  = match expand_subcommands_body H s st with
    | Some (r, st') => Some (a ++ r, st')
    | None => None
    end.
Proof.
  induction a as [| c a IH]; intros s st N.
  - cbn [append]. now destruct (expand_subcommands_body H s st) as [[r st'] |].
  - cbn [strchr_mem] in N. apply orb_false_elim in N as [Nc Na].
    rewrite Ascii.eqb_sym in Nc.
    unfold expand_subcommands_body at 1.
    cbn [append String.length].
    rewrite (expand_subcommands_step_plain _ c (a ++ s) st Nc).
    rewrite expand_subcommands_unfold by lia.
    rewrite (IH s st Na).
    now destruct (expand_subcommands_body H s st) as [[r st'] |].
Qed.

Lemma expand_subcommands_plain (a : string) (st : bcl_interp_t) :
  strchr_mem "[" a = false -> expand_subcommands_body H a st = Some (a, st).
Proof.
  intro N. rewrite <- (append_nil_r a) at 1.
  rewrite expand_subcommands_prefix by exact N. cbn. now rewrite append_nil_r.
Qed.

End SubcommandText.

(** X12. [bcl_expand_subcommands] copies text without an opening bracket as
    it is and runs nothing: the interpreter is the same afterwards. *)
Theorem expand_subcommands_copies_plain_text (libm : Libm) (lib : Library)
  (H : handles) (a : string) :
  strchr_mem "[" a = false ->
  (forall s st,
      expand_subcommands_body H (a ++ s) st
      = match expand_subcommands_body H s st with
        | Some (r, st') => Some (a ++ r, st')
        | None => None
        end)
  /\ (forall st, expand_subcommands_body H a st = Some (a, st))
  /\ (forall n st, bcl_expand_subcommands (S n) a st = Some (a, st)).
Proof.
  intro N. split; [intros; now apply expand_subcommands_prefix |].
  split; [intro st; now apply expand_subcommands_plain |].
  intros n st. apply (expand_subcommands_plain (run n)). exact N.
Qed.

Lemma expand_subcommands_copies_plain_text_witness :
  @bcl_expand_subcommands plain_libm no_library 1 "x] > 1" bcl_interp_create
  = Some ("x] > 1", bcl_interp_create).
Proof.
  apply (proj2 (proj2 (expand_subcommands_copies_plain_text plain_libm no_library
                         (@run plain_libm no_library 0) "x] > 1" eq_refl))).
Defined.

(** ** A line of plain words *)

Lemma plain_char_inv (c : ascii) :
  plain_char c = true ->
  isspace c = false /\ Ascii.eqb c "#" = false /\ Ascii.eqb c "[" = false
  /\ Ascii.eqb c "]" = false /\ Ascii.eqb c "$" = false
  /\ Ascii.eqb c "\" = false /\ Ascii.eqb c "'" = false
  /\ Ascii.eqb c dquote = false.
Proof.
  unfold plain_char. intro P. apply negb_true_iff in P.
  apply orb_false_elim in P as [P Pq]. apply orb_false_elim in P as [Ps Pm].
  cbn [strchr_mem] in Pm.
  repeat (apply orb_false_elim in Pm as [? Pm]). auto 10.
Qed.

Lemma plain_word_inv (w : string) :
  plain_word w = true ->
  w <> "" /\ (String.length w < BCL_MAX_TOKEN_LEN)%nat
  /\ all_chars plain_char w = true.
Proof.
  unfold plain_word. destruct w as [| c r]; [discriminate |].
  intro P. apply andb_prop in P as [L A]. apply Nat.ltb_lt in L.
  repeat split; [discriminate | exact L | exact A].
Qed.

Lemma plain_not_mem (c : ascii) (w : string) :
  plain_char c = false -> all_chars plain_char w = true -> strchr_mem c w = false.
Proof. apply all_chars_not_mem. Qed.

(** The plain-token loop copies a plain word up to the white space (or
    the end) that follows it. *)
Lemma copy_plain_word (w : string) : forall room rest,
  all_chars plain_char w = true -> (String.length w <= room)%nat ->
  match rest with
  | EmptyString => True
  | String c _ => isspace c = true
  end ->
  copy_plain room (w ++ rest) = (w, rest).
Proof.
  induction w as [| c w IH]; intros room rest A L R.
  - cbn [append]. destruct room; [now destruct rest |].
    destruct rest as [| d r]; [reflexivity |]. cbn [copy_plain]. now rewrite R.
  - cbn [String.length] in L. destruct room as [| room]; [lia |].
    cbn in A. apply andb_prop in A as [Pc A].
    destruct (plain_char_inv c Pc) as (Hs & Hh & Ho & Hc & _).
    cbn [append copy_plain]. rewrite Hs, Hh, Ho, Hc. cbn [orb].
    rewrite IH by (auto; lia). reflexivity.
Qed.

Lemma next_token_plain_word (w rest : string) :
  plain_word w = true ->
  match rest with
  | EmptyString => True
  | String c _ => isspace c = true
  end ->
  bcl_next_token (w ++ rest) BCL_MAX_TOKEN_LEN = (true, w, rest).
Proof.
  intros P R. destruct (plain_word_inv w P) as (Hne & L & A).
  destruct w as [| c w]; [congruence |].
  pose proof A as A'. cbn in A'. apply andb_prop in A' as [Pc _].
  destruct (plain_char_inv c Pc) as (Hs & Hh & Ho & _ & _ & _ & Hq & Hd).
  unfold bcl_next_token. cbn [append skip_while]. rewrite Hs, Hh, Hd, Hq, Ho.
  change (String c (w ++ rest)) with (String c w ++ rest).
  rewrite copy_plain_word; auto.
  unfold BCL_MAX_TOKEN_LEN in *. lia.
Qed.

Lemma next_token_skips_space (c : ascii) (s : string) (size : nat) :
  isspace c = true -> bcl_next_token (String c s) size = bcl_next_token s size.
Proof. intro S. unfold bcl_next_token. cbn [skip_while]. now rewrite S. Qed.

Lemma raw_tokens_skips_space (fuel count : nat) (c : ascii) (s : string) :
  isspace c = true ->
  raw_tokens fuel count (String c s) = raw_tokens fuel count s.
Proof.
  intro S. destruct fuel; [reflexivity |]. cbn [raw_tokens].
  now rewrite next_token_skips_space.
Qed.

Lemma join_cons (w w2 : string) (ws : list string) :
  join " " (w :: w2 :: ws) = w ++ String " " (join " " (w2 :: ws)).
Proof. reflexivity. Qed.

Lemma raw_tokens_plain_words (ws : list string) : forall fuel count,
  forallb plain_word ws = true ->
  (count + List.length ws <= 256)%nat -> (List.length ws <= fuel)%nat ->
  raw_tokens fuel count (join " " ws) = ws.
Proof.
  induction ws as [| w ws IH]; intros fuel count P C F.
  - destruct fuel; reflexivity.
  - cbn [forallb] in P. apply andb_prop in P as [Pw P].
    cbn [List.length] in C, F. destruct fuel as [| fuel]; [lia |].
    destruct ws as [| w2 ws].
    + cbn [join raw_tokens].
      rewrite <- (append_nil_r w) at 1.
      rewrite (next_token_plain_word w "" Pw I).
      destruct (256 <=? S count)%nat; [reflexivity |].
      f_equal. destruct fuel; reflexivity.
    + rewrite join_cons. cbn [raw_tokens].
      rewrite (next_token_plain_word w (String " " (join " " (w2 :: ws))) Pw eq_refl).
      destruct (256 <=? S count)%nat eqn:E.
      { apply Nat.leb_le in E. cbn [List.length] in C. lia. }
      f_equal. rewrite raw_tokens_skips_space by reflexivity.
      apply IH; auto; cbn [List.length] in *; lia.
Qed.

Lemma join_words_length (ws : list string) :
  forallb plain_word ws = true ->
  (List.length ws <= S (String.length (join " " ws)))%nat.
Proof.
  induction ws as [| w ws IH]; intro P; [cbn; lia |].
  cbn [forallb] in P. apply andb_prop in P as [Pw P].
  destruct (plain_word_inv w Pw) as (Hne & _ & _).
  destruct ws as [| w2 ws].
  - cbn. lia.
  - rewrite join_cons, length_append. cbn [String.length List.length] in *.
    specialize (IH P). lia.
Qed.

Lemma join_words_no_bracket (ws : list string) :
  forallb plain_word ws = true -> strchr_mem "[" (join " " ws) = false.
Proof.
  induction ws as [| w ws IH]; intro P; [reflexivity |].
  cbn [forallb] in P. apply andb_prop in P as [Pw P].
  destruct (plain_word_inv w Pw) as (_ & _ & A).
  destruct ws as [| w2 ws].
  - cbn [join]. now apply (plain_not_mem "[" w).
  - rewrite join_cons, strchr_mem_append. cbn [strchr_mem].
    rewrite (plain_not_mem "[" w eq_refl A), (IH P). reflexivity.
Qed.

Lemma join_words_not_comment (ws : list string) :
  forallb plain_word ws = true -> is_comment (join " " ws) = false.
Proof.
  destruct ws as [| w ws]; intro P; [reflexivity |].
  cbn [forallb] in P. apply andb_prop in P as [Pw P].
  destruct (plain_word_inv w Pw) as (Hne & _ & A).
  destruct w as [| c w]; [congruence |].
  cbn in A. apply andb_prop in A as [Pc _].
  destruct (plain_char_inv c Pc) as (Hs & Hh & _).
  assert (E : exists r, join " " (String c w :: ws) = String c r).
  { destruct ws; cbn; eauto. }
  destruct E as [r ->]. unfold is_comment. cbn [skip_while]. rewrite Hs.
  destruct c as [[] [] [] [] [] [] [] []]; try reflexivity; discriminate Hh.
Qed.

Lemma plain_word_unchanged (interp : bcl_interp_t) (w : string) :
  plain_word w = true -> bcl_expand_vars interp (bcl_decode_escapes w) = w.
Proof.
  intro P. destruct (plain_word_inv w P) as (_ & _ & A).
  rewrite decode_escapes_plain by now apply (plain_not_mem "\" w).
  rewrite <- (append_nil_r w) at 1.
  rewrite expand_vars_prefix by now apply (plain_not_mem "$" w).
  cbn. apply append_nil_r.
Qed.

Lemma map_plain_words (interp : bcl_interp_t) (ws : list string) :
  forallb plain_word ws = true ->
  map (fun t => bcl_expand_vars interp (bcl_decode_escapes t)) ws = ws.
Proof.
  induction ws as [| w ws IH]; intro P; [reflexivity |].
  cbn [forallb] in P. apply andb_prop in P as [Pw P].
  cbn [map]. now rewrite plain_word_unchanged, IH.
Qed.

(** X13. A line of at most 256 plain words (no white space, quote, bracket,
    dollar, backslash or hash sign; each shorter than the token buffer)
    joined by single spaces parses into exactly these words. *)
Theorem plain_words_parse_verbatim (libm : Libm) (lib : Library) (H : handles)
  (ws : list string) (st : bcl_interp_t) :
  forallb plain_word ws = true -> (List.length ws <= 256)%nat ->
  bcl_parse_line H (join " " ws) st = Some (ws, st).
Proof.
  intros P L. unfold bcl_parse_line.
  rewrite join_words_not_comment by exact P.
  unfold bind. rewrite expand_subcommands_plain by now apply join_words_no_bracket.
  unfold get_interp, ret.
  rewrite raw_tokens_plain_words; auto.
  - now rewrite map_plain_words.
  - now apply join_words_length.
Qed.

Lemma plain_words_parse_verbatim_witness :
  bcl_parse_line (@run plain_libm no_library 0) "SET total 10" bcl_interp_create
  = Some (["SET"; "total"; "10"], bcl_interp_create).
Proof.
  apply (plain_words_parse_verbatim plain_libm no_library _ ["SET"; "total"; "10"]).
  - reflexivity.
  - cbn. lia.
Defined.

(** ** Evaluation: scopes, surplus arguments, a leading minus *)

(** X14. Evaluation keeps the scope discipline: when [bcl_eval],
    [bcl_exec_block] or [bcl_eval_structured] returns, the scope depth and
    the enclosing scopes are those at entry, so a script started at
    global level ends at global level. *)
Theorem evaluation_keeps_scope_depth (libm : Libm) (lib : Library) :
  library_keeps_frames lib ->
  forall fuel,
    (forall code st r st',
        bcl_eval fuel code st = Some (r, st') ->
        scope_depth st' = scope_depth st
        /\ tl (scope_stack st') = tl (scope_stack st))
    /\ (forall block st r st',
          bcl_exec_block fuel block st = Some (r, st') ->
          scope_depth st' = scope_depth st
          /\ tl (scope_stack st') = tl (scope_stack st))
    /\ (forall code st r st',
          bcl_eval_structured fuel code st = Some (r, st') ->
          scope_depth st' = scope_depth st
          /\ tl (scope_stack st') = tl (scope_stack st))
    /\ (forall code st r st',
          scope_stack st = [] ->
          bcl_eval_structured fuel code st = Some (r, st') ->
          scope_stack st' = []).
Proof.
  intros Hlib fuel.
  destruct (run_keeps_frames Hlib fuel) as (Hb & He & _).
  assert (Hs : forall code st r st',
             bcl_eval_structured fuel code st = Some (r, st') -> same_frames st st').
  { intros code st r st' E. unfold bcl_eval_structured in E.
    unfold bind, get_interp, defined in E.
    destruct (bcl_parse_blocks (heap st) code) as [[root h] |]; [| discriminate].
    unfold modify in E.
    apply (same_frames_trans st (set_heap st h) st').
    - now apply same_frames_stack.
    - exact (Hb (Some root) _ _ _ E). }
  split; [intros code st r st' E; exact (He code st r st' E) |].
  split; [intros block st r st' E; exact (Hb block st r st' E) |].
  split; [exact Hs |].
  intros code st r st' E0 E. destruct (Hs code st r st' E) as [L _].
  rewrite E0 in L. cbn in L. now apply length_zero_iff_nil in L.
Qed.

Lemma evaluation_keeps_scope_depth_witness :
  exists r st',
    @bcl_eval_structured plain_libm no_library 10 (script double_script)
      bcl_interp_create = Some (r, st')
    /\ scope_stack st' = [].
Proof.
  assert (exists r st',
             @bcl_eval_structured plain_libm no_library 10 (script double_script)
               bcl_interp_create = Some (r, st')) as (r & st' & E)
    by (eexists; eexists; vm_compute; reflexivity).
  exists r, st'. split; [exact E |].
  exact (proj2 (proj2 (proj2 (evaluation_keeps_scope_depth plain_libm no_library
                                no_library_keeps_frames 10)))
           (script double_script) bcl_interp_create r st' eq_refl E).
Defined.

Lemma bind_params_surplus (ps : list bcl_param_t) : forall args extra st,
  (List.length ps <= List.length args)%nat ->
  bind_params ps (args ++ extra) st = bind_params ps args st.
Proof.
  induction ps as [| p ps IH]; intros args extra st L.
  - now destruct args.
  - destruct args as [| a args]; [cbn in L; lia |].
    cbn [app bind_params]. apply IH. cbn in L. lia.
Qed.

Lemma count_required_le (ps : list bcl_param_t) :
  (count_required ps <= List.length ps)%nat.
Proof.
  induction ps as [| p ps IH]; cbn; [lia |]. destruct (optional p); lia.
Qed.

(** X15. A procedure called with more arguments than it has parameters
    ignores the surplus ones. *)
Theorem proc_call_ignores_surplus_arguments (H : handles) (name : string)
  (args extra : list bcl_value_t) (st : bcl_interp_t) (proc : bcl_procedure_t) :
  bcl_hash_get (procedures st) name = Some proc ->
  (List.length (params proc) <= List.length args)%nat ->
  bcl_proc_call H name (args ++ extra) st = bcl_proc_call H name args st.
Proof.
  intros Hp L. unfold bcl_proc_call, bind, get_interp. rewrite Hp.
  pose proof (count_required_le (params proc)) as Hc.
  destruct (List.length (args ++ extra) <? count_required (params proc))%nat eqn:E1.
  { apply Nat.ltb_lt in E1. rewrite length_app in E1. lia. }
  destruct (List.length args <? count_required (params proc))%nat eqn:E2.
  { apply Nat.ltb_lt in E2. lia. }
  unfold lift. destruct (bcl_scope_push st) as [pushed st1].
  destruct pushed; try reflexivity.
  unfold modify. now rewrite bind_params_surplus.
Qed.

Lemma proc_call_ignores_surplus_arguments_witness :
  bcl_proc_call (@run plain_libm no_library 5) "double" ["21"; "unused"] double_defined
  = bcl_proc_call (@run plain_libm no_library 5) "double" ["21"] double_defined.
Proof.
  apply (proc_call_ignores_surplus_arguments _ "double" ["21"] ["unused"]
           double_defined
           {| p_name := "double";
              params := [ {| param_name := "x"; optional := false |} ];
              body_block := Some 2%nat |}).
  - reflexivity.
  - cbn. lia.
Defined.

Section ExprMore.
Context {libm : Libm}.

Lemma parse_minus (e : string) :
  parse_expr_token (String "-" e) = (tok TOK_MINUS, e).
Proof. unfold parse_expr_token. cbn. now destruct e. Qed.

Lemma parse_number_nonempty (e rest : string) (v : double) :
  parse_expr_token e
  = ({| tok_type := TOK_NUMBER; tok_value := v; func_name := "" |}, rest) ->
  (1 <= String.length e)%nat.
Proof.
  destruct e; [discriminate | cbn; lia].
Qed.

End ExprMore.

(** X16. EXPR has no unary minus: an expression that is a single number
    evaluates to that number, and so does the same expression with a
    minus sign in front. *)
Theorem expr_drops_leading_minus (libm : Libm) (e rest : string) (v : double) :
  parse_expr_token e
  = ({| tok_type := TOK_NUMBER; tok_value := v; func_name := "" |}, rest) ->
  tok_type (fst (parse_expr_token rest)) = TOK_END ->
  eval_expr_text e = Some v /\ eval_expr_text (String "-" e) = Some v.
Proof.
  intros Pe Pr. pose proof (parse_number_nonempty e rest v Pe) as L.
  destruct (parse_expr_token rest) as [t pos'] eqn:Er. cbn [fst] in Pr.
  split.
  - unfold eval_expr_text.
    destruct (String.length e) as [| n] eqn:El; [lia |].
    cbn [expr_loop]. rewrite Pe. cbn [tok_type tok_value].
    change (push v []) with (Some [v]).
    cbn [expr_loop]. rewrite Er, Pr. reflexivity.
  - unfold eval_expr_text. cbn [String.length].
    destruct (String.length e) as [| n] eqn:El; [lia |].
    cbn [expr_loop]. rewrite parse_minus. cbn [tok_type tok pop_higher].
    change (push (tok TOK_MINUS) []) with (Some [tok TOK_MINUS]).
    rewrite Pe. cbn [tok_type tok_value].
    change (push v []) with (Some [v]).
    cbn [expr_loop]. rewrite Er, Pr. reflexivity.
Qed.

Lemma expr_drops_leading_minus_witness :
  @eval_expr_text plain_libm "-5" = Some (d_of_Z 5)
  /\ @bcl_cmd_expr plain_libm bcl_interp_create ["-5"]
     = Some (BCL_OK, Some "5", bcl_interp_create).
Proof.
  destruct (expr_drops_leading_minus plain_libm "5" "" (d_of_Z 5) eq_refl eq_refl)
    as [_ E].
  split; [exact E |]. unfold bcl_cmd_expr. cbn [join]. rewrite E. reflexivity.
Defined.

(** ** The condition of a block header *)

Lemma isspace_tolower (c : ascii) : isspace (tolower c) = isspace c.
Proof.
  unfold isspace. rewrite code_tolower.
  destruct (isupper c) eqn:U; [| reflexivity].
  unfold isupper in U. apply andb_prop in U as [L R].
  apply Z.leb_le in L, R.
  repeat match goal with
         | |- context [?x =? ?y] =>
             destruct (Z.eqb_spec x y); try lia
         | |- context [?x <=? ?y] =>
             destruct (Z.leb_spec x y); try lia
         end; reflexivity.
Qed.

(** A C string equal to a word up to case has the length of the word and
    no more white space than the word. *)
Lemma strcase_eq_word (w : string) : forall k,
  nul_free w = true -> nul_free k = true -> strcase_eq w k = true ->
  all_chars not_space k = true ->
  all_chars not_space w = true /\ String.length w = String.length k.
Proof.
  unfold strcase_eq.
  induction w as [| a w IH]; intros [| b k] Nw Nk E A.
  - split; reflexivity.
  - exfalso. cbn in Nk. apply andb_prop in Nk as [Nb _].
    apply negb_true_iff, Z.eqb_neq, tolower_not_nul in Nb.
    cbn in E. apply Z.eqb_eq in E. lia.
  - exfalso. cbn in Nw. apply andb_prop in Nw as [Na _].
    apply negb_true_iff, Z.eqb_neq, tolower_not_nul in Na.
    cbn in E. apply Z.eqb_eq in E. lia.
  - cbn in Nw, Nk. apply andb_prop in Nw as [_ Nw]. apply andb_prop in Nk as [_ Nk].
    cbn in A. apply andb_prop in A as [Ab A].
    cbn [bcl_strcasecmp] in E.
    destruct (code (tolower a) =? code (tolower b)) eqn:Ec; cbn [negb] in E.
    + apply Z.eqb_eq, code_inj in Ec.
      destruct (IH k Nw Nk E A) as [Aw L].
      split; [| cbn; now rewrite L].
      cbn. rewrite Aw, andb_true_r. unfold not_space in *.
      now rewrite <- (isspace_tolower a), Ec, isspace_tolower.
    + apply Z.eqb_neq in Ec. apply Z.eqb_eq in E. lia.
Qed.

Lemma take_while_word (w : string) (sp : ascii) (r : string) :
  all_chars not_space w = true -> isspace sp = true ->
  take_while not_space (w ++ String sp r) = w.
Proof.
  intros A S. induction w as [| c w IH]; cbn.
  - unfold not_space. now rewrite S.
  - cbn in A. apply andb_prop in A as [Ac A]. rewrite Ac. now rewrite IH.
Qed.

Lemma take_while_word_end (w : string) :
  all_chars not_space w = true -> take_while not_space w = w.
Proof.
  intro A. induction w as [| c w IH]; cbn; [reflexivity |].
  cbn in A. apply andb_prop in A as [Ac A]. rewrite Ac. now rewrite IH.
Qed.

Lemma skip_while_word (w : string) (sp : ascii) (r : string) :
  all_chars not_space w = true -> isspace sp = true ->
  skip_while not_space (w ++ String sp r) = String sp r.
Proof.
  intros A S. induction w as [| c w IH]; cbn.
  - unfold not_space. now rewrite S.
  - cbn in A. apply andb_prop in A as [Ac A]. rewrite Ac. now rewrite IH.
Qed.

Lemma take_all (s : string) : take (String.length s) s = s.
Proof. induction s as [| c r IH]; cbn; [reflexivity | now rewrite IH]. Qed.









(** ** An IF line that holds END *)

Lemma take_while_word_then (w rest : string) :
  all_chars not_space w = true -> ends_word rest = true ->
  take_while not_space (w ++ rest) = w.
Proof.
  intros A E. destruct rest as [| sp r].
  - rewrite append_nil_r. now apply take_while_word_end.
  - now apply take_while_word.
Qed.

Lemma skip_while_spaces_append (a x : string) :
  skip_while isspace a = "" ->
  skip_while isspace (a ++ x) = skip_while isspace x.
Proof.
  induction a as [| c a IH]; intro E; [reflexivity |].
  cbn in *. destruct (isspace c); [now apply IH | discriminate].
Qed.

Lemma skip_while_spaces_some (a x : string) (c : ascii) (a1 : string) :
  skip_while isspace a = String c a1 ->
  skip_while isspace (a ++ x) = String c a1 ++ x.
Proof.
  induction a as [| d a IH]; intro E; [discriminate |].
  cbn in *. destruct (isspace d); [now apply IH |].
  now injection E as <- <-.
Qed.

Lemma skip_while_spaces_first (a : string) (c : ascii) (a1 : string) :
  skip_while isspace a = String c a1 -> isspace c = false.
Proof.
  induction a as [| d a IH]; intro E; [discriminate |].
  cbn in E. destruct (isspace d) eqn:S; [now apply IH | congruence].
Qed.

(** Splitting off the first word of a text that is followed by white
    space. *)
Lemma first_word_split (x : string) (sp : ascii) (y : string) :
  isspace sp = true ->
  take_while not_space (x ++ String sp y) = take_while not_space x
  /\ skip_while not_space (x ++ String sp y)
     = skip_while not_space x ++ String sp y.
Proof.
  intro S. induction x as [| c x [IH1 IH2]]; cbn.
  - unfold not_space. rewrite S. now split.
  - destruct (not_space c); [| now split]. now rewrite IH1, IH2.
Qed.

Lemma end_word_is_end (e : string) :
  nul_free e = true -> strcase_eq e "END" = true ->
  all_chars not_space e = true /\ String.length e = 3%nat
  /\ bcl_strncasecmp e "END" 3 = 0%Z.
Proof.
  intros N E.
  destruct (strcase_eq_word e "END" N eq_refl E eq_refl) as [A L].
  split; [exact A |]. split; [exact L |].
  rewrite strncasecmp_take.
  rewrite <- L at 1. rewrite take_all. cbn [take].
  unfold strcase_eq in E. now apply Z.eqb_eq in E.
Qed.

Lemma contains_end_found (e b : string) (sp : ascii) (n : nat) : forall a fuel,
  nul_free e = true -> strcase_eq e "END" = true -> ends_word b = true ->
  isspace sp = true ->
  (String.length a <= n)%nat -> (String.length a < fuel)%nat ->
  contains_end_loop fuel (a ++ String sp (e ++ b)) = true.
Proof.
  intros a fuel N E B S. destruct (end_word_is_end e N E) as (Ae & Le & Ce).
  assert (Fe : exists c r, e = String c r /\ isspace c = false).
  { destruct e as [| c r]; [discriminate |]. exists c, r. split; [reflexivity |].
    cbn in Ae. apply andb_prop in Ae as [Ac _]. unfold not_space in Ac.
    now apply negb_true_iff in Ac. }
  revert a fuel.
  induction n as [| n IH]; intros a fuel La Lf.
  - destruct a; [| cbn in La; lia]. destruct fuel as [| fuel]; [lia |].
    cbn [append contains_end_loop skip_while]. rewrite S.
    destruct Fe as (c & r & -> & Sc). cbn [append skip_while]. rewrite Sc.
    change (String c (r ++ b)) with (String c r ++ b).
    rewrite (take_while_word_then (String c r) b Ae B), Le, Ce. reflexivity.
  - destruct fuel as [| fuel]; [lia |]. cbn [contains_end_loop].
    destruct (skip_while isspace a) as [| c a1] eqn:Ea.
    + rewrite (skip_while_spaces_append a _ Ea). cbn [skip_while]. rewrite S.
      destruct Fe as (c & r & -> & Sc). cbn [append skip_while]. rewrite Sc.
      change (String c (r ++ b)) with (String c r ++ b).
      rewrite (take_while_word_then (String c r) b Ae B), Le, Ce. reflexivity.
    + rewrite (skip_while_spaces_some a _ c a1 Ea).
      pose proof (skip_while_spaces_first a c a1 Ea) as Sc.
      destruct (first_word_split (String c a1) sp (e ++ b) S) as [T1 T2].
      cbn [append] in T1, T2 |- *. rewrite T1, T2.
      match goal with
      | |- (if ?t then true else _) = true => destruct t; [reflexivity |]
      end.
      apply IH.
      * pose proof (skip_while_length isspace a) as L1. rewrite Ea in L1.
        cbn [skip_while]. unfold not_space at 1. rewrite Sc. cbn [negb].
        pose proof (skip_while_length not_space a1) as L2.
        cbn [String.length] in L1. lia.
      * pose proof (skip_while_length isspace a) as L1. rewrite Ea in L1.
        cbn [skip_while]. unfold not_space at 1. rewrite Sc. cbn [negb].
        pose proof (skip_while_length not_space a1) as L2.
        cbn [String.length] in L1. lia.
Qed.

Lemma line_contains_end_found (a e b : string) (sp : ascii) :
  nul_free e = true -> strcase_eq e "END" = true -> ends_word b = true ->
  isspace sp = true ->
  line_contains_end (a ++ String sp (e ++ b)) = true.
Proof.
  intros N E B S. unfold line_contains_end.
  apply (contains_end_found e b sp (String.length a)); auto.
  rewrite length_append. lia.
Qed.

(** X18. A line whose first word is IF and that holds the word END between
    white space opens no block: [line_contains_end] answers true and the
    parser adds the line to the current block as a plain line. *)
Theorem if_line_with_end_opens_no_block (st : parser_state) (i : nat)
  (kw a e b : string) (sp1 sp2 : ascii) :
  nul_free kw = true -> strcase_eq kw "IF" = true ->
  nul_free e = true -> strcase_eq e "END" = true ->
  isspace sp1 = true -> isspace sp2 = true -> ends_word b = true ->
  line_contains_end (kw ++ String sp1 (a ++ String sp2 (e ++ b))) = true
  /\ parse_one_line st i (kw ++ String sp1 (a ++ String sp2 (e ++ b)))
     = Some (add_line_to_current st (kw ++ String sp1 (a ++ String sp2 (e ++ b)))).
Proof.
  intros Nk Ek Ne Ee S1 S2 B.
  destruct (strcase_eq_word kw "IF" Nk eq_refl Ek eq_refl) as [Ak Lk].
  assert (Hc : line_contains_end (kw ++ String sp1 (a ++ String sp2 (e ++ b))) = true).
  { change (String sp1 (a ++ String sp2 (e ++ b)))
      with (String sp1 a ++ String sp2 (e ++ b)).
    rewrite <- append_assoc. now apply line_contains_end_found. }
  split; [exact Hc |].
  unfold parse_one_line.
  destruct kw as [| k kw']; [discriminate |].
  pose proof Ak as Ak'. cbn in Ak'. apply andb_prop in Ak' as [Sk _].
  unfold not_space in Sk. apply negb_true_iff in Sk.
  cbn [append skip_while]. rewrite Sk.
  assert (Hh : Ascii.eqb k "#" = false).
  { destruct (Ascii.eqb k "#") eqn:Eh; [| reflexivity].
    apply Ascii.eqb_eq in Eh. subst k. destruct kw'; discriminate Ek. }
  rewrite Hh.
  change (String k (kw' ++ String sp1 (a ++ String sp2 (e ++ b))))
    with (String k kw' ++ String sp1 (a ++ String sp2 (e ++ b))) in *.
  unfold get_first_token.
  assert (Hs : skip_while isspace (String k kw' ++ String sp1 (a ++ String sp2 (e ++ b)))
               = String k kw' ++ String sp1 (a ++ String sp2 (e ++ b))).
  { cbn [append skip_while]. now rewrite Sk. }
  rewrite Hs. cbn [append].
  change (String k (kw' ++ String sp1 (a ++ String sp2 (e ++ b))))
    with (String k kw' ++ String sp1 (a ++ String sp2 (e ++ b))).
  rewrite (take_while_word (String k kw') sp1 _ Ak S1).
  rewrite Ek, Hc. reflexivity.
Qed.

Lemma if_line_with_end_opens_no_block_witness :
  parse_one_line (parser_init []) 0 "if $state == end THEN"
  = Some (add_line_to_current (parser_init []) "if $state == end THEN").
Proof.
  apply (if_line_with_end_opens_no_block (parser_init []) 0
           "if" "$state ==" "end" " THEN" " " " "); reflexivity.
Defined.

(** ** Lines run in sequence *)

Lemma strtok_all_unfold (delims : string) (f : nat) (s : string) :
  (String.length s < f)%nat -> strtok_loop f s delims = strtok_all s delims.
Proof.
  intro L. unfold strtok_all. apply (strtok_loop_fuel delims (String.length s)); lia.
Qed.

Section EvalSequence.
Context {libm : Libm} {lib : Library}.
Variable H : handles.

Lemma eval_lines_last (lines : list string) : forall last last' st,
  value_text last = value_text last' ->
  eval_lines H lines last st = eval_lines H lines last' st.
Proof.
  induction lines as [| line rest IH]; intros last last' st E;
    cbn [eval_lines].
  - unfold ret. now rewrite E.
  - unfold bind. destruct (bcl_parse_line H line st) as [[argv st1] |]; [| reflexivity].
    destruct argv as [| cmd_name args]; [now apply IH | reflexivity].
Qed.

Lemma eval_lines_app (l1 : list string) : forall l2 last st,
  eval_lines H (l1 ++ l2) last st
  = match eval_lines H l1 last st with
    | Some ((BCL_OK, r), st1) => eval_lines H l2 r st1
    | other => other
    end.
Proof.
  induction l1 as [| line rest IH]; intros l2 last st; cbn [app eval_lines].
  - unfold ret. apply eval_lines_last. reflexivity.
  - unfold bind. destruct (bcl_parse_line H line st) as [[argv st1] |]; [| reflexivity].
    destruct argv as [| cmd_name args]; [apply IH |].
    destruct (bcl_dispatch_command H cmd_name args st1) as [[[res v] st2] |];
      [| reflexivity].
    destruct res; try reflexivity. apply IH.
Qed.

End EvalSequence.

(** X19. [bcl_eval] runs lines in sequence: evaluating [a], a newline and
    [b] is evaluating [a] and, when that ends with BCL_OK, going on with
    the lines of [b] in the interpreter it left; any other outcome of [a]
    is the outcome of the whole. *)
Theorem eval_runs_lines_in_sequence (libm : Libm) (lib : Library) (H : handles)
  (a b : string) (st : bcl_interp_t) :
  eval_body H (a ++ newline ++ b) st
  = match eval_body H a st with
    | Some ((BCL_OK, r), st1) => eval_lines H (strtok_all b newline) r st1
    | other => other
    end.
Proof.
  unfold eval_body. cbn [newline append].
  rewrite (strtok_all_append newline (chr 10) b (String.length a) eq_refl a (le_n _)).
  apply eval_lines_app.
Qed.

(** ** PROC blocks and the blocks nested in them *)

Lemma heap_get_some_lt (h : block_heap) (p : block_ptr) (b : bcl_block_t) :
  heap_get h p = Some b -> (p < List.length h)%nat.
Proof. unfold heap_get. intro E. apply nth_error_Some. congruence. Qed.

Lemma heap_get_create_old (h : block_heap) (t : block_type_t) (q : block_ptr) :
  (q < List.length h)%nat ->
  heap_get (snd (block_create h t)) q = heap_get h q.
Proof. intro L. unfold heap_get, block_create. cbn [snd]. now rewrite nth_error_app1. Qed.

Lemma heap_get_create_new (h : block_heap) (t : block_type_t) :
  heap_get (snd (block_create h t)) (List.length h)
  = Some {| b_type := t; condition := None; proc_name := None;
            proc_params := None; items := []; children := [];
            start_line_num := O |}.
Proof.
  unfold heap_get, block_create. cbn [snd].
  rewrite nth_error_app2 by lia. now rewrite Nat.sub_diag.
Qed.

Lemma transfer_items_other (its : list block_item_t) : forall h body q,
  q <> body -> heap_get (transfer_items h body its) q = heap_get h q.
Proof.
  induction its as [| it its IH]; intros h body q N; [reflexivity |].
  cbn [transfer_items]. destruct it as [line | [c |]].
  - rewrite IH by exact N. unfold block_add_line. rewrite heap_get_update.
    destruct (Nat.eqb_spec q body); [contradiction | reflexivity].
  - rewrite IH by exact N. unfold block_add_block_item. rewrite heap_get_update.
    destruct (Nat.eqb_spec q body); [contradiction | reflexivity].
  - rewrite IH by exact N. reflexivity.
Qed.

Lemma transfer_items_body (its : list block_item_t) : forall h body blk,
  heap_get h body = Some blk ->
  exists blk',
    heap_get (transfer_items h body its) body = Some blk'
    /\ items blk' = (items blk ++ owned its)%list
    /\ b_type blk' = b_type blk.
Proof.
  induction its as [| it its IH]; intros h body blk G.
  - exists blk. cbn. now rewrite app_nil_r.
  - cbn [transfer_items]. destruct it as [line | [c |]].
    + destruct (IH (block_add_line h body line) body (add_item (ITEM_LINE line) blk))
        as (blk' & G' & I' & T').
      { unfold block_add_line. rewrite heap_get_update, Nat.eqb_refl. now rewrite G. }
      exists blk'. split; [exact G' |]. split; [| exact T'].
      rewrite I'. cbn. now rewrite <- app_assoc.
    + destruct (IH (block_add_block_item h body (Some c)) body
                  (add_item (ITEM_BLOCK (Some c)) blk))
        as (blk' & G' & I' & T').
      { unfold block_add_block_item. rewrite heap_get_update, Nat.eqb_refl.
        now rewrite G. }
      exists blk'. split; [exact G' |]. split; [| exact T'].
      rewrite I'. cbn. now rewrite <- app_assoc.
    + destruct (IH h body blk G) as (blk' & G' & I' & T').
      exists blk'. repeat split; assumption.
Qed.

Lemma owned_disown (its : list block_item_t) :
  owned (map disown its) = lines_of its.
Proof.
  unfold owned, lines_of.
  induction its as [| it its IH]; [reflexivity |].
  destruct it as [line | b]; cbn [map disown filter]; now rewrite IH.
Qed.

(** What executing a PROC block does. *)
Lemma exec_proc_effect (p : block_ptr) (b : bcl_block_t) (st : bcl_interp_t)
  (name : string) :
  heap_get (heap st) p = Some b -> proc_name b = Some name ->
  exists st',
    exec_proc p b st = Some (BCL_OK, st')
    /\ bcl_hash_get (procedures st') name
       = Some {| p_name := name; params := parse_params (proc_params b);
                 body_block := Some (List.length (heap st)) |}
    /\ option_map items (heap_get (heap st') (List.length (heap st)))
       = Some (owned (items b))
    /\ heap_get (heap st') p = Some (set_items (map disown (items b)) b)
    /\ scope_stack st' = scope_stack st
    /\ global_vars st' = global_vars st.
Proof.
  intros G N. pose proof (heap_get_some_lt _ _ _ G) as Lp.
  set (fresh := {| b_type := BLOCK_NONE; condition := None; proc_name := None;
                   proc_params := None; items := []; children := [];
                   start_line_num := O |}).
  set (body := List.length (heap st)).
  set (h1 := (heap st ++ [fresh])%list).
  assert (Gb : heap_get h1 body = Some fresh).
  { unfold heap_get, h1, body. rewrite nth_error_app2 by lia.
    now rewrite Nat.sub_diag. }
  assert (Gp : heap_get h1 p = Some b).
  { unfold heap_get, h1. rewrite nth_error_app1 by exact Lp. exact G. }
  assert (Np : p <> body) by (unfold body; lia).
  destruct (transfer_items_body (items b) h1 body fresh Gb) as (blk' & G' & I' & _).
  exists (set_procedures
            (set_heap st (heap_update (transfer_items h1 body (items b)) p
                            (set_items (map disown (items b)))))
            (bcl_hash_set (procedures st) name
               (proc_create name (parse_params (proc_params b)) (Some body)))).
  split.
  { unfold exec_proc. rewrite N. reflexivity. }
  cbn [procedures set_procedures set_heap heap scope_stack global_vars].
  split; [apply hash_get_set_same |].
  split.
  { rewrite heap_get_update.
    destruct (Nat.eqb_spec body p) as [E | _]; [lia |].
    rewrite G'. cbn. now rewrite I'. }
  split.
  { rewrite heap_get_update, Nat.eqb_refl.
    rewrite transfer_items_other by exact Np. now rewrite Gp. }
  split; reflexivity.
Qed.

(** X20. Executing a PROC block registers the procedure with a fresh body
    that takes over the lines and the nested blocks, and clears the
    pointers in the PROC block; executing the same block once more
    registers a body that holds the lines only. *)
Theorem proc_block_gives_up_its_blocks (p : block_ptr) (b : bcl_block_t)
  (st : bcl_interp_t) (name : string) :
  heap_get (heap st) p = Some b -> proc_name b = Some name ->
  exists st' b' st'',
    exec_proc p b st = Some (BCL_OK, st')
    /\ bcl_hash_get (procedures st') name
       = Some {| p_name := name; params := parse_params (proc_params b);
                 body_block := Some (List.length (heap st)) |}
    /\ option_map items (heap_get (heap st') (List.length (heap st)))
       = Some (owned (items b))
    /\ heap_get (heap st') p = Some b'
    /\ items b' = map disown (items b)
    /\ exec_proc p b' st' = Some (BCL_OK, st'')
    /\ bcl_hash_get (procedures st'') name
       = Some {| p_name := name; params := parse_params (proc_params b);
                 body_block := Some (List.length (heap st')) |}
    /\ option_map items (heap_get (heap st'') (List.length (heap st')))
       = Some (lines_of (items b)).
Proof.
  intros G N.
  destruct (exec_proc_effect p b st name G N) as (st' & E1 & P1 & B1 & G1 & _).
  destruct (exec_proc_effect p (set_items (map disown (items b)) b) st' name G1 N)
    as (st'' & E2 & P2 & B2 & _).
  exists st', (set_items (map disown (items b)) b), st''.
  repeat (split; [assumption || reflexivity |]).
  cbn [items set_items] in B2. now rewrite owned_disown in B2.
Qed.

Lemma proc_block_gives_up_its_blocks_witness :
  exists b st' b' st'',
    heap_get (heap (loaded nested_proc_script)) 1%nat = Some b
    /\ exec_proc 1%nat b (loaded nested_proc_script) = Some (BCL_OK, st')
    /\ option_map items (heap_get (heap st') 3%nat)
       = Some [ITEM_BLOCK (Some 2%nat); ITEM_LINE "SET Q 1"]
    /\ exec_proc 1%nat b' st' = Some (BCL_OK, st'')
    /\ option_map items (heap_get (heap st'') 4%nat) = Some [ITEM_LINE "SET Q 1"].
Proof.
  destruct (proc_block_gives_up_its_blocks 1%nat
              {| b_type := BLOCK_PROC; condition := None; proc_name := Some "f";
                 proc_params := None;
                 items := [ITEM_BLOCK (Some 2%nat); ITEM_LINE "SET Q 1"];
                 children := []; start_line_num := 1 |}
              (loaded nested_proc_script) "f" eq_refl eq_refl)
    as (st' & b' & st'' & E1 & _ & B1 & _ & _ & E2 & _ & B2).
  eexists _, st', b', st''.
  split; [reflexivity |]. split; [exact E1 |]. split; [exact B1 |].
  split; [exact E2 |].
  vm_compute in E1. injection E1 as <-. exact B2.
Defined.
